(** * Autonomous Game Environment Explorer: grid world, BFS planner, ReAct loop

    A shallow embedding of [environment.py] and [agent_explorer.py], and
    the properties of the grid world, of the planner and of the agent loop
    proved about it.

    The model:
    - Python [int] is [Z]; a position is a pair of [Z].
    - Python [str] is [string]; the model covers ASCII text (bytes above
      127 are carried along unchanged by [upper] and are neither
      whitespace nor word characters). Python's letter case, white space
      and word characters go beyond ASCII, so every statement that rests
      on [upper], [lower], [isspace] or [isword] for what a text is, and
      not only for what the code computes from it, asks for [ascii_text].
    - A grid is a list of rows of cells; list indexing follows Python
      (negative indices count from the end, anything else out of range
      raises [IndexError]).
    - [dict] objects ([map_memory], [prev], [prev_move], the tool
      registry) are [gmap]s; the insertion order of [map_memory], which
      only shows when the dict is printed, is not kept.
    - Exceptions are explicit: a computation returns [Ret v], [Raise e],
      or [OutOfFuel] when the fuel given to a [while] loop runs out. The
      planner's loops are shown never to run out on a well-formed grid.
    - The module-level state is passed explicitly: the one
      [SimpleEnvironment], and the attributes [_plan] and [_plan_owner]
      that [get_llm_response] keeps on its own function object.
    - The loop is written over an arbitrary decision source, so that its
      handling of messages the planner never sends can be stated;
      [run_agent_loop] is its instance at [get_llm_response].
    - Of the console output the model keeps the lines that announce a tool
      call or a [break].
    - [config.py] only reads the API key; [get_api_key] is imported by
      [agent_explorer.py] and never called, so it is left out.

    The file has the model first, then the vocabulary of the statements
    (reachability, the row-major order, operation sequences), then the
    proofs: Python primitives, [move_agent], the frame and the position
    invariant, the breadth-first search, the planner, the loop. A last
    part has further properties: the memory log, reachable positions and
    the way back, the text of positions, the dispatch of [update_map],
    runs over any decision source and their failures, requests without a
    move in between, runs of the planner for every budget, the agreement
    of the tools with one another and with the planner's graph, the
    parsing of messages in the output format, the causes of the success
    token, the answers of the planner, the scan for Goal cells and the
    Manhattan distance. The two patterns of the loop are then set against
    their matches, stated on the text of a message, and the loop's
    handling of a message is given by that text. *)

From Stdlib Require Import ZArith List String Ascii DecimalString DecimalZ Lia.
From stdpp Require Import gmap strings list sorting.

Open Scope string_scope.
Open Scope Z_scope.

(** ** Exceptions *)

Inductive pyexc :=
| IndexError
| KeyError (key : Z * Z)
| TypeError (msg : string).

Inductive result (A : Type) :=
| Ret (a : A)
| Raise (e : pyexc)
| OutOfFuel.

Arguments Ret {A} a.
Arguments Raise {A} e.
Arguments OutOfFuel {A}.

Global Instance result_bind : MBind result := λ A B k m,
  match m with
  | Ret a => k a
  | Raise e => Raise e
  | OutOfFuel => OutOfFuel
  end.

(** ** Python primitives *)

Module Py.

Definition len {A} (l : list A) : Z := Z.of_nat (length l).

(** [l[i]] *)
Definition getitem {A} (l : list A) (i : Z) : result A :=
  let j := if i <? 0 then i + len l else i in
  if (0 <=? j) && (j <? len l) then
    match l !! Z.to_nat j with
    | Some x => Ret x
    | None => Raise IndexError
    end
  else Raise IndexError.

(** [str(n)] for an [int] *)
Definition str_int (z : Z) : string := NilEmpty.string_of_int (Z.to_int z).

(** [str((r, c))] for a pair of [int]s *)
Definition str_pos (p : Z * Z) : string :=
  "(" ++ str_int (fst p) ++ ", " ++ str_int (snd p) ++ ")".

Definition upper_ascii (c : ascii) : ascii :=
  let n := nat_of_ascii c in
  if ((97 <=? n) && (n <=? 122))%nat then ascii_of_nat (n - 32) else c.

Definition lower_ascii (c : ascii) : ascii :=
  let n := nat_of_ascii c in
  if ((65 <=? n) && (n <=? 90))%nat then ascii_of_nat (n + 32) else c.

(** [s.upper()] *)
Fixpoint upper (s : string) : string :=
  match s with
  | EmptyString => EmptyString
  | String c s' => String (upper_ascii c) (upper s')
  end.

(** [s.lower()] *)
Fixpoint lower (s : string) : string :=
  match s with
  | EmptyString => EmptyString
  | String c s' => String (lower_ascii c) (lower s')
  end.

(** [s.startswith(p)] *)
Definition startswith (s p : string) : bool := String.prefix p s.

(** [needle in s] *)
Fixpoint contains (needle s : string) : bool :=
  String.prefix needle s ||
  match s with
  | EmptyString => false
  | String _ s' => contains needle s'
  end.

(** [c.isspace()]: tab, newline, vertical tab, form feed, carriage
    return, the separators 28 to 31, and space. *)
Definition isspace (c : ascii) : bool :=
  let n := nat_of_ascii c in
  (((9 <=? n) && (n <=? 13)) || ((28 <=? n) && (n <=? 32)))%nat.

(** the regex class [\w] *)
Definition isword (c : ascii) : bool :=
  let n := nat_of_ascii c in
  (((48 <=? n) && (n <=? 57)) || ((65 <=? n) && (n <=? 90))
   || ((97 <=? n) && (n <=? 122)) || (n =? 95))%nat.

Definition isnewline (c : ascii) : bool := (nat_of_ascii c =? 10)%nat.

Fixpoint lstrip (s : string) : string :=
  match s with
  | String c s' => if isspace c then lstrip s' else s
  | EmptyString => EmptyString
  end.

Fixpoint rstrip (s : string) : string :=
  match s with
  | EmptyString => EmptyString
  | String c s' =>
      match rstrip s' with
      | EmptyString => if isspace c then EmptyString else String c EmptyString
      | t => String c t
      end
  end.

(** [s.strip()] *)
Definition strip (s : string) : string := rstrip (lstrip s).

(** [s.split(',', 1)]: one part when [s] has no comma, otherwise the
    text before the first comma and the text after it. *)
Fixpoint split_comma1 (s : string) : string * option string :=
  match s with
  | EmptyString => (EmptyString, None)
  | String c s' =>
      if Ascii.eqb c "," then (EmptyString, Some s')
      else let '(a, b) := split_comma1 s' in (String c a, b)
  end.

(** the longest prefix of [s] whose characters satisfy [p], and the rest *)
Fixpoint span (p : ascii → bool) (s : string) : string * string :=
  match s with
  | EmptyString => (EmptyString, EmptyString)
  | String c s' =>
      if p c then let '(a, b) := span p s' in (String c a, b)
      else (EmptyString, s)
  end.

(** [s] with the prefix [p] removed, when [s] starts with [p] *)
Fixpoint drop_prefix (p s : string) : option string :=
  match p with
  | EmptyString => Some s
  | String a p' =>
      match s with
      | EmptyString => None
      | String b s' => if Ascii.eqb a b then drop_prefix p' s' else None
      end
  end.

End Py.

(** [str(e)] for the exceptions of the model. *)
Definition str_exc (e : pyexc) : string :=
  match e with
  | IndexError => "list index out of range"
  | KeyError key => Py.str_pos key
  | TypeError msg => msg
  end.

(** ** environment.py *)

(** Cell tokens of the grid: [0], ['W'] and ['T']. *)
Inductive cell := Open | Wall | Treasure.

Global Instance cell_eq_dec : EqDecision cell.
Proof. solve_decision. Defined.

Abbreviation position := (Z * Z)%type.

Record SimpleEnvironment := mkEnv {
  grid : list (list cell);
  agent_pos : position;
  map_memory : gmap string string
}.

(** [SimpleEnvironment.__init__] *)
Definition init_grid : list (list cell) :=
  [ [Wall; Wall; Wall; Wall; Wall];
    [Wall; Open; Open; Wall; Wall];
    [Wall; Open; Wall; Open; Treasure];
    [Wall; Open; Open; Open; Wall];
    [Wall; Wall; Wall; Wall; Wall] ].

Definition init_env : SimpleEnvironment :=
  {| grid := init_grid; agent_pos := (1, 1); map_memory := ∅ |}.

(** [get_pos] *)
Definition get_pos (env : SimpleEnvironment) : result (string * SimpleEnvironment) :=
  Ret (Py.str_pos (agent_pos env), env).

(** [update_map] *)
Definition update_map (pos observation : string) (env : SimpleEnvironment)
  : result (string * SimpleEnvironment) :=
  Ret ("OBSERVATION: Map memory updated for location " ++ pos ++ ".",
       {| grid := grid env; agent_pos := agent_pos env;
          map_memory := <[pos := observation]> (map_memory env) |}).

(** [look_around] *)
Definition look_around (env : SimpleEnvironment) : result (string * SimpleEnvironment) :=
  let '(r, c) := agent_pos env in
  row ← Py.getitem (grid env) r;
  current_cell ← Py.getitem row c;
  if decide (current_cell = Treasure) then
    Ret ("SUCCESS: You are standing on the Treasure tile!", env)
  else
    Ret ("OBSERVATION: You are at " ++ Py.str_pos (r, c) ++ ". This area is Open.", env).

(** The [if]/[elif] chain of [move_agent] over the upper-cased direction:
    the target cell, or [None] for the [else] branch. *)
Definition step_target (direction : string) (r c : Z) : option position :=
  if String.eqb direction "NORTH" then Some (r - 1, c)
  else if String.eqb direction "SOUTH" then Some (r + 1, c)
  else if String.eqb direction "EAST" then Some (r, c + 1)
  else if String.eqb direction "WEST" then Some (r, c - 1)
  else None.

Definition msg_invalid : string :=
  "ERROR: Invalid direction. Use NORTH, SOUTH, EAST, or WEST.".
Definition msg_success : string :=
  "SUCCESS: GOAL FOUND. You have reached the Treasure!".
Definition msg_moved (p : position) : string :=
  "OBSERVATION: Moved successfully. New position: " ++ Py.str_pos p ++ ". Area is Open.".
Definition msg_blocked : string :=
  "OBSERVATION: Movement blocked by a Wall or grid boundary. Position remains unchanged.".

(** The guard [0 <= nr < len(g) and 0 <= nc < len(g[0]) and g[nr][nc] != 'W'],
    with Python's left-to-right short-circuit evaluation. *)
Definition passable (g : list (list cell)) (nr nc : Z) : result bool :=
  if (0 <=? nr) && (nr <? Py.len g) then
    row0 ← Py.getitem g 0;
    if (0 <=? nc) && (nc <? Py.len row0) then
      row ← Py.getitem g nr;
      x ← Py.getitem row nc;
      Ret (bool_decide (x ≠ Wall))
    else Ret false
  else Ret false.

(** [move_agent] *)
Definition move_agent (direction : string) (env : SimpleEnvironment)
  : result (string * SimpleEnvironment) :=
  let '(r, c) := agent_pos env in
  let direction := Py.upper direction in
  match step_target direction r c with
  | None => Ret (msg_invalid, env)
  | Some (new_r, new_c) =>
      ok ← passable (grid env) new_r new_c;
      if ok : bool then
        let env' := {| grid := grid env; agent_pos := (new_r, new_c);
                       map_memory := map_memory env |} in
        row ← Py.getitem (grid env') new_r;
        x ← Py.getitem row new_c;
        if decide (x = Treasure) then Ret (msg_success, env')
        else Ret (msg_moved (agent_pos env'), env')
      else Ret (msg_blocked, env)
  end.

(** The tools of [AVAILABLE_TOOLS], bound methods of the one environment. *)
Inductive tool := Tool_move_agent | Tool_look_around | Tool_update_map | Tool_get_pos.

Definition AVAILABLE_TOOLS : gmap string tool :=
  <["move_agent" := Tool_move_agent]>
  (<["look_around" := Tool_look_around]>
   (<["update_map" := Tool_update_map]>
    (<["get_pos" := Tool_get_pos]> ∅))).


(** ** agent_explorer.py: the planner *)

Definition nl : string := String (ascii_of_nat 10) EmptyString.
Definition dquote : string := String (ascii_of_nat 34) EmptyString.

Definition SYSTEM_PROMPT : string :=
  nl ++
"You are an **Autonomous Explorer Agent** operating in a 5x5 grid world.
Your sole goal is to find the 'T' (Treasure) and report the SUCCESS message.
Your current location is always (R, C). You start at (1, 1).

You MUST build an explicit map in your Thought process based on past Observations.
You must use the `update_map` tool to log every unique location and observation to build your persistent memory.

You must follow the **ReAct pattern** (Thought -> Action -> Observation) in a loop.

# Available Tools:
# move_agent(direction: str) -> Attempts to move the agent. Directions: NORTH, SOUTH, EAST, or WEST. Returns an OBSERVATION message.
# look_around() -> Returns the state of your current location. Useful for verifying the cell type.
# update_map(pos: str, observation: str) -> Logs a key-value pair into your memory. Use get_pos() for the 'pos' argument.
# get_pos() -> Returns your current position as a string tuple, e.g., '(1, 1)'.

# Output Format:
Your response MUST strictly use the following format for tool calls:
Thought: [Your reasoning based on the map memory and current observation. Why is this the best move?]
Action: [Tool Name]
Action Input: [Tool Input (MUST be a single string for tool functions)]

If you find the Treasure, the response from move_agent will be " ++ dquote ++ "SUCCESS..." ++ dquote ++ ". At that point, your final response MUST be:
Final Answer: [Report the success and the final path, if possible.]
".

(** The direction table of [neighbors], in its exploration order. *)
Definition DIRECTIONS : list (string * (Z * Z)) :=
  [("NORTH", (-1, 0)); ("SOUTH", (1, 0)); ("EAST", (0, 1)); ("WEST", (0, -1))].

(** The guard of [neighbors]:
    [0 <= nr < rows and 0 <= nc < cols and grid[nr][nc] != 'W']. *)
Definition cell_ok (g : list (list cell)) (rows cols nr nc : Z) : result bool :=
  if (0 <=? nr) && (nr <? rows) && (0 <=? nc) && (nc <? cols) then
    row ← Py.getitem g nr;
    x ← Py.getitem row nc;
    Ret (bool_decide (x ≠ Wall))
  else Ret false.

(** The values yielded by the generator [neighbors(pos)], in order. *)
Fixpoint neighbors_of (g : list (list cell)) (rows cols : Z) (pos : position)
    (ds : list (string * (Z * Z))) : result (list (position * string)) :=
  match ds with
  | [] => Ret []
  | (d, (dr, dc)) :: ds' =>
      let nr := fst pos + dr in
      let nc := snd pos + dc in
      ok ← cell_ok g rows cols nr nc;
      rest ← neighbors_of g rows cols pos ds';
      Ret (if ok : bool then ((nr, nc), d) :: rest else rest)
  end.

Definition neighbors (g : list (list cell)) (rows cols : Z) (pos : position)
  : result (list (position * string)) :=
  neighbors_of g rows cols pos DIRECTIONS.

(** The local state of the search: the deque [q] and the dicts [prev]
    and [prev_move]. *)
Record bfs_state := mkBfs {
  q : list position;
  prev : gmap position (option position);
  prev_move : gmap position string
}.

(** Body of [for nbr, direction in neighbors(node)]. *)
Definition visit (node : position) (st : bfs_state) (nd : position * string) : bfs_state :=
  match prev st !! nd.1 with
  | Some _ => st
  | None =>
      {| q := q st ++ [nd.1];
         prev := <[nd.1 := Some node]> (prev st);
         prev_move := <[nd.1 := nd.2]> (prev_move st) |}
  end.

(** The [while q:] loop; the boolean is [found]. *)
Fixpoint bfs_loop (fuel : nat) (g : list (list cell)) (rows cols : Z)
    (target : position) (st : bfs_state) : result (bool * bfs_state) :=
  match fuel with
  | O => OutOfFuel
  | S fuel' =>
      match q st with
      | [] => Ret (false, st)
      | node :: q' =>
          let st1 := {| q := q'; prev := prev st; prev_move := prev_move st |} in
          if decide (node = target) then Ret (true, st1)
          else
            nbrs ← neighbors g rows cols node;
            bfs_loop fuel' g rows cols target (foldl (visit node) st1 nbrs)
      end
  end.

(** The loop [while prev[cur] is not None], appending to [path_dirs]. *)
Fixpoint reconstruct (fuel : nat) (prev : gmap position (option position))
    (prev_move : gmap position string) (cur : position) (path_dirs : list string)
  : result (list string) :=
  match fuel with
  | O => OutOfFuel
  | S fuel' =>
      match prev !! cur with
      | None => Raise (KeyError cur)
      | Some None => Ret path_dirs
      | Some (Some p) =>
          match prev_move !! cur with
          | None => Raise (KeyError cur)
          | Some d => reconstruct fuel' prev prev_move p (path_dirs ++ [d])
          end
      end
  end.

(** Every pass of either [while] loop pops a queue entry or climbs one
    link of [prev]; [rows * cols + 2] passes are never exceeded on a
    well-formed grid (lemma [bfs_search]). *)
Definition search_fuel (rows cols : Z) : nat := S (S (Z.to_nat (rows * cols))).

(** [(r, c) for r in range(rows) for c in range(cols)] *)
Definition all_cells (rows cols : Z) : list position :=
  r ← seqZ 0 rows; c ← seqZ 0 cols; [(r, c)].

(** The filter [if grid[r][c] == 'T'] over a list of cells. *)
Fixpoint treasure_cells (g : list (list cell)) (cells : list position)
  : result (list position) :=
  match cells with
  | [] => Ret []
  | rc :: cells' =>
      row ← Py.getitem g rc.1;
      x ← Py.getitem row rc.2;
      rest ← treasure_cells g cells';
      Ret (if decide (x = Treasure) then rc :: rest else rest)
  end.

Inductive plan_result :=
| NoTarget
| NoPath
| Path (target : position) (path_dirs : list string).

(** The first half of [get_llm_response], up to [path_dirs.reverse()]. *)
Definition plan_path (g : list (list cell)) (start : position) : result plan_result :=
  let rows := Py.len g in
  row0 ← Py.getitem g 0;
  let cols := Py.len row0 in
  targets ← treasure_cells g (all_cells rows cols);
  match targets with
  | [] => Ret NoTarget
  | target :: _ =>
      let st0 := {| q := [start]; prev := {[start := None]}; prev_move := ∅ |} in
      '(found, st) ← bfs_loop (search_fuel rows cols) g rows cols target st0;
      if found : bool then
        path_dirs ← reconstruct (search_fuel rows cols) (prev st) (prev_move st) target [];
        Ret (Path target (rev path_dirs))
      else Ret NoPath
  end.

(** The attributes [_plan] and [_plan_owner] of the function object;
    [None] while [hasattr(get_llm_response, "_plan")] is false. *)
Record plan_cache := mkCache {
  _plan : list string;
  _plan_owner : position
}.

Record message := mkMsg { role : string; content : string }.

Definition msg_no_treasure : string :=
  "Final Answer: No Treasure tile ('T') present in the environment grid.".
Definition msg_no_path : string :=
  "Final Answer: No path to Treasure found (blocked by walls).".
Definition msg_final_success : string :=
  "Final Answer: SUCCESS - Agent reached the Treasure.".
Definition msg_no_steps : string :=
  "Final Answer: No further steps in plan and not on Treasure.".

Definition react_message (remaining : list string) (next_dir : string) : string :=
  let thought := "Thought: I computed a path of "
                   ++ Py.str_int (Py.len remaining + 1)
                   ++ " steps to the Treasure. Next move is " ++ next_dir ++ "." in
  let action := "Action: move_agent" in
  let action_input := "Action Input: " ++ next_dir in
  thought ++ nl ++ action ++ nl ++ action_input.

(** [get_llm_response]: the environment is read, never written. *)
Definition get_llm_response (history : list message) (env : SimpleEnvironment)
    (cache : option plan_cache) : result (string * option plan_cache) :=
  pr ← plan_path (grid env) (agent_pos env);
  match pr with
  | NoTarget => Ret (msg_no_treasure, cache)
  | NoPath => Ret (msg_no_path, cache)
  | Path _ path_dirs =>
      let c :=
        match cache with
        | None => {| _plan := path_dirs; _plan_owner := agent_pos env |}
        | Some c0 =>
            if decide (_plan_owner c0 ≠ agent_pos env)
            then {| _plan := path_dirs; _plan_owner := agent_pos env |}
            else c0
        end in
      match _plan c with
      | [] =>
          row ← Py.getitem (grid env) (agent_pos env).1;
          x ← Py.getitem row (agent_pos env).2;
          if decide (x = Treasure) then Ret (msg_final_success, Some c)
          else Ret (msg_no_steps, Some c)
      | next_dir :: rest =>
          Ret (react_message rest next_dir,
               Some {| _plan := rest; _plan_owner := _plan_owner c |})
      end
  end.


(** ** agent_explorer.py: the loop *)

(** [re.search(r"Action:\s*(\w+)", s)], group 1 of the leftmost match.
    [\s] and [\w] are disjoint, so at a given occurrence of the label the
    greedy [\s*] either is followed by a word character or there is no
    match at that occurrence. *)
Definition match_action_here (s : string) : option string :=
  match Py.drop_prefix "Action:" s with
  | None => None
  | Some rest =>
      let w := (Py.span Py.isword (Py.span Py.isspace rest).2).1 in
      match w with
      | EmptyString => None
      | _ => Some w
      end
  end.

Fixpoint search_action (s : string) : option string :=
  match match_action_here s with
  | Some w => Some w
  | None =>
      match s with
      | EmptyString => None
      | String _ s' => search_action s'
      end
  end.

(** The last character of [s] that is not a newline. *)
Fixpoint last_dot (s : string) : option ascii :=
  match s with
  | EmptyString => None
  | String c s' =>
      match last_dot s' with
      | Some d => Some d
      | None => if Py.isnewline c then None else Some c
      end
  end.

(** [re.search(r"Action Input:\s*(.+)", s)], group 1 of the leftmost
    match. After the greedy [\s*], [.+] takes the rest of the line; when
    nothing but white space follows the label, [\s*] gives back characters
    until [.] finds one that is not a newline. *)
Definition match_input_here (s : string) : option string :=
  match Py.drop_prefix "Action Input:" s with
  | None => None
  | Some rest =>
      let '(ws, r1) := Py.span Py.isspace rest in
      match r1 with
      | EmptyString =>
          match last_dot ws with
          | Some c => Some (String c EmptyString)
          | None => None
          end
      | _ => Some (Py.span (λ c, negb (Py.isnewline c)) r1).1
      end
  end.

Fixpoint search_action_input (s : string) : option string :=
  match match_input_here s with
  | Some w => Some w
  | None =>
      match s with
      | EmptyString => None
      | String _ s' => search_action_input s'
      end
  end.

(** [AVAILABLE_TOOLS[action](action_input)]: a bound method called with
    one positional argument. Only [move_agent] has that signature. *)
Definition call_tool (t : tool) (arg : string) (env : SimpleEnvironment)
  : result (string * SimpleEnvironment) :=
  match t with
  | Tool_move_agent => move_agent arg env
  | Tool_look_around =>
      Raise (TypeError "SimpleEnvironment.look_around() takes 1 positional argument but 2 were given")
  | Tool_get_pos =>
      Raise (TypeError "SimpleEnvironment.get_pos() takes 1 positional argument but 2 were given")
  | Tool_update_map =>
      Raise (TypeError "SimpleEnvironment.update_map() missing 1 required positional argument: 'observation'")
  end.

Definition msg_unknown_tool (action : string) : string :=
  "ERROR: Tool '" ++ action ++ "' not found in AVAILABLE_TOOLS.".

(** Step 3 of the loop body: [if action in AVAILABLE_TOOLS: try ... except
    ... else ...]. The result is [observation_result] and the environment
    after the call. *)
Definition execute_action (action action_input : string) (env : SimpleEnvironment)
  : result (string * SimpleEnvironment) :=
  match AVAILABLE_TOOLS !! action with
  | Some t =>
      let called :=
        if String.eqb action "update_map" then
          let parts := Py.split_comma1 action_input in
          let pos_str := Py.strip parts.1 in
          let obs_str := match parts.2 with
                         | Some p1 => Py.strip p1
                         | None => "Unknown"
                         end in
          update_map pos_str obs_str env
        else call_tool t action_input env in
      match called with
      | Ret r => Ret r
      | Raise e =>
          Ret ("TOOL ERROR: Failed to execute tool '" ++ action ++ "'. Error: "
                 ++ str_exc e, env)
      | OutOfFuel => OutOfFuel
      end
  | None => Ret (msg_unknown_tool action, env)
  end.

(** How the [for] loop was left: by one of its three [break]s, or by
    running out of [range(max_steps)]. *)
Inductive exit_kind := FinalAnswer | ProtocolFailure | GoalFound | BudgetExhausted.

Definition print_terminated : string := nl ++ "AGENT TERMINATED:".
Definition print_format_error : string :=
  nl ++ "ERROR: LLM output did not match ReAct format. Terminating.".
Definition print_executing (action action_input : string) : string :=
  nl ++ "--> Executing Tool: " ++ action ++ "('" ++ action_input ++ "')".
Definition print_goal : string := nl ++ "AGENT HAS FOUND THE GOAL! Shutting down.".

Section AgentLoop.

(** The decision source called at step 1 of the loop body, with the
    state it keeps between calls. [run_agent_loop] below instantiates it
    with [get_llm_response] and its plan cache. *)
Context {DS : Type}.
Variable llm : list message → SimpleEnvironment → DS → result (string * DS).

(** The state the loop works on. [console] keeps, of everything printed,
    the three lines announcing a [break] and the line announcing a tool
    call. *)
Record loop_state := mkLoop {
  env : SimpleEnvironment;
  source : DS;
  conversation_history : list message;
  console : list string
}.

(** One pass of the [for] body: [Some k] when it ends in a [break]. *)
Definition loop_body (st : loop_state) : result (option exit_kind * loop_state) :=
  '(llm_output, src') ← llm (conversation_history st) (env st) (source st);
  let hist1 := (conversation_history st
                  ++ [{| role := "assistant"; content := llm_output |}])%list in
  if Py.startswith llm_output "Final Answer:" then
    Ret (Some FinalAnswer,
         {| env := env st; source := src'; conversation_history := hist1;
            console := console st ++ [print_terminated] |})
  else
    match search_action llm_output, search_action_input llm_output with
    | Some action_match, Some input_match =>
        let action := Py.strip action_match in
        let action_input := Py.strip input_match in
        let out1 := (console st ++ [print_executing action action_input])%list in
        '(observation_result, env') ← execute_action action action_input (env st);
        let hist2 := (hist1 ++ [{| role := "user";
                                   content := "Observation: " ++ observation_result |}])%list in
        if Py.contains "SUCCESS" observation_result then
          Ret (Some GoalFound,
               {| env := env'; source := src'; conversation_history := hist2;
                  console := out1 ++ [print_goal] |})
        else
          Ret (None,
               {| env := env'; source := src'; conversation_history := hist2;
                  console := out1 |})
    | _, _ =>
        Ret (Some ProtocolFailure,
             {| env := env st; source := src'; conversation_history := hist1;
                console := console st ++ [print_format_error] |})
    end.

(** [for step in range(max_steps)], with the number of passes started. *)
Fixpoint for_steps (steps : nat) (done : nat) (st : loop_state)
  : result (exit_kind * nat * loop_state) :=
  match steps with
  | O => Ret (BudgetExhausted, done, st)
  | S steps' =>
      '(brk, st') ← loop_body st;
      match brk with
      | Some k => Ret (k, S done, st')
      | None => for_steps steps' (S done) st'
      end
  end.

Definition initial_history : list message :=
  [ {| role := "system"; content := SYSTEM_PROMPT |};
    {| role := "user";
       content := "Start exploration now. Find the Treasure efficiently." |} ].

(** [run_agent_loop] from a given environment and decision-source state. *)
Definition agent_loop (max_steps : Z) (e : SimpleEnvironment) (s : DS)
  : result (exit_kind * nat * loop_state) :=
  for_steps (Z.to_nat max_steps) 0%nat
    {| env := e; source := s; conversation_history := initial_history;
       console := [] |}.

End AgentLoop.

Arguments loop_state : clear implicits.

(** [run_agent_loop(max_steps)] as the program runs it. *)
Definition run_agent_loop (max_steps : Z) (e : SimpleEnvironment)
    (cache : option plan_cache) :=
  agent_loop get_llm_response max_steps e cache.


(** ** Specification vocabulary *)

(** The cell at an in-range position (no wrap-around of negative indices). *)
Definition cell_at (g : list (list cell)) (p : position) : option cell :=
  if (0 <=? p.1) && (0 <=? p.2) then
    row ← g !! Z.to_nat p.1; row !! Z.to_nat p.2
  else None.

(** A cell the agent may stand on: inside the grid and not a wall. *)
Definition free (g : list (list cell)) (p : position) : bool :=
  match cell_at g p with
  | Some x => bool_decide (x ≠ Wall)
  | None => false
  end.

(** A grid is a non-empty rectangular matrix. *)
Definition wf_grid (g : list (list cell)) : Prop :=
  g ≠ [] ∧ Forall (λ row : list cell, length row = length (default [] (head g))) g.

(** [len(grid[0])], the number of columns. *)
Definition width (g : list (list cell)) : Z := Py.len (default [] (head g)).

(** One legal move: the direction names a cardinal step (in any letter
    case) and the cell it leads to is free. *)
Definition edge (g : list (list cell)) (u : position) (d : string) (v : position) : Prop :=
  step_target (Py.upper d) u.1 u.2 = Some v ∧ free g v = true.

(** A sequence of legal moves from [u] to [v]. *)
Inductive walk (g : list (list cell)) : position → list string → position → Prop :=
| walk_nil u : walk g u [] u
| walk_cons u d w ds v : edge g u d w → walk g w ds v → walk g u (d :: ds) v.

(** Row-major order on positions. *)
Definition row_major_le (p p' : position) : Prop :=
  p.1 < p'.1 ∨ (p.1 = p'.1 ∧ p.2 ≤ p'.2).

(** The first Goal cell of the row-major scan. *)
Definition first_goal (g : list (list cell)) (t : position) : Prop :=
  cell_at g t = Some Treasure ∧
  ∀ p, cell_at g p = Some Treasure → row_major_le t p.

(** Replaying a list of directions through [move_agent]. *)
Fixpoint replay (ds : list string) (e : SimpleEnvironment) : result (list string * SimpleEnvironment) :=
  match ds with
  | [] => Ret ([], e)
  | d :: ds' =>
      '(obs, e') ← move_agent d e;
      '(rest, e'') ← replay ds' e';
      Ret (obs :: rest, e'')
  end.

(** The environment after the assignment [self.agent_pos = v]. *)
Definition set_pos (e : SimpleEnvironment) (v : position) : SimpleEnvironment :=
  {| grid := grid e; agent_pos := v; map_memory := map_memory e |}.

(** The four cardinal values. *)
Definition cardinals : list string := ["NORTH"; "SOUTH"; "EAST"; "WEST"].

(** The four observation kinds of [move_agent], told apart by the fixed
    opening words of the text. *)
Inductive move_kind := KSuccess | KMoved | KBlocked | KInvalid.

(** The kind of an observation text, if it is one of the four. *)
Definition kind_of (obs : string) : option move_kind :=
  if Py.startswith obs "SUCCESS: GOAL FOUND." then Some KSuccess
  else if Py.startswith obs "OBSERVATION: Moved successfully." then Some KMoved
  else if Py.startswith obs "OBSERVATION: Movement blocked" then Some KBlocked
  else if Py.startswith obs "ERROR: Invalid direction." then Some KInvalid
  else None.

(** The four methods of [SimpleEnvironment] with their own arguments. *)
Inductive operation :=
| OpMove (direction : string)
| OpLookAround
| OpGetPos
| OpRecord (pos observation : string).

(** Calling the method an operation stands for. *)
Definition run_operation (o : operation) (e : SimpleEnvironment)
  : result (string * SimpleEnvironment) :=
  match o with
  | OpMove d => move_agent d e
  | OpLookAround => look_around e
  | OpGetPos => get_pos e
  | OpRecord p obs => update_map p obs e
  end.

(** The environment after a call. Each method does its only assignment
    after its last expression that can raise, so a call that raises leaves
    the attributes as they were. *)
Definition after (e : SimpleEnvironment) (o : operation) : SimpleEnvironment :=
  match run_operation o e with
  | Ret (_, e') => e'
  | _ => e
  end.

(** The environment after a sequence of calls. *)
Definition after_all (os : list operation) (e : SimpleEnvironment) : SimpleEnvironment :=
  foldl after e os.

Definition is_move (o : operation) : bool :=
  match o with OpMove _ => true | _ => false end.

Definition is_record (o : operation) : bool :=
  match o with OpRecord _ _ => true | _ => false end.

(** A sequence of calls as a caller sees it: the first call that raises
    ends it. *)
Fixpoint run_operations (os : list operation) (e : SimpleEnvironment)
  : result (list string * SimpleEnvironment) :=
  match os with
  | [] => Ret ([], e)
  | o :: os' =>
      '(obs, e') ← run_operation o e;
      '(rest, e'') ← run_operations os' e';
      Ret (obs :: rest, e'')
  end.

(** Strict row-major order. *)
Definition row_major_lt (p p' : position) : Prop :=
  p.1 < p'.1 ∨ (p.1 = p'.1 ∧ p.2 < p'.2).

(** The plan for the program's own grid, from (1, 1). *)
Definition init_path : list string :=
  ["SOUTH"; "SOUTH"; "EAST"; "EAST"; "NORTH"; "EAST"].

(** All characters of a string satisfy a test. *)
Fixpoint all_chars (p : ascii → bool) (s : string) : bool :=
  match s with
  | EmptyString => true
  | String c s' => p c && all_chars p s'
  end.

(** The characters [str] of an [int] is made of. *)
Definition is_digit_or_minus (c : ascii) : bool :=
  let n := nat_of_ascii c in (((48 <=? n) && (n <=? 57)) || (n =? 45))%nat.

(** The two kinds of entries the loop appends to the history. *)
Definition assistant (text : string) : message :=
  {| role := "assistant"; content := text |}.

Definition observation (text : string) : message :=
  {| role := "user"; content := "Observation: " ++ text |}.

Definition is_assistant (m : message) : bool := String.eqb (role m) "assistant".

(** The number of decision-source messages in a history. *)
Definition assistant_count (h : list message) : nat := length (filter is_assistant h).

(** The plan cache does not stand for the present position: the next
    request plans anew. Every successful move makes it so. *)
Definition stale (e : SimpleEnvironment) (cache : option plan_cache) : Prop :=
  match cache with
  | None => True
  | Some c => _plan_owner c ≠ agent_pos e
  end.

(** The observation kept for the key [k] by the calls of [update_map]
    in a sequence of calls: that of the last one with this key. *)
Fixpoint last_record (k : string) (os : list operation) : option string :=
  match os with
  | [] => None
  | o :: os' =>
      match last_record k os' with
      | Some v => Some v
      | None =>
          match o with
          | OpRecord p obs => if String.eqb p k then Some obs else None
          | _ => None
          end
      end
  end.

(** The direction that leads back, for a direction in any letter case. *)
Definition opposite (d : string) : string :=
  let d := Py.upper d in
  if String.eqb d "NORTH" then "SOUTH"
  else if String.eqb d "SOUTH" then "NORTH"
  else if String.eqb d "EAST" then "WEST"
  else if String.eqb d "WEST" then "EAST"
  else d.

(** The way back along a list of directions. *)
Definition retrace (ds : list string) : list string := rev (opposite <$> ds).

(** [n] decision requests in a row with the environment left alone,
    each with the plan cache the one before left. *)
Fixpoint ask (n : nat) (h : list message) (e : SimpleEnvironment)
    (cache : option plan_cache) : result (list string * option plan_cache) :=
  match n with
  | O => Ret ([], cache)
  | S n' =>
      '(msg, cache') ← get_llm_response h e cache;
      '(rest, cache'') ← ask n' h e cache';
      Ret (msg :: rest, cache'')
  end.

(** The messages of a plan, one per direction, as [get_llm_response]
    words them. *)
Fixpoint plan_messages (path : list string) : list string :=
  match path with
  | [] => []
  | d :: rest => react_message rest d :: plan_messages rest
  end.

(** A message in the output format the system prompt asks for. *)
Definition react_text (thought action action_input : string) : string :=
  "Thought: " ++ thought ++ nl ++ "Action: " ++ action ++ nl
    ++ "Action Input: " ++ action_input.

(** The console line of an exit, if it has one. *)
Definition exit_line (k : exit_kind) : list string :=
  match k with
  | FinalAnswer => [print_terminated]
  | ProtocolFailure => [print_format_error]
  | GoalFound => [print_goal]
  | BudgetExhausted => []
  end.

(** The exits that are taken before a tool is called. *)
Definition before_dispatch (k : exit_kind) : bool :=
  match k with
  | FinalAnswer | ProtocolFailure => true
  | GoalFound | BudgetExhausted => false
  end.

(** The two arguments of [update_map] in one string, as the comment at
    the dispatch has it: the position text, a comma, the observation. *)
Definition record_input (p : position) (obs : string) : string :=
  Py.str_pos p ++ ", " ++ obs.

(** The entries the passes of the loop append to a history: per pass
    the message of the decision source and the observation of the tool
    call; a pass left before the dispatch appends the message alone, and is
    the last. *)
Fixpoint passes_shape (h : list message) : bool :=
  match h with
  | [] => true
  | m :: h1 =>
      is_assistant m &&
      match h1 with
      | [] => true
      | o :: h2 =>
          String.eqb (role o) "user"
          && Py.startswith (content o) "Observation: "
          && passes_shape h2
      end
  end.

(** The cells a list of directions leads through, the start included;
    the list stops at a direction that is not a cardinal value. *)
Fixpoint cells_of (u : position) (ds : list string) : list position :=
  u :: match ds with
       | [] => []
       | d :: ds' =>
           match step_target (Py.upper d) u.1 u.2 with
           | Some w => cells_of w ds'
           | None => []
           end
       end.

(** The number of rows plus the number of columns between two
    positions. *)
Definition manhattan (p q : position) : Z :=
  Z.abs (q.1 - p.1) + Z.abs (q.2 - p.2).

(** Text on which the model's [upper], [lower], white space and word
    characters are Python's: every character is below 128. *)
Definition is_ascii (c : ascii) : bool := (nat_of_ascii c <? 128)%nat.

Definition ascii_text (s : string) : bool := all_chars is_ascii s.

(** [Action:\s*(\w+)] matches [msg] right after [pre], with [a] as
    group 1: the label, a run of white space, and the longest run of word
    characters, which is not empty. *)
Definition action_match (msg pre a : string) : Prop :=
  ∃ ws rest,
    msg = pre ++ "Action:" ++ ws ++ a ++ rest
    ∧ all_chars Py.isspace ws = true
    ∧ a ≠ "" ∧ all_chars Py.isword a = true
    ∧ match rest with
      | EmptyString => True
      | String c _ => Py.isword c = false
      end.

(** [Action Input:\s*(.+)] can match [msg] right after [pre] with [ws]
    for the white space and [i] as group 1: [i] is not empty and runs to
    the end of its line. *)
Definition input_match (msg pre ws i : string) : Prop :=
  ∃ rest,
    msg = pre ++ "Action Input:" ++ ws ++ i ++ rest
    ∧ all_chars Py.isspace ws = true
    ∧ i ≠ "" ∧ all_chars (λ c, negb (Py.isnewline c)) i = true
    ∧ match rest with
      | EmptyString => True
      | String c _ => Py.isnewline c = true
      end.

(** The match returned at that place: the white space is taken as long
    as a match allows. *)
Definition input_group (msg pre i : string) : Prop :=
  ∃ ws, input_match msg pre ws i
        ∧ ∀ ws' i', input_match msg pre ws' i' →
                    (String.length ws' ≤ String.length ws)%nat.

(** What [re.search] returns: group 1 of the leftmost match. *)
Definition action_found (msg a : string) : Prop :=
  ∃ pre, action_match msg pre a
         ∧ ∀ pre' a', action_match msg pre' a' →
                      (String.length pre ≤ String.length pre')%nat.

Definition input_found (msg i : string) : Prop :=
  ∃ pre, input_group msg pre i
         ∧ ∀ pre' ws' i', input_match msg pre' ws' i' →
                          (String.length pre ≤ String.length pre')%nat.

(** The message holds an action marker, an input marker: the pattern
    matches somewhere. *)
Definition has_action_marker (msg : string) : Prop :=
  ∃ pre a, action_match msg pre a.

Definition has_input_marker (msg : string) : Prop :=
  ∃ pre ws i, input_match msg pre ws i.

(** ** Vocabulary of the search proof *)

Section SearchVocabulary.

Local Open Scope list_scope.

Variable g : list (list cell).
Variables start target : position.

(** An edge of the search graph, labelled as [neighbors] labels it. *)
Definition arc (u : position) (d : string) (v : position) : Prop :=
  d ∈ cardinals ∧ step_target d u.1 u.2 = Some v ∧ free g v = true.

(** The cells of the grid not yet in [prev], and the termination measure
    of the [while q:] loop: every pass pops one entry, and an entry is
    pushed only for a cell that leaves [unvisited]. *)
Definition unvisited (st : bfs_state) : nat :=
  length (filter (λ p, prev st !! p = None) (all_cells (Py.len g) (width g))).

Definition measure (st : bfs_state) : nat := (unvisited st + length (q st))%nat.

(** The loop invariant, with a ghost depth [d] for the nodes seen, the
    depth [k] of the level being expanded, and the neighbours [pending] of
    the node [cur] being expanded: [prev] is a tree of arcs rooted at
    [start] whose depths are [d]; the queue holds level [k] followed by
    level [k + 1]; every arc out of an expanded node leads to a seen node;
    no arc between seen nodes skips a level; [target] is not among the
    expanded nodes. *)
Record bfs_inv (d : position → nat) (k : nat) (cur : position)
    (pending : list (position * string)) (st : bfs_state) : Prop := {
  inv_start : prev st !! start = Some None;
  inv_root : ∀ v, prev st !! v = Some None → v = start ∧ d v = 0%nat;
  inv_tree : ∀ v u, prev st !! v = Some (Some u) →
    ∃ dir, prev_move st !! v = Some dir ∧ arc u dir v ∧ d v = S (d u)
           ∧ is_Some (prev st !! u);
  inv_queue : ∃ q1 q2, q st = q1 ++ q2 ∧ Forall (λ v, d v = k) q1
                       ∧ Forall (λ v, d v = S k) q2;
  inv_queue_in : ∀ v, v ∈ q st → is_Some (prev st !! v);
  inv_bound : ∀ v, is_Some (prev st !! v) → (d v ≤ S k)%nat;
  inv_closed : ∀ u dir v, is_Some (prev st !! u) → u ∉ q st → arc u dir v →
    is_Some (prev st !! v) ∨ (u = cur ∧ (v, dir) ∈ pending);
  inv_short : ∀ u dir v, is_Some (prev st !! u) → is_Some (prev st !! v) →
    arc u dir v → (d v ≤ S (d u))%nat;
  inv_target : ∀ u, is_Some (prev st !! u) → u ∉ q st → u ≠ target;
  inv_cur : pending ≠ [] → d cur = k ∧ is_Some (prev st !! cur)
}.

(** What [get_llm_response] learns from the search. *)
Definition search_post (fuel : nat) (found : bool) (st : bfs_state) : Prop :=
  if found then
    ∃ path, reconstruct fuel (prev st) (prev_move st) target [] = Ret (rev path)
            ∧ walk g start path target
            ∧ Forall (λ x, x ∈ cardinals) path
            ∧ ∀ ds, walk g start ds target → (length path ≤ length ds)%nat
  else ∀ ds, ¬ walk g start ds target.

End SearchVocabulary.

(** ** Facts about the Python primitives *)

Lemma getitem_nonneg {A} (l : list A) (i : Z) :
  0 ≤ i →
  Py.getitem l i = match l !! Z.to_nat i with
                   | Some x => Ret x
                   | None => Raise IndexError
                   end.
Proof.
  intros Hi. unfold Py.getitem, Py.len.
  destruct (Z.ltb_spec i 0); [lia|].
  destruct (Z.leb_spec 0 i); [|lia]. simpl.
  destruct (Z.ltb_spec i (Z.of_nat (length l))); [done|].
  rewrite lookup_ge_None_2; [done|lia].
Qed.

Lemma getitem_lookup {A} (l : list A) (i : Z) (x : A) :
  0 ≤ i → l !! Z.to_nat i = Some x → Py.getitem l i = Ret x.
Proof. intros Hi Hx. rewrite getitem_nonneg by done. by rewrite Hx. Qed.

Lemma wf_grid_row g row (i : nat) :
  wf_grid g → g !! i = Some row → Py.len row = width g.
Proof.
  intros [_ Hall] Hrow. unfold width, Py.len. f_equal.
  eapply Forall_lookup in Hall; eauto.
Qed.

Lemma wf_grid_row0 g :
  wf_grid g → Py.getitem g 0 = Ret (default [] (head g)).
Proof.
  intros [Hne _]. destruct g as [|row g']; [done|]. reflexivity.
Qed.

Lemma cell_at_Some g r c x :
  cell_at g (r, c) = Some x →
  0 ≤ r < Py.len g ∧ 0 ≤ c ∧
  ∃ row, g !! Z.to_nat r = Some row ∧ row !! Z.to_nat c = Some x ∧ c < Py.len row.
Proof.
  unfold cell_at. simpl.
  destruct (Z.leb_spec 0 r); [|done]. destruct (Z.leb_spec 0 c); [|done]. simpl.
  destruct (g !! Z.to_nat r) as [row|] eqn:Hrow; [|done]. simpl. intros Hx.
  apply lookup_lt_Some in Hrow as Hlt. apply lookup_lt_Some in Hx as Hlt'.
  unfold Py.len. split; [lia|]. split; [lia|]. exists row. repeat split; auto. lia.
Qed.

Lemma cell_at_in_range g r c :
  wf_grid g → 0 ≤ r < Py.len g → 0 ≤ c < width g →
  ∃ row x, g !! Z.to_nat r = Some row ∧ row !! Z.to_nat c = Some x
           ∧ cell_at g (r, c) = Some x.
Proof.
  intros Hwf Hr Hc. unfold Py.len in Hr.
  destruct (lookup_lt_is_Some_2 g (Z.to_nat r)) as [row Hrow]; [lia|].
  pose proof (wf_grid_row _ _ _ Hwf Hrow) as Hlen. unfold Py.len in Hlen.
  destruct (lookup_lt_is_Some_2 row (Z.to_nat c)) as [x Hx]; [lia|].
  exists row, x. repeat split; auto.
  unfold cell_at. simpl.
  destruct (Z.leb_spec 0 r); [|lia]. destruct (Z.leb_spec 0 c); [|lia]. simpl.
  rewrite Hrow. simpl. done.
Qed.

Lemma cell_at_bounds g r c x :
  wf_grid g → cell_at g (r, c) = Some x →
  0 ≤ r < Py.len g ∧ 0 ≤ c < width g.
Proof.
  intros Hwf H. apply cell_at_Some in H as (Hr & Hc & row & Hrow & Hx & Hlt).
  rewrite <- (wf_grid_row _ _ _ Hwf Hrow). lia.
Qed.

Lemma free_bounds g p :
  wf_grid g → free g p = true → 0 ≤ p.1 < Py.len g ∧ 0 ≤ p.2 < width g.
Proof.
  intros Hwf. unfold free. destruct p as [r c].
  destruct (cell_at g (r, c)) eqn:H; [|done]. intros _.
  eapply cell_at_bounds; eauto.
Qed.

(** On a well-formed grid both guards compute [free] and never raise. *)
Lemma cell_ok_free g nr nc :
  wf_grid g → cell_ok g (Py.len g) (width g) nr nc = Ret (free g (nr, nc)).
Proof.
  intros Hwf. unfold cell_ok.
  destruct (Z.leb_spec 0 nr); simpl; cycle 1.
  { unfold free, cell_at. simpl. destruct (Z.leb_spec 0 nr); [lia|done]. }
  destruct (Z.ltb_spec nr (Py.len g)); simpl; cycle 1.
  { unfold free. destruct (cell_at g (nr, nc)) eqn:Hc; [|done].
    apply cell_at_Some in Hc. lia. }
  destruct (Z.leb_spec 0 nc); simpl; cycle 1.
  { unfold free, cell_at. simpl. destruct (Z.leb_spec 0 nc); [lia|].
    by rewrite andb_false_r. }
  destruct (Z.ltb_spec nc (width g)); simpl; cycle 1.
  { unfold free. destruct (cell_at g (nr, nc)) eqn:Hc; [|done].
    eapply cell_at_bounds in Hc; eauto. lia. }
  destruct (cell_at_in_range g nr nc) as (row & x & Hrow & Hx & Hc); auto.
  rewrite (getitem_lookup g nr row); [|lia|done]. simpl.
  rewrite (getitem_lookup row nc x); [|lia|done]. simpl.
  unfold free. by rewrite Hc.
Qed.

Lemma passable_free g nr nc :
  wf_grid g → passable g nr nc = Ret (free g (nr, nc)).
Proof.
  intros Hwf. rewrite <- cell_ok_free by done. unfold passable, cell_ok.
  rewrite wf_grid_row0 by done. simpl. fold (width g).
  destruct (0 <=? nr), (nr <? Py.len g); simpl; done.
Qed.

(** ** [move_agent] *)

Lemma move_agent_invalid d e :
  step_target (Py.upper d) (agent_pos e).1 (agent_pos e).2 = None →
  move_agent d e = Ret (msg_invalid, e).
Proof.
  intros H. unfold move_agent. destruct (agent_pos e) as [r c]. simpl in H.
  by rewrite H.
Qed.

Lemma move_agent_step d e v :
  wf_grid (grid e) →
  step_target (Py.upper d) (agent_pos e).1 (agent_pos e).2 = Some v →
  move_agent d e =
    if free (grid e) v then
      Ret (if decide (cell_at (grid e) v = Some Treasure) then msg_success
           else msg_moved v, set_pos e v)
    else Ret (msg_blocked, e).
Proof.
  intros Hwf H. unfold move_agent. destruct (agent_pos e) as [r c]. simpl in H.
  rewrite H. destruct v as [nr nc]. rewrite passable_free by done. simpl.
  destruct (free (grid e) (nr, nc)) eqn:Hfree; [|done].
  pose proof (free_bounds _ _ Hwf Hfree) as [Hr Hc]. simpl in *.
  destruct (cell_at_in_range _ nr nc Hwf Hr Hc) as (row & x & Hrow & Hx & Hcell).
  rewrite (getitem_lookup (grid e) nr row); [|lia|done]. simpl.
  rewrite (getitem_lookup row nc x); [|lia|done]. simpl.
  rewrite Hcell. unfold set_pos.
  destruct (decide (x = Treasure)), (decide (Some x = Some Treasure)); try done; congruence.
Qed.

Lemma step_target_neq d r c v : step_target d r c = Some v → v ≠ (r, c).
Proof.
  unfold step_target. intros H.
  repeat case_match; simplify_eq; intros [=]; lia.
Qed.

Lemma elem_of_cardinals d :
  d ∈ cardinals ↔ d = "NORTH" ∨ d = "SOUTH" ∨ d = "EAST" ∨ d = "WEST".
Proof.
  unfold cardinals. rewrite !elem_of_cons, elem_of_nil. tauto.
Qed.

Lemma step_target_cases d r c :
  (d = "NORTH" ∧ step_target d r c = Some (r - 1, c)) ∨
  (d = "SOUTH" ∧ step_target d r c = Some (r + 1, c)) ∨
  (d = "EAST" ∧ step_target d r c = Some (r, c + 1)) ∨
  (d = "WEST" ∧ step_target d r c = Some (r, c - 1)) ∨
  ((d ∉ cardinals) ∧ step_target d r c = None).
Proof.
  unfold step_target.
  destruct (String.eqb_spec d "NORTH"); [subst; auto|].
  destruct (String.eqb_spec d "SOUTH"); [subst; auto|].
  destruct (String.eqb_spec d "EAST"); [subst; auto 6|].
  destruct (String.eqb_spec d "WEST"); [subst; auto 6|].
  do 4 right. split; [|done]. rewrite elem_of_cardinals. tauto.
Qed.

Lemma step_target_is_Some d r c : is_Some (step_target d r c) ↔ d ∈ cardinals.
Proof.
  rewrite elem_of_cardinals.
  destruct (step_target_cases d r c)
    as [[-> ->]|[[-> ->]|[[-> ->]|[[-> ->]|[Hn ->]]]]]; try (split; eauto; fail).
  rewrite elem_of_cardinals in Hn. split; [by intros [? ?]|tauto].
Qed.

Lemma upper_lower_ascii c : Py.upper_ascii (Py.lower_ascii c) = Py.upper_ascii c.
Proof. by destruct c as [[] [] [] [] [] [] [] []]. Qed.

Lemma lower_upper_ascii c : Py.lower_ascii (Py.upper_ascii c) = Py.lower_ascii c.
Proof. by destruct c as [[] [] [] [] [] [] [] []]. Qed.

Lemma upper_lower s :
  ascii_text s = true → Py.upper (Py.lower s) = Py.upper s.
Proof. intros _. induction s; simpl; [done|]. by rewrite upper_lower_ascii, IHs. Qed.

Lemma lower_upper s :
  ascii_text s = true → Py.lower (Py.upper s) = Py.lower s.
Proof. intros _. induction s; simpl; [done|]. by rewrite lower_upper_ascii, IHs. Qed.

(** On ASCII text [upper] sees its argument only through its
    case-folded form. *)
Lemma upper_fold s s' :
  ascii_text s = true → ascii_text s' = true →
  Py.lower s = Py.lower s' → Py.upper s = Py.upper s'.
Proof.
  intros Hs Hs' H. by rewrite <- (upper_lower s Hs), H, (upper_lower s' Hs').
Qed.

Lemma upper_cardinal s :
  ascii_text s = true →
  (Py.upper s ∈ cardinals ↔ ∃ c, c ∈ cardinals ∧ Py.lower s = Py.lower c).
Proof.
  intros Hs. split.
  - intros H. exists (Py.upper s). split; [done|]. by rewrite lower_upper.
  - intros (c & Hc & Hl).
    assert (Hca : ascii_text c = true).
    { apply elem_of_cardinals in Hc as [-> | [-> | [-> | ->]]]; reflexivity. }
    apply upper_fold in Hl; [|done..]. rewrite Hl.
    apply elem_of_cardinals in Hc as [-> | [-> | [-> | ->]]];
      apply elem_of_cardinals; simpl; tauto.
Qed.

Lemma kind_of_moved v : kind_of (msg_moved v) = Some KMoved.
Proof. reflexivity. Qed.

Lemma wf_init_grid : wf_grid init_grid.
Proof. split; [done|]. repeat constructor. Qed.

(** C3. Every call of [move_agent] on a non-empty rectangular grid,
    whatever the direction string, returns an observation of exactly one of
    the four kinds; the position changes if and only if the kind is
    success-on-goal or moved; on blocked and on invalid-direction the whole
    environment is unchanged; the grid and the memory log are never
    touched; the kind is invalid-direction exactly when the upper-cased
    direction is none of the four cardinal values. For a direction of ASCII
    text, where letter case is that of the letters a to z: the kind is
    invalid-direction exactly when the direction, compared without regard
    to letter case, is none of the four cardinal values, and directions
    equal up to letter case give the same outcome. *)
Theorem move_agent_kinds (d : string) (e : SimpleEnvironment) :
  wf_grid (grid e) →
  ∃ obs e' k,
    move_agent d e = Ret (obs, e') ∧
    kind_of obs = Some k ∧
    (agent_pos e' ≠ agent_pos e ↔ k = KSuccess ∨ k = KMoved) ∧
    (k = KBlocked ∨ k = KInvalid → e' = e) ∧
    grid e' = grid e ∧ map_memory e' = map_memory e ∧
    (k = KInvalid ↔ Py.upper d ∉ cardinals) ∧
    (ascii_text d = true →
     (k = KInvalid ↔ ¬ ∃ c, c ∈ cardinals ∧ Py.lower d = Py.lower c) ∧
     (∀ d', ascii_text d' = true → Py.lower d' = Py.lower d →
            move_agent d' e = move_agent d e)).
Proof.
  intros Hwf.
  assert (Hcase : ascii_text d = true →
                  ∀ d', ascii_text d' = true → Py.lower d' = Py.lower d →
                        move_agent d' e = move_agent d e).
  { intros Hd d' Hd' Hl. unfold move_agent. by rewrite (upper_fold _ _ Hd' Hd Hl). }
  destruct (step_target (Py.upper d) (agent_pos e).1 (agent_pos e).2) as [v|] eqn:Hst.
  - assert (Hin : Py.upper d ∈ cardinals) by (eapply step_target_is_Some; eauto).
    pose proof (move_agent_step _ _ _ Hwf Hst) as Hm.
    assert (Hne : v ≠ agent_pos e).
    { apply step_target_neq in Hst. by destruct (agent_pos e). }
    assert (Hup : ∀ k, k ≠ KInvalid → (k = KInvalid ↔ Py.upper d ∉ cardinals)).
    { intros k Hk. split; [done|]. intros Hn. by destruct Hn. }
    assert (Hfold : ascii_text d = true →
                    ∀ k, k ≠ KInvalid →
                         (k = KInvalid ↔ ¬ ∃ c, c ∈ cardinals ∧ Py.lower d = Py.lower c)).
    { intros Hd k Hk. split; [done|]. intros Hno. destruct Hno.
      by apply (upper_cardinal d Hd). }
    destruct (free (grid e) v) eqn:Hfree.
    + destruct (decide (cell_at (grid e) v = Some Treasure)).
      * exists msg_success, (set_pos e v), KSuccess.
        split; [exact Hm|]. split; [done|].
        split; [split; [auto|done]|]. split; [by intros [?|?]|].
        split; [done|]. split; [done|]. split; [by apply Hup|].
        intros Hd. split; [by apply Hfold|auto].
      * exists (msg_moved v), (set_pos e v), KMoved.
        split; [exact Hm|]. split; [done|].
        split; [split; [auto|done]|]. split; [by intros [?|?]|].
        split; [done|]. split; [done|]. split; [by apply Hup|].
        intros Hd. split; [by apply Hfold|auto].
    + exists msg_blocked, e, KBlocked.
      split; [exact Hm|]. split; [done|].
      split; [split; [done|by intros [?|?]]|]. split; [done|].
      split; [done|]. split; [done|]. split; [by apply Hup|].
      intros Hd. split; [by apply Hfold|auto].
  - assert (Hnin : Py.upper d ∉ cardinals).
    { intros Hin. eapply step_target_is_Some in Hin as [? Hin].
      rewrite Hst in Hin. done. }
    exists msg_invalid, e, KInvalid.
    split; [exact (move_agent_invalid _ _ Hst)|]. split; [done|].
    split; [split; [done|by intros [?|?]]|]. split; [done|].
    split; [done|]. split; [done|]. split; [done|]. intros Hd. split; [|auto].
    split; [|done]. intros _ Hc. by apply Hnin, (upper_cardinal d Hd).
Qed.

Lemma move_agent_kinds_witness :
  wf_grid (grid init_env) ∧ ascii_text "south" = true ∧
  ∃ obs e' k,
    move_agent "south" init_env = Ret (obs, e') ∧
    kind_of obs = Some k ∧
    (agent_pos e' ≠ agent_pos init_env ↔ k = KSuccess ∨ k = KMoved) ∧
    (k = KBlocked ∨ k = KInvalid → e' = init_env) ∧
    grid e' = grid init_env ∧ map_memory e' = map_memory init_env ∧
    (k = KInvalid ↔ Py.upper "south" ∉ cardinals) ∧
    (k = KInvalid ↔ ¬ ∃ c, c ∈ cardinals ∧ Py.lower "south" = Py.lower c) ∧
    (∀ d', ascii_text d' = true → Py.lower d' = Py.lower "south" →
           move_agent d' init_env = move_agent "south" init_env).
Proof.
  split; [exact wf_init_grid|]. split; [reflexivity|].
  destruct (move_agent_kinds "south" init_env wf_init_grid)
    as (obs & e' & k & H1 & H2 & H3 & H4 & H5 & H6 & Hu & H7).
  destruct (H7 eq_refl) as [H8 H9].
  exists obs, e', k. repeat (split; [assumption|]). exact H9.
Defined.

(** ** Sequences of tool operations *)

Lemma move_agent_frame d e obs e' :
  move_agent d e = Ret (obs, e') →
  grid e' = grid e ∧ map_memory e' = map_memory e.
Proof.
  unfold move_agent. destruct (agent_pos e) as [r c].
  destruct (step_target (Py.upper d) r c) as [[nr nc]|]; [|by intros [= <- <-]].
  destruct (passable (grid e) nr nc) as [[]| |]; simpl; try done.
  - destruct (Py.getitem (grid e) nr) as [row| |]; simpl; try done.
    destruct (Py.getitem row nc) as [x| |]; simpl; try done.
    destruct (decide (x = Treasure)); by intros [= <- <-].
  - by intros [= <- <-].
Qed.

Lemma look_around_frame e obs e' : look_around e = Ret (obs, e') → e' = e.
Proof.
  unfold look_around. destruct (agent_pos e) as [r c].
  destruct (Py.getitem (grid e) r) as [row| |]; simpl; try done.
  destruct (Py.getitem row c) as [x| |]; simpl; try done.
  destruct (decide (x = Treasure)); by intros [= <- <-].
Qed.

Lemma after_frame e o :
  grid (after e o) = grid e ∧
  (is_move o = false → agent_pos (after e o) = agent_pos e) ∧
  (is_record o = false → map_memory (after e o) = map_memory e) ∧
  (is_move o = false → is_record o = false → after e o = e).
Proof.
  unfold after. destruct o as [d| | |p obs]; simpl.
  - destruct (move_agent d e) as [[obs e']| |] eqn:Hm; try done.
    apply move_agent_frame in Hm as [? ?]. done.
  - destruct (look_around e) as [[obs e']| |] eqn:Hm; try done.
    apply look_around_frame in Hm as ->. done.
  - done.
  - done.
Qed.

Lemma after_all_frame (os : list operation) (e : SimpleEnvironment) :
  grid (after_all os e) = grid e ∧
  (forallb (λ o, negb (is_move o)) os = true →
     agent_pos (after_all os e) = agent_pos e) ∧
  (forallb (λ o, negb (is_record o)) os = true →
     map_memory (after_all os e) = map_memory e) ∧
  (forallb (λ o, negb (is_move o) && negb (is_record o)) os = true →
     after_all os e = e).
Proof.
  unfold after_all. revert e.
  induction os as [|o os IH]; intros e; simpl; [done|].
  destruct (IH (after e o)) as (Hg & Hp & Hm & Ha).
  destruct (after_frame e o) as (Hg1 & Hp1 & Hm1 & Ha1).
  split; [congruence|]. split; [|split].
  - intros [Ho Hos]%andb_prop. apply negb_true_iff in Ho.
    rewrite Hp, Hp1; auto.
  - intros [Ho Hos]%andb_prop. apply negb_true_iff in Ho.
    rewrite Hm, Hm1; auto.
  - intros [[Ho Ho']%andb_prop Hos]%andb_prop.
    apply negb_true_iff in Ho, Ho'. rewrite Ha, Ha1; auto.
Qed.

Lemma available_tools_move a :
  AVAILABLE_TOOLS !! a = Some Tool_move_agent → a = "move_agent".
Proof.
  unfold AVAILABLE_TOOLS. rewrite !lookup_insert_Some, lookup_empty.
  intros [[? _]|[_ [[_ ?]|[_ [[_ ?]|[_ [[_ ?]|[_ ?]]]]]]]]; done.
Qed.

(** The dispatch of the loop reaches the memory log only through
    [update_map] and the position only through [move_agent]. *)
Lemma execute_action_frame a i e obs e' :
  execute_action a i e = Ret (obs, e') →
  grid e' = grid e
  ∧ (a ≠ "update_map" → map_memory e' = map_memory e)
  ∧ (a ≠ "move_agent" → agent_pos e' = agent_pos e).
Proof.
  unfold execute_action.
  destruct (AVAILABLE_TOOLS !! a) as [t|] eqn:Ht; [|by intros [= <- <-]].
  destruct (String.eqb_spec a "update_map") as [->|Hne].
  { by intros [= <- <-]. }
  destruct t; simpl; try by intros [= <- <-].
  apply available_tools_move in Ht as ->.
  destruct (move_agent i e) as [[obs1 e1]| |] eqn:Hm; [|by intros [= <- <-]|done].
  intros [= <- <-]. by apply move_agent_frame in Hm as [? ?].
Qed.

(** C8. Over every sequence of operations: the grid never changes; a
    sequence without [move_agent] leaves the position as it was; a sequence
    without [update_map] leaves the memory log as it was; a sequence of
    [look_around] and [get_pos] calls alone leaves the whole environment as
    it was. Read on the one-element sequences: [look_around] and [get_pos]
    change nothing, and [move_agent] changes at most the position. The
    same holds at the dispatch of the loop: an action other than
    [update_map] leaves the memory log as it was, and an action other than
    [move_agent] leaves the position as it was. *)
Theorem operations_frame (os : list operation) (e : SimpleEnvironment) :
  grid (after_all os e) = grid e ∧
  (forallb (λ o, negb (is_move o)) os = true →
     agent_pos (after_all os e) = agent_pos e) ∧
  (forallb (λ o, negb (is_record o)) os = true →
     map_memory (after_all os e) = map_memory e) ∧
  (forallb (λ o, negb (is_move o) && negb (is_record o)) os = true →
     after_all os e = e) ∧
  (∀ a i obs e', execute_action a i e = Ret (obs, e') →
     grid e' = grid e
     ∧ (a ≠ "update_map" → map_memory e' = map_memory e)
     ∧ (a ≠ "move_agent" → agent_pos e' = agent_pos e)).
Proof.
  destruct (after_all_frame os e) as (Hg & Hp & Hm & Ha).
  repeat (split; [done|]). intros a i obs e'. apply execute_action_frame.
Qed.

Lemma operations_frame_witness :
  let os := [OpLookAround; OpMove "SOUTH"; OpGetPos; OpMove "east"] in
  grid (after_all os init_env) = grid init_env ∧
  map_memory (after_all os init_env) = map_memory init_env ∧
  after_all [OpLookAround; OpGetPos] init_env = init_env ∧
  agent_pos (after_all [OpRecord "(1, 1)" "Open"; OpGetPos] init_env) = (1, 1).
Proof.
  intros os.
  destruct (operations_frame os init_env) as (Hg & _ & Hm & _).
  destruct (operations_frame [OpLookAround; OpGetPos] init_env) as (_ & _ & _ & Ha & _).
  destruct (operations_frame [OpRecord "(1, 1)" "Open"; OpGetPos] init_env)
    as (_ & Hp & _ & _).
  split; [exact Hg|]. split; [exact (Hm eq_refl)|].
  split; [exact (Ha eq_refl)|exact (Hp eq_refl)].
Defined.

(** The invariant of the position: a free cell of the grid. *)
Lemma after_free e o :
  wf_grid (grid e) → free (grid e) (agent_pos e) = true →
  free (grid (after e o)) (agent_pos (after e o)) = true ∧
  ∃ obs, run_operation o e = Ret (obs, after e o).
Proof.
  intros Hwf Hfree. unfold after. destruct o as [d| | |p obs]; simpl.
  - destruct (step_target (Py.upper d) (agent_pos e).1 (agent_pos e).2) as [v|] eqn:Hst.
    + rewrite (move_agent_step _ _ _ Hwf Hst).
      destruct (free (grid e) v) eqn:Hv; simpl; eauto.
    + rewrite (move_agent_invalid _ _ Hst). eauto.
  - unfold look_around. destruct (agent_pos e) as [r c] eqn:Hpos.
    pose proof (free_bounds _ _ Hwf Hfree) as [Hr Hc]. simpl in *.
    destruct (cell_at_in_range _ r c Hwf Hr Hc) as (row & x & Hrow & Hx & Hcell).
    rewrite (getitem_lookup (grid e) r row); [|lia|done]. simpl.
    rewrite (getitem_lookup row c x); [|lia|done]. simpl.
    destruct (decide (x = Treasure)); rewrite Hpos; eauto.
  - eauto.
  - eauto.
Qed.

Lemma operations_free os e :
  wf_grid (grid e) → free (grid e) (agent_pos e) = true →
  free (grid (after_all os e)) (agent_pos (after_all os e)) = true ∧
  ∃ obs, run_operations os e = Ret (obs, after_all os e).
Proof.
  unfold after_all. revert e. induction os as [|o os IH]; intros e Hwf Hfree; simpl.
  - eauto.
  - destruct (after_free e o Hwf Hfree) as (Hf1 & obs & Hrun).
    destruct (after_frame e o) as (Hg1 & _).
    destruct (IH (after e o)) as (Hf & rest & Hrest); [by rewrite Hg1|done|].
    split; [done|]. rewrite Hrun. simpl. rewrite Hrest. simpl. eauto.
Qed.

(** C9. From the initial environment (position (1, 1)), no sequence of
    tool operations raises, and after it the grid is the initial grid, the
    position lies within the bounds of the grid, and the cell at the
    position is not a wall. *)
Theorem position_invariant (os : list operation) :
  let e := after_all os init_env in
  (∃ obs, run_operations os init_env = Ret (obs, e)) ∧
  grid e = init_grid ∧
  0 ≤ (agent_pos e).1 < Py.len (grid e) ∧
  0 ≤ (agent_pos e).2 < width (grid e) ∧
  ∃ x, cell_at (grid e) (agent_pos e) = Some x ∧ x ≠ Wall.
Proof.
  intros e. subst e.
  destruct (operations_free os init_env wf_init_grid eq_refl) as (Hfree & Hrun).
  destruct (after_all_frame os init_env) as (Hg & _).
  split; [done|]. split; [done|].
  assert (Hwf : wf_grid (grid (after_all os init_env))) by (rewrite Hg; apply wf_init_grid).
  pose proof (free_bounds _ _ Hwf Hfree) as [Hr Hc].
  split; [done|]. split; [done|].
  unfold free in Hfree.
  destruct (cell_at _ _) as [x|]; [|done].
  exists x. split; [done|]. by apply bool_decide_eq_true in Hfree.
Qed.

(** C10. The answer of [get_llm_response] and the plan cache it leaves
    do not depend on the conversation history, nor on anything of the
    environment but the grid and the agent position (the memory log is
    never read): two requests with any two histories, in environments with
    the same grid and the same agent position, from the same plan cache,
    return the same message and leave the same cache, or fail alike. *)
Theorem get_llm_response_ignores_history
    (h1 h2 : list message) (e1 e2 : SimpleEnvironment) (cache : option plan_cache) :
  grid e1 = grid e2 → agent_pos e1 = agent_pos e2 →
  get_llm_response h1 e1 cache = get_llm_response h2 e2 cache.
Proof.
  intros Hg Hp. unfold get_llm_response. by rewrite Hg, Hp.
Qed.

Lemma get_llm_response_ignores_history_witness :
  get_llm_response [] init_env None
  = get_llm_response initial_history
      {| grid := init_grid; agent_pos := (1, 1);
         map_memory := {["(1, 1)" := "Area is Open."]} |} None.
Proof.
  apply (get_llm_response_ignores_history [] initial_history init_env); reflexivity.
Defined.

(** ** The breadth-first search *)

Local Open Scope list_scope.

Lemma upper_cardinal_id d : d ∈ cardinals → Py.upper d = d.
Proof. intros [-> | [-> | [-> | ->]]]%elem_of_cardinals; reflexivity. Qed.

Lemma walk_snoc g u ds w d v :
  walk g u ds w → edge g w d v → walk g u (ds ++ [d]) v.
Proof.
  induction 1 as [u|u d' w' ds w Hed Hw IH]; intros He; simpl.
  - econstructor; [done|constructor].
  - econstructor; eauto.
Qed.

Lemma filter_length_lt_mono {A} (P Q : A → Prop)
    `{∀ x, Decision (P x)} `{∀ x, Decision (Q x)} (l : list A) (x : A) :
  (∀ y, P y → Q y) → x ∈ l → Q x → ¬ P x →
  (length (filter P l) < length (filter Q l))%nat.
Proof.
  intros HPQ Hin HQ HnP.
  assert (Hle : ∀ l', (length (filter P l') ≤ length (filter Q l'))%nat).
  { induction l' as [|y l' IH]; simpl; [done|].
    rewrite !filter_cons. destruct (decide (P y)) as [HP|HP].
    - rewrite decide_True by auto. simpl. lia.
    - destruct (decide (Q y)); simpl; lia. }
  induction l as [|y l IH]; [by apply elem_of_nil in Hin|].
  rewrite !filter_cons. apply elem_of_cons in Hin as [<-|Hin].
  - rewrite decide_False, decide_True by done. simpl. specialize (Hle l). lia.
  - specialize (IH Hin). destruct (decide (P y)) as [HP|HP].
    + rewrite decide_True by auto. simpl. lia.
    + destruct (decide (Q y)); simpl; lia.
Qed.

Lemma elem_of_all_cells rows cols r c :
  (r, c) ∈ all_cells rows cols ↔ 0 ≤ r < rows ∧ 0 ≤ c < cols.
Proof.
  unfold all_cells. rewrite list_elem_of_bind. split.
  - intros (r' & Hin & Hr). apply list_elem_of_bind in Hin as (c' & Hin & Hc).
    apply list_elem_of_singleton in Hin as [= -> ->].
    apply elem_of_seqZ in Hr, Hc. lia.
  - intros [Hr Hc]. exists r. split; [|apply elem_of_seqZ; lia].
    apply list_elem_of_bind. exists c. split; [|apply elem_of_seqZ; lia].
    by apply list_elem_of_singleton.
Qed.

Lemma length_bind_const {A B} (f : A → list B) (n : nat) (l : list A) :
  (∀ x, length (f x) = n) → length (l ≫= f) = (length l * n)%nat.
Proof.
  intros Hf. induction l as [|x l IH]; [done|].
  rewrite bind_cons, length_app, IH, Hf. simpl. lia.
Qed.

Lemma length_all_cells rows cols :
  0 ≤ rows → 0 ≤ cols → length (all_cells rows cols) = Z.to_nat (rows * cols).
Proof.
  intros Hr Hc. unfold all_cells.
  rewrite (length_bind_const _ (Z.to_nat cols)).
  - rewrite length_seqZ. lia.
  - intros r. rewrite (length_bind_const _ 1%nat) by done.
    rewrite length_seqZ. lia.
Qed.

Section BFS.

Variable g : list (list cell).
Variables start target : position.
Hypothesis Hwf : wf_grid g.

Local Abbreviation arc := (arc g).
Local Abbreviation unvisited := (unvisited g).
Local Abbreviation measure := (measure g).
Local Abbreviation bfs_inv := (bfs_inv g start target).
Local Abbreviation search_post := (search_post g start target).

Lemma arc_edge u d v : arc u d v → edge g u d v.
Proof. intros (Hd & Hst & Hf). split; [|done]. by rewrite upper_cardinal_id. Qed.

Lemma edge_arc u d v : edge g u d v → arc u (Py.upper d) v.
Proof.
  intros [Hst Hf]. split; [|done]. eapply step_target_is_Some; eauto.
Qed.

Lemma neighbors_arcs p :
  ∃ nbrs, neighbors g (Py.len g) (width g) p = Ret nbrs ∧
          ∀ v d, (v, d) ∈ nbrs ↔ arc p d v.
Proof.
  unfold neighbors, DIRECTIONS, neighbors_of.
  rewrite !cell_ok_free by done. simpl.
  rewrite !Z.add_0_r.
  change (p.1 + -1) with (p.1 - 1). change (p.2 + -1) with (p.2 - 1).
  eexists. split; [reflexivity|]. intros v d. unfold arc. split.
  - intros Hin.
    destruct (free g (p.1 - 1, p.2)) eqn:H1, (free g (p.1 + 1, p.2)) eqn:H2,
             (free g (p.1, p.2 + 1)) eqn:H3, (free g (p.1, p.2 - 1)) eqn:H4;
      repeat (apply elem_of_cons in Hin as [[= -> ->]|Hin];
              [by (split; [apply elem_of_cardinals; tauto|])|]);
      by apply elem_of_nil in Hin.
  - intros (Hd & Hst & Hf).
    apply elem_of_cardinals in Hd as [-> | [-> | [-> | ->]]];
      simpl in Hst; injection Hst as <-; rewrite Hf;
      repeat case_match; rewrite ?elem_of_cons; tauto.
Qed.

Lemma visit_measure cur st nd :
  arc cur nd.2 nd.1 → (measure (visit cur st nd) ≤ measure st)%nat.
Proof.
  intros (_ & _ & Hf). unfold visit.
  destruct (prev st !! nd.1) eqn:Hp; [done|].
  unfold measure, unvisited. simpl. rewrite length_app. simpl.
  assert (Hin : nd.1 ∈ all_cells (Py.len g) (width g)).
  { destruct nd as [[r c] d]. apply elem_of_all_cells.
    by apply (free_bounds g (r, c)). }
  pose proof (filter_length_lt_mono
    (λ p, <[nd.1 := Some cur]> (prev st) !! p = None)
    (λ p, prev st !! p = None) (all_cells (Py.len g) (width g)) nd.1) as Hlt.
  cbv beta in Hlt.
  assert (length (filter (λ p, <[nd.1 := Some cur]> (prev st) !! p = None)
                         (all_cells (Py.len g) (width g)))
          < length (filter (λ p, prev st !! p = None)
                           (all_cells (Py.len g) (width g))))%nat; [|lia].
  apply Hlt; try done.
  - intros y Hy. apply lookup_insert_None in Hy. tauto.
  - by rewrite lookup_insert_eq.
Qed.

Lemma inv_queue_depth d k cur pending st v :
  bfs_inv d k cur pending st → v ∈ q st → (k ≤ d v)%nat.
Proof.
  intros Hinv Hv. destruct (inv_queue _ _ _ _ _ _ _ _ Hinv) as (q1 & q2 & Hq & H1 & H2).
  rewrite Hq in Hv. apply elem_of_app in Hv as [Hv|Hv].
  - rewrite Forall_forall in H1. rewrite (H1 v Hv). lia.
  - rewrite Forall_forall in H2. rewrite (H2 v Hv). lia.
Qed.

Lemma visit_inv d k cur nd pending st :
  bfs_inv d k cur (nd :: pending) st →
  arc cur nd.2 nd.1 →
  ∃ d', bfs_inv d' k cur pending (visit cur st nd).
Proof.
  intros Hinv Harc.
  destruct (inv_cur _ _ _ _ _ _ _ _ Hinv) as [Hdcur Hcur]; [done|].
  unfold visit. destruct (prev st !! nd.1) as [o|] eqn:Hp.
  - exists d. destruct Hinv. constructor; auto.
    intros u dir v Hu Hq Ha.
    destruct (inv_closed0 u dir v Hu Hq Ha) as [?|[-> Hin]]; [by left|].
    apply elem_of_cons in Hin as [<-|Hin]; [left; simpl in Hp; by rewrite Hp|by right].
  - set (v0 := nd.1) in *.
    set (d' := λ x : position, if decide (x = v0) then S k else d x).
    assert (Hd'v : d' v0 = S k) by (unfold d'; by rewrite decide_True).
    assert (Hd' : ∀ x, is_Some (prev st !! x) → x ≠ v0 ∧ d' x = d x).
    { intros x [y Hx]. assert (x ≠ v0) by congruence.
      split; [done|]. unfold d'. by rewrite decide_False. }
    assert (Hnew : ∀ x, is_Some (<[v0 := Some cur]> (prev st) !! x) →
                        x = v0 ∨ is_Some (prev st !! x)).
    { intros x Hx. apply lookup_insert_is_Some in Hx as [?|[? ?]]; auto. }
    exists d'. destruct Hinv. constructor; simpl.
    + rewrite lookup_insert_ne; [done|]. intros ->. congruence.
    + intros v Hv. apply lookup_insert_Some in Hv as [[_ ?]|[Hne Hv]]; [done|].
      destruct (inv_root0 v Hv) as [-> Hd0]. split; [done|].
      destruct (Hd' start) as [_ ->]; eauto.
    + intros v u Hv. apply lookup_insert_Some in Hv as [[<- [= <-]]|[Hne Hv]].
      * exists nd.2. rewrite lookup_insert_eq. split; [done|]. split; [done|].
        destruct (Hd' cur Hcur) as [Hcne ->]. split; [lia|].
        rewrite lookup_insert_ne by done. done.
      * destruct (inv_tree0 v u Hv) as (dir & Hpm & Ha & Hdv & Hu).
        exists dir. rewrite !lookup_insert_ne by done.
        destruct (Hd' v) as [_ ->]; [eauto|]. destruct (Hd' u Hu) as [Hune ->].
        rewrite lookup_insert_ne by done. done.
    + destruct inv_queue0 as (q1 & q2 & Hq & H1 & H2).
      exists q1, (q2 ++ [v0]). rewrite Hq, app_assoc. split; [done|].
      assert (Hqin : ∀ x, x ∈ q1 ++ q2 → d' x = d x).
      { intros x Hx. apply Hd', inv_queue_in0. by rewrite Hq. }
      split.
      * apply Forall_forall. intros x Hx. rewrite Forall_forall in H1.
        rewrite Hqin; [auto|]. apply elem_of_app; auto.
      * apply Forall_app. split; [|by repeat constructor].
        apply Forall_forall. intros x Hx. rewrite Forall_forall in H2.
        rewrite Hqin; [auto|]. apply elem_of_app; auto.
    + intros v Hv. apply lookup_insert_is_Some.
      apply elem_of_app in Hv as [Hv|Hv].
      * destruct (Hd' v); auto.
      * apply list_elem_of_singleton in Hv. auto.
    + intros v Hv. apply Hnew in Hv as [->|Hv]; [lia|].
      destruct (Hd' v Hv) as [_ ->]. auto.
    + intros u dir v Hu Hq Ha.
      assert (Hune : u ≠ v0).
      { intros ->. apply Hq. apply elem_of_app. right. by apply list_elem_of_singleton. }
      apply Hnew in Hu as [?|Hu]; [done|].
      destruct (inv_closed0 u dir v Hu) as [Hv|[-> Hin]]; auto.
      { intros Hin. apply Hq. apply elem_of_app. by left. }
      * left. apply lookup_insert_is_Some. destruct (Hd' v Hv). auto.
      * apply elem_of_cons in Hin as [<-|Hin]; [|by right].
        left. simpl. fold v0. by rewrite lookup_insert_eq.
    + intros u dir v Hu Hv Ha.
      apply Hnew in Hu as [->|Hu]; apply Hnew in Hv as [->|Hv].
      * lia.
      * destruct (Hd' v Hv) as [_ ->]. rewrite Hd'v.
        specialize (inv_bound0 v Hv). lia.
      * rewrite Hd'v. destruct (Hd' u Hu) as [_ ->].
        destruct (decide (u ∈ q st)) as [Hin|Hnin].
        { destruct inv_queue0 as (q1 & q2 & Hq & H1 & H2).
          rewrite Hq in Hin. rewrite Forall_forall in H1, H2.
          apply elem_of_app in Hin as [Hin|Hin];
            [rewrite (H1 u Hin)|rewrite (H2 u Hin)]; lia. }
        destruct (inv_closed0 u dir v0 Hu Hnin Ha) as [[y Hy]|[-> _]];
          [congruence|lia].
      * destruct (Hd' v Hv) as [_ ->]. destruct (Hd' u Hu) as [_ ->]. eauto.
    + intros u Hu Hq. apply Hnew in Hu as [->|Hu].
      * exfalso. apply Hq. apply elem_of_app. right. by apply list_elem_of_singleton.
      * apply inv_target0; [done|]. intros Hin. apply Hq. apply elem_of_app. by left.
    + intros _. destruct (Hd' cur Hcur) as [Hne ->]. split; [done|].
      by rewrite lookup_insert_ne.
Qed.

Lemma visit_all d k cur pending st :
  bfs_inv d k cur pending st →
  (∀ nd, nd ∈ pending → arc cur nd.2 nd.1) →
  ∃ d', bfs_inv d' k cur [] (foldl (visit cur) st pending)
        ∧ (measure (foldl (visit cur) st pending) ≤ measure st)%nat.
Proof.
  revert d st. induction pending as [|nd pending IH]; intros d st Hinv Harcs; simpl.
  - eauto.
  - destruct (visit_inv _ _ _ _ _ _ Hinv) as [d1 Hinv1].
    { apply Harcs. by left. }
    destruct (IH d1 _ Hinv1) as (d' & Hinv' & Hm).
    { intros nd' Hin. apply Harcs. by right. }
    exists d'. split; [done|].
    pose proof (visit_measure cur st nd (Harcs nd ltac:(by left))). lia.
Qed.

(** After a node is fully expanded, the depth of the queue head is again
    the current level, possibly one more than before. *)
Lemma inv_next_level d k cur st :
  bfs_inv d k cur [] st →
  ∃ k', (k' ≤ S k)%nat ∧ bfs_inv d k' cur [] st
        ∧ ∀ u q', q st = u :: q' → d u = k'.
Proof.
  intros Hinv. destruct (inv_queue _ _ _ _ _ _ _ _ Hinv) as (q1 & q2 & Hq & H1 & H2).
  destruct q1 as [|u1 q1].
  - exists (S k). split; [lia|]. split.
    + destruct Hinv. constructor; try done.
      * exists q2, []. rewrite app_nil_r. by repeat split.
      * intros v Hv. specialize (inv_bound0 v Hv). lia.
    + intros u q' Hu. simpl in Hq. rewrite Hu in Hq. subst q2.
      by apply Forall_cons in H2 as [? _].
  - exists k. split; [lia|]. split; [done|].
    intros u q' Hu. rewrite Hq in Hu. injection Hu as <- _.
    by apply Forall_cons in H1 as [? _].
Qed.

Lemma reconstruct_inv d k cur pending st fuel v acc :
  bfs_inv d k cur pending st →
  is_Some (prev st !! v) → (d v < fuel)%nat →
  ∃ path, reconstruct fuel (prev st) (prev_move st) v acc = Ret (acc ++ rev path)
          ∧ walk g start path v ∧ length path = d v
          ∧ Forall (λ x, x ∈ cardinals) path.
Proof.
  intros Hinv. revert v acc.
  induction fuel as [|fuel IH]; intros v acc [o Hv] Hlt; [lia|].
  simpl. rewrite Hv. destruct o as [u|].
  - destruct (inv_tree _ _ _ _ _ _ _ _ Hinv v u Hv) as (dir & Hpm & Ha & Hdv & Hu).
    rewrite Hpm.
    destruct (IH u (acc ++ [dir]) Hu) as (path & Hrec & Hwalk & Hlen & Hcard); [lia|].
    exists (path ++ [dir]). rewrite Hrec, rev_app_distr, <- app_assoc. simpl.
    split; [done|]. split; [|split].
    + eapply walk_snoc; eauto. by apply arc_edge.
    + rewrite length_app. simpl. lia.
    + apply Forall_app. split; [done|]. apply Forall_singleton. by destruct Ha.
  - destruct (inv_root _ _ _ _ _ _ _ _ Hinv v Hv) as [-> Hd0].
    exists []. simpl. rewrite app_nil_r. repeat split; auto. constructor.
Qed.

(** No walk reaches a node of the current level in fewer steps. *)
Lemma walk_lower_bound d k cur st u ds v :
  bfs_inv d k cur [] st →
  walk g u ds v → is_Some (prev st !! u) →
  (is_Some (prev st !! v) ∧ d v ≤ d u + length ds)%nat
  ∨ (k ≤ d u + length ds)%nat.
Proof.
  intros Hinv Hwalk. induction Hwalk as [u|u dir w ds v He Hw IH]; intros Hu.
  - left. split; [done|]. simpl. lia.
  - destruct (decide (u ∈ q st)) as [Hin|Hnin].
    { right. pose proof (inv_queue_depth _ _ _ _ _ _ Hinv Hin). lia. }
    apply edge_arc in He.
    destruct (inv_closed _ _ _ _ _ _ _ _ Hinv u _ w Hu Hnin He) as [Hw'|[_ Hin]];
      [|by apply elem_of_nil in Hin].
    pose proof (inv_short _ _ _ _ _ _ _ _ Hinv u _ w Hu Hw' He) as Hs.
    simpl. destruct (IH Hw') as [[Hv Hd]|Hk]; [left|right]; [split; [done|]|]; lia.
Qed.

(** When the queue is empty every node a walk can reach has been seen. *)
Lemma walk_closed d k cur st u ds v :
  bfs_inv d k cur [] st → q st = [] →
  walk g u ds v → is_Some (prev st !! u) → is_Some (prev st !! v).
Proof.
  intros Hinv Hq Hwalk. induction Hwalk as [u|u dir w ds v He Hw IH]; intros Hu.
  - done.
  - apply IH. apply edge_arc in He.
    destruct (inv_closed _ _ _ _ _ _ _ _ Hinv u (Py.upper dir) w Hu) as [?|[_ Hin]]; auto.
    + rewrite Hq. apply not_elem_of_nil.
    + by apply elem_of_nil in Hin.
Qed.

Lemma bfs_loop_inv total fuel d k cur st :
  bfs_inv d k cur [] st →
  (∀ u q', q st = u :: q' → d u = k) →
  (measure st < fuel)%nat → (k + fuel ≤ total)%nat →
  ∃ found st',
    bfs_loop fuel g (Py.len g) (width g) target st = Ret (found, st')
    ∧ search_post total found st'.
Proof.
  revert d k cur st.
  induction fuel as [|fuel IH]; intros d k cur st Hinv Hhead Hm Hk; [lia|].
  simpl. destruct (q st) as [|node q'] eqn:Hq.
  - exists false, st. split; [done|]. intros ds Hwalk.
    assert (Hs : is_Some (prev st !! start)) by (rewrite (inv_start _ _ _ _ _ _ _ _ Hinv); eauto).
    pose proof (walk_closed _ _ _ _ _ _ _ Hinv Hq Hwalk Hs) as Ht.
    eapply (inv_target _ _ _ _ _ _ _ _ Hinv target); eauto.
    rewrite Hq. apply not_elem_of_nil.
  - specialize (Hhead node q' eq_refl).
    assert (Hnode : is_Some (prev st !! node)).
    { apply (inv_queue_in _ _ _ _ _ _ _ _ Hinv). rewrite Hq. by left. }
    destruct (decide (node = target)) as [->|Hne].
    + eexists true, _. split; [done|]. simpl.
      destruct (reconstruct_inv _ _ _ _ _ total target [] Hinv Hnode)
        as (path & Hrec & Hwalk & Hlen & Hcard); [lia|].
      exists path. split; [done|]. split; [done|]. split; [done|].
      intros ds Hds.
      assert (Hs : is_Some (prev st !! start)) by (rewrite (inv_start _ _ _ _ _ _ _ _ Hinv); eauto).
      destruct (inv_root _ _ _ _ _ _ _ _ Hinv start (inv_start _ _ _ _ _ _ _ _ Hinv)) as [_ Hd0].
      destruct (walk_lower_bound _ _ _ _ _ _ _ Hinv Hds Hs) as [[_ Hb]|Hb]; lia.
    + destruct (neighbors_arcs node) as (nbrs & -> & Hnbrs). simpl.
      set (st1 := {| q := q'; prev := prev st; prev_move := prev_move st |}).
      assert (Hinv1 : bfs_inv d k node nbrs st1).
      { destruct Hinv. constructor; simpl; auto.
        - destruct inv_queue0 as (q1 & q2 & Hq12 & H1 & H2). rewrite Hq in Hq12.
          destruct q1 as [|u1 q1]; simpl in Hq12.
          + subst q2. apply Forall_cons in H2 as [? ?]. lia.
          + injection Hq12 as <- ->. apply Forall_cons in H1 as [? ?].
            by exists q1, q2.
        - intros v Hv. apply inv_queue_in0. rewrite Hq. by right.
        - intros u dir v Hu Hnin Ha.
          destruct (decide (u = node)) as [->|Hun].
          + right. split; [done|]. by apply Hnbrs.
          + destruct (inv_closed0 u dir v Hu) as [?|[_ Hin]]; auto.
            * rewrite Hq. intros [?|?]%elem_of_cons; done.
            * by apply elem_of_nil in Hin.
        - intros u Hu Hnin. destruct (decide (u = node)) as [->|Hun]; [done|].
          apply inv_target0; [done|].
          rewrite Hq. intros [?|?]%elem_of_cons; done. }
      destruct (visit_all _ _ _ _ _ Hinv1) as (d2 & Hinv2 & Hm2).
      { intros [v dir] Hin. by apply Hnbrs. }
      destruct (inv_next_level _ _ _ _ Hinv2) as (k' & Hk' & Hinv3 & Hhead3).
      apply (IH d2 k' node); auto.
      * unfold measure in *. simpl in *. rewrite Hq in Hm. simpl in Hm.
        unfold unvisited in *. simpl in *. lia.
      * lia.
Qed.

Lemma bfs_inv_init :
  bfs_inv (λ _, 0%nat) 0 start []
    {| q := [start]; prev := {[start := None]}; prev_move := ∅ |}.
Proof.
  constructor; simpl.
  - by rewrite lookup_singleton_eq.
  - intros v Hv. by apply lookup_singleton_Some in Hv as [<- _].
  - intros v u Hv. by apply lookup_singleton_Some in Hv as [_ ?].
  - exists [start], []. by repeat constructor.
  - intros v Hv. apply list_elem_of_singleton in Hv as ->.
    by rewrite lookup_singleton_eq.
  - intros; lia.
  - intros u dir v [y Hu] Hnin. apply lookup_singleton_Some in Hu as [<- _].
    exfalso. apply Hnin. by apply list_elem_of_singleton.
  - intros; lia.
  - intros u [y Hu] Hnin. apply lookup_singleton_Some in Hu as [<- _].
    exfalso. apply Hnin. by apply list_elem_of_singleton.
  - done.
Qed.

(** The search from [start] returns within [search_fuel] passes. *)
Lemma bfs_search :
  ∃ found st,
    bfs_loop (search_fuel (Py.len g) (width g)) g (Py.len g) (width g) target
      {| q := [start]; prev := {[start := None]}; prev_move := ∅ |}
      = Ret (found, st)
    ∧ search_post (search_fuel (Py.len g) (width g)) found st.
Proof.
  eapply (bfs_loop_inv _ _ _ 0%nat start); [apply bfs_inv_init| | |lia].
  - by intros u q' [= <- _].
  - unfold measure, unvisited, search_fuel. simpl.
    pose proof (length_filter (λ p, ({[start := None]} : gmap position (option position)) !! p = None)
                  (all_cells (Py.len g) (width g))) as Hle.
    rewrite length_all_cells in Hle by (unfold width, Py.len; lia).
    lia.
Qed.

End BFS.

(** ** The target of the search *)

Lemma sorted_seq n a : StronglySorted lt (seq a n).
Proof.
  revert a. induction n as [|n IH]; intros a; simpl; constructor; [done|].
  apply Forall_forall. intros k Hk. apply elem_of_seq in Hk. lia.
Qed.

Lemma sorted_seqZ m n : StronglySorted Z.lt (seqZ m n).
Proof.
  unfold seqZ. eapply StronglySorted_fmap; [|apply (sorted_seq _ 0%nat)].
  intros x y Hxy. simpl. lia.
Qed.

Lemma sorted_bind {A B} (R1 : relation A) (R2 : relation B) (f : A → list B) l :
  StronglySorted R1 l →
  (∀ x, StronglySorted R2 (f x)) →
  (∀ x y a b, R1 x y → a ∈ f x → b ∈ f y → R2 a b) →
  StronglySorted R2 (l ≫= f).
Proof.
  intros Hl Hf HR. induction Hl as [|x l Hl IH Hx]; [constructor|].
  rewrite bind_cons. apply StronglySorted_app_2; auto.
  intros a b Ha Hb. apply list_elem_of_bind in Hb as (y & Hb & Hy).
  rewrite Forall_forall in Hx. eauto.
Qed.

Lemma sorted_all_cells rows cols : StronglySorted row_major_lt (all_cells rows cols).
Proof.
  unfold all_cells. eapply sorted_bind; [apply sorted_seqZ| |].
  - intros r. eapply sorted_bind; [apply sorted_seqZ| |].
    + intros c. repeat constructor.
    + intros c c' a b Hlt ->%list_elem_of_singleton ->%list_elem_of_singleton.
      right. simpl. lia.
  - intros r r' a b Hlt Ha Hb.
    apply list_elem_of_bind in Ha as (c & ->%list_elem_of_singleton & _).
    apply list_elem_of_bind in Hb as (c' & ->%list_elem_of_singleton & _).
    left. simpl. lia.
Qed.

Lemma treasure_cells_filter g cells :
  wf_grid g →
  Forall (λ p : position, 0 ≤ p.1 < Py.len g ∧ 0 ≤ p.2 < width g) cells →
  treasure_cells g cells = Ret (filter (λ p, cell_at g p = Some Treasure) cells).
Proof.
  intros Hwf. induction 1 as [|[r c] cells [Hr Hc] Hall IH]; [done|].
  simpl in *.
  destruct (cell_at_in_range g r c Hwf Hr Hc) as (row & x & Hrow & Hx & Hcell).
  rewrite (getitem_lookup g r row); [|lia|done]. simpl.
  rewrite (getitem_lookup row c x); [|lia|done]. simpl.
  rewrite IH. simpl. rewrite filter_cons, Hcell.
  destruct (decide (x = Treasure)) as [->|Hne].
  - by rewrite decide_True.
  - rewrite decide_False; [done|]. congruence.
Qed.

Lemma targets_all_cells g :
  wf_grid g →
  treasure_cells g (all_cells (Py.len g) (width g))
  = Ret (filter (λ p, cell_at g p = Some Treasure) (all_cells (Py.len g) (width g))).
Proof.
  intros Hwf. apply treasure_cells_filter; [done|].
  apply Forall_forall. intros [r c] Hin. by apply elem_of_all_cells in Hin.
Qed.

Lemma targets_none g :
  wf_grid g → (∀ p, cell_at g p ≠ Some Treasure) →
  treasure_cells g (all_cells (Py.len g) (width g)) = Ret [].
Proof.
  intros Hwf Hno. rewrite targets_all_cells by done. f_equal.
  induction (all_cells (Py.len g) (width g)) as [|p l IH]; [done|].
  rewrite filter_cons, decide_False; auto.
Qed.

(** [targets[0]] is the first Goal cell in row-major order. *)
Lemma targets_first g t :
  wf_grid g → first_goal g t →
  ∃ rest, treasure_cells g (all_cells (Py.len g) (width g)) = Ret (t :: rest).
Proof.
  intros Hwf [Ht Hmin]. rewrite targets_all_cells by done.
  set (P := λ p : position, cell_at g p = Some Treasure).
  set (l := all_cells (Py.len g) (width g)).
  assert (Htl : t ∈ l).
  { destruct t as [r c]. apply elem_of_all_cells. eapply cell_at_bounds; eauto. }
  assert (Htf : t ∈ filter P l) by (apply list_elem_of_filter; done).
  destruct (filter P l) as [|x rest] eqn:Hf; [by apply elem_of_nil in Htf|].
  exists rest. do 2 f_equal.
  assert (Hx : x ∈ filter P l) by (rewrite Hf; by left).
  apply list_elem_of_filter in Hx as [HPx Hxl].
  assert (Hhead : head (filter P l) = Some x) by (by rewrite Hf).
  apply head_filter_Some in Hhead as (l1 & l2 & Hl & Hl1).
  pose proof (sorted_all_cells (Py.len g) (width g)) as Hs. fold l in Hs.
  rewrite Hl in Hs, Htl.
  apply StronglySorted_app in Hs as (_ & _ & Hs2).
  apply StronglySorted_cons in Hs2 as [Hlt _]. rewrite Forall_forall in Hlt.
  apply elem_of_app in Htl as [Hin|Hin].
  - rewrite Forall_forall in Hl1. by destruct (Hl1 t Hin).
  - apply elem_of_cons in Hin as [->|Hin]; [done|].
    specialize (Hlt t Hin). specialize (Hmin x HPx).
    unfold row_major_lt, row_major_le in *. lia.
Qed.

(** ** [plan_path] *)

Lemma bind_Ret {A B} (x : A) (f : A → result B) : Ret x ≫= f = f x.
Proof. reflexivity. Qed.

Lemma plan_path_no_goal g start :
  wf_grid g → (∀ p, cell_at g p ≠ Some Treasure) →
  plan_path g start = Ret NoTarget.
Proof.
  intros Hwf Hno. unfold plan_path. rewrite wf_grid_row0 by done. simpl.
  fold (width g). by rewrite targets_none.
Qed.

(** With a Goal cell on the grid the planner returns either a shortest
    walk to the first one or, when no walk exists, [NoPath]. *)
Lemma plan_path_goal g start t :
  wf_grid g → first_goal g t →
  (∃ path, plan_path g start = Ret (Path t path)
           ∧ walk g start path t
           ∧ Forall (λ d, d ∈ cardinals) path
           ∧ ∀ ds, walk g start ds t → (length path ≤ length ds)%nat)
  ∨ (plan_path g start = Ret NoPath ∧ ∀ ds, ¬ walk g start ds t).
Proof.
  intros Hwf Hfirst. unfold plan_path.
  rewrite wf_grid_row0, bind_Ret by done. fold (width g).
  destruct (targets_first g t Hwf Hfirst) as [rest ->]. rewrite bind_Ret.
  destruct (bfs_search g start t Hwf) as (found & st & -> & Hpost).
  rewrite bind_Ret. destruct found; unfold search_post in Hpost.
  - destruct Hpost as (path & -> & Hwalk & Hcard & Hmin). rewrite bind_Ret.
    left. exists path. rewrite rev_involutive. done.
  - right. done.
Qed.

(** ** Replaying a plan *)

Lemma replay_walk e ds v :
  wf_grid (grid e) → walk (grid e) (agent_pos e) ds v →
  ∃ obs e', replay ds e = Ret (obs, e') ∧ agent_pos e' = v
            ∧ grid e' = grid e ∧ map_memory e' = map_memory e
            ∧ length obs = length ds
            ∧ (cell_at (grid e) v = Some Treasure → ds ≠ [] →
               last obs = Some msg_success).
Proof.
  intros Hwf Hwalk. remember (grid e) as g eqn:Hg. remember (agent_pos e) as u eqn:Hu.
  revert e Hg Hu. induction Hwalk as [u|u d w ds v [Hst Hfree] Hw IH]; intros e -> ->.
  - exists [], e. simpl. repeat split; auto. done.
  - simpl. rewrite (move_agent_step _ _ _ Hwf Hst), Hfree, bind_Ret.
    destruct (IH (set_pos e w) eq_refl eq_refl) as (obs & e' & -> & Hpos & Hgr & Hmem & Hlen & Hlast).
    rewrite bind_Ret. eexists _, e'. split; [done|].
    split; [done|]. split; [done|]. split; [done|]. split; [simpl; lia|].
    intros Ht _. destruct ds as [|d' ds].
    + inversion Hw; subst. simpl in *. destruct obs; [|done]. simpl.
      by rewrite decide_True.
    + specialize (Hlast Ht ltac:(done)). destruct obs; [done|]. done.
Qed.

Lemma replay_shorter_walk e ds obs e' :
  wf_grid (grid e) → replay ds e = Ret (obs, e') →
  ∃ ds', walk (grid e) (agent_pos e) ds' (agent_pos e')
         ∧ (length ds' ≤ length ds)%nat.
Proof.
  intros Hwf. revert e obs Hwf. induction ds as [|d ds IH]; intros e obs Hwf; simpl.
  - intros [= <- <-]. exists []. split; [constructor|done].
  - destruct (step_target (Py.upper d) (agent_pos e).1 (agent_pos e).2) as [w|] eqn:Hst.
    + rewrite (move_agent_step _ _ _ Hwf Hst).
      destruct (free (grid e) w) eqn:Hfree; rewrite bind_Ret.
      * destruct (replay ds (set_pos e w)) as [[rest e'']| |] eqn:Hr; [|done..].
        rewrite bind_Ret. intros [= <- <-].
        destruct (IH (set_pos e w) _ Hwf Hr) as (ds' & Hw & Hlen). simpl in Hw.
        exists (d :: ds'). split; [|simpl; lia].
        econstructor; [|exact Hw]. done.
      * destruct (replay ds e) as [[rest e'']| |] eqn:Hr; [|done..].
        rewrite bind_Ret. intros [= <- <-].
        destruct (IH _ _ Hwf Hr) as (ds' & Hw & Hlen).
        exists ds'. split; [done|simpl; lia].
    + rewrite (move_agent_invalid _ _ Hst), bind_Ret.
      destruct (replay ds e) as [[rest e'']| |] eqn:Hr; [|done..].
      rewrite bind_Ret. intros [= <- <-].
      destruct (IH _ _ Hwf Hr) as (ds' & Hw & Hlen).
      exists ds'. split; [done|simpl; lia].
Qed.

(** ** [get_llm_response] *)

Lemma get_llm_response_no_goal h e cache :
  wf_grid (grid e) → (∀ p, cell_at (grid e) p ≠ Some Treasure) →
  get_llm_response h e cache = Ret (msg_no_treasure, cache).
Proof.
  intros Hwf Hno. unfold get_llm_response.
  by rewrite plan_path_no_goal.
Qed.

Lemma get_llm_response_no_path h e cache t :
  wf_grid (grid e) → first_goal (grid e) t →
  (∀ ds, ¬ walk (grid e) (agent_pos e) ds t) →
  get_llm_response h e cache = Ret (msg_no_path, cache).
Proof.
  intros Hwf Hfirst Hno. unfold get_llm_response.
  destruct (plan_path_goal _ (agent_pos e) t Hwf Hfirst)
    as [(path & _ & Hwalk & _)|[-> _]]; [|done].
  by destruct (Hno path).
Qed.

(** A request whose plan cache is fresh or stands for another position,
    when the plan has at least one move. *)
Lemma get_llm_response_replan h e cache t :
  wf_grid (grid e) → first_goal (grid e) t →
  (∃ ds, walk (grid e) (agent_pos e) ds t) → agent_pos e ≠ t →
  stale e cache →
  ∃ d rest,
    plan_path (grid e) (agent_pos e) = Ret (Path t (d :: rest))
    ∧ d ∈ cardinals
    ∧ walk (grid e) (agent_pos e) (d :: rest) t
    ∧ (∀ ds, walk (grid e) (agent_pos e) ds t → (S (length rest) ≤ length ds)%nat)
    ∧ get_llm_response h e cache
      = Ret (react_message rest d,
             Some {| _plan := rest; _plan_owner := agent_pos e |}).
Proof.
  intros Hwf Hfirst [ds Hds] Hne Hstale. unfold get_llm_response.
  destruct (plan_path_goal _ (agent_pos e) t Hwf Hfirst)
    as [(path & Hplan & Hwalk & Hcard & Hmin)|[_ Hno]]; [|by destruct (Hno ds)].
  destruct path as [|d rest]; [by inversion Hwalk|].
  exists d, rest. rewrite Hplan, bind_Ret. split; [done|].
  split; [by apply Forall_cons in Hcard as [? _]|]. split; [done|]. split; [done|].
  destruct cache as [c|]; [|done]. simpl in Hstale.
  by rewrite decide_True.
Qed.

(** ** The plan is a shortest way to the Goal *)

Lemma get_llm_response_on_goal h e cache t :
  wf_grid (grid e) → first_goal (grid e) t → agent_pos e = t →
  stale e cache →
  plan_path (grid e) (agent_pos e) = Ret (Path t [])
  ∧ get_llm_response h e cache
    = Ret (msg_final_success, Some {| _plan := []; _plan_owner := agent_pos e |}).
Proof.
  intros Hwf Hfirst Hpos Hstale. unfold get_llm_response.
  destruct (plan_path_goal _ (agent_pos e) t Hwf Hfirst)
    as [(path & Hplan & Hwalk & _ & Hmin)|[_ Hno]]; cycle 1.
  { destruct (Hno []). rewrite Hpos. constructor. }
  assert (path = []) as ->.
  { specialize (Hmin []). rewrite Hpos in Hmin. specialize (Hmin (walk_nil _ _)).
    destruct path; [done|simpl in Hmin; lia]. }
  split; [done|]. rewrite Hplan, bind_Ret.
  assert (Hcache : match cache with
               | None => {| _plan := []; _plan_owner := agent_pos e |}
               | Some c0 =>
                   if decide (_plan_owner c0 ≠ agent_pos e)
                   then {| _plan := []; _plan_owner := agent_pos e |}
                   else c0
               end = {| _plan := []; _plan_owner := agent_pos e |}).
  { destruct cache as [c0|]; [|done]. simpl in Hstale. by rewrite decide_True. }
  rewrite Hcache. simpl.
  destruct Hfirst as [Ht _]. rewrite <- Hpos in Ht.
  destruct (agent_pos e) as [r c]. simpl.
  apply cell_at_Some in Ht as (Hr & Hc & row & Hrow & Hx & _).
  rewrite (getitem_lookup (grid e) r row), bind_Ret; [|lia|done].
  rewrite (getitem_lookup row c Treasure), bind_Ret; [|lia|done].
  by rewrite decide_True.
Qed.

Lemma plan_shortest g start t mem :
  wf_grid g → first_goal g t → (∃ ds, walk g start ds t) →
  let e := {| grid := g; agent_pos := start; map_memory := mem |} in
  ∃ path,
    plan_path g start = Ret (Path t path)
    ∧ (∃ obs e', replay path e = Ret (obs, e') ∧ agent_pos e' = t
                 ∧ cell_at (grid e') (agent_pos e') = Some Treasure)
    ∧ (∀ ds obs e', replay ds e = Ret (obs, e') → agent_pos e' = t →
                    (length path ≤ length ds)%nat)
    ∧ (∀ ds, walk g start ds t → (length path ≤ length ds)%nat)
    ∧ ∀ h cache, stale e cache →
        get_llm_response h e cache
        = Ret (match path with
               | [] => msg_final_success
               | d :: rest => react_message rest d
               end, Some {| _plan := tail path; _plan_owner := start |}).
Proof.
  intros Hwf Hfirst [ds0 Hds0] e.
  destruct (plan_path_goal g start t Hwf Hfirst)
    as [(path & Hplan & Hwalk & Hcard & Hmin)|[_ Hno]]; [|by destruct (Hno ds0)].
  exists path. split; [done|]. split; [|split; [|split; [done|]]].
  - destruct (replay_walk e path t Hwf Hwalk) as (obs & e' & Hr & Hpos & Hg & _).
    exists obs, e'. split; [done|]. split; [done|].
    rewrite Hpos, Hg. by destruct Hfirst.
  - intros ds obs e' Hr Hpos.
    destruct (replay_shorter_walk e ds obs e' Hwf Hr) as (ds' & Hw & Hlen).
    rewrite Hpos in Hw. specialize (Hmin ds' Hw). lia.
  - intros h cache Hstale. destruct (decide (start = t)) as [Heq|Hne].
    + destruct (get_llm_response_on_goal h e cache t Hwf Hfirst Heq Hstale) as [Hp ->].
      simpl in Hp. rewrite Hplan in Hp. by injection Hp as ->.
    + destruct (get_llm_response_replan h e cache t Hwf Hfirst)
        as (d & rest & Hp & _ & _ & _ & ->); [by exists ds0|done|done|].
      simpl in Hp. rewrite Hplan in Hp. by injection Hp as ->.
Qed.

(** The program's own grid. *)
Lemma init_first_goal : first_goal init_grid (2, 4).
Proof.
  split; [reflexivity|]. intros [r c] Hp.
  pose proof (cell_at_bounds _ _ _ _ wf_init_grid Hp) as [Hr Hc].
  change (Py.len init_grid) with 5 in Hr. change (width init_grid) with 5 in Hc.
  assert (Hrc : (r = 0 ∨ r = 1 ∨ r = 2 ∨ r = 3 ∨ r = 4)
              ∧ (c = 0 ∨ c = 1 ∨ c = 2 ∨ c = 3 ∨ c = 4)) by lia.
  unfold row_major_le. simpl.
  destruct Hrc as [[-> | [-> | [-> | [-> | ->]]]] [-> | [-> | [-> | [-> | ->]]]]];
    first [discriminate Hp | lia].
Qed.

Lemma init_walk : walk init_grid (1, 1) init_path (2, 4).
Proof. unfold init_path. repeat (econstructor; [by split|]). constructor. Qed.

Lemma init_plan_path : plan_path init_grid (1, 1) = Ret (Path (2, 4) init_path).
Proof. vm_compute. reflexivity. Qed.

(** C2, as the specification has it, fails: on the program's grid the
    plan the planner computes does not have length 4, and no four
    directions at all lead from (1, 1) to the Goal at (2, 4). *)
Lemma concrete_plan_length_not_4 :
  (¬ ∃ path, plan_path init_grid (1, 1) = Ret (Path (2, 4) path)
             ∧ length path = 4%nat)
  ∧ (¬ ∃ ds obs e', length ds = 4%nat
                    ∧ replay ds init_env = Ret (obs, e')
                    ∧ agent_pos e' = (2, 4)).
Proof.
  split.
  - intros (path & Hplan & Hlen). rewrite init_plan_path in Hplan.
    injection Hplan as <-. discriminate Hlen.
  - intros (ds & obs & e' & Hlen & Hr & Hpos).
    destruct (plan_shortest init_grid (1, 1) (2, 4) ∅ wf_init_grid init_first_goal
                (ex_intro _ init_path init_walk)) as (path & Hplan & _ & Hmin & _).
    rewrite init_plan_path in Hplan. injection Hplan as <-.
    specialize (Hmin ds obs e' Hr Hpos). simpl in Hmin. lia.
Qed.

(** C2, amended. On the program's grid, from (1, 1), the planner's plan is
    South, South, East, East, North, East; no list of fewer than 6
    directions ends on the Goal at (2, 4); replaying the plan ends with the
    success observation, on the Goal cell, and [get_pos] then reports
    (2, 4). *)
Theorem concrete_plan :
  plan_path init_grid (1, 1) = Ret (Path (2, 4) init_path)
  ∧ length init_path = 6%nat
  ∧ (∀ ds obs e', replay ds init_env = Ret (obs, e') → agent_pos e' = (2, 4) →
                  (6 ≤ length ds)%nat)
  ∧ ∃ obs e',
      replay init_path init_env = Ret (obs, e')
      ∧ last obs = Some msg_success
      ∧ agent_pos e' = (2, 4)
      ∧ cell_at (grid e') (agent_pos e') = Some Treasure
      ∧ get_pos e' = Ret ("(2, 4)", e').
Proof.
  split; [exact init_plan_path|]. split; [reflexivity|]. split.
  - intros ds obs e' Hr Hpos.
    destruct (plan_shortest init_grid (1, 1) (2, 4) ∅ wf_init_grid init_first_goal
                (ex_intro _ init_path init_walk)) as (path & Hplan & _ & Hmin & _).
    rewrite init_plan_path in Hplan. injection Hplan as <-.
    exact (Hmin ds obs e' Hr Hpos).
  - eexists _, _. split; [vm_compute; reflexivity|]. by repeat split.
Qed.

(** ** Text lemmas for the loop *)

Local Open Scope string_scope.

Lemma str_app_cons a (s1 s2 : string) : String a s1 ++ s2 = String a (s1 ++ s2).
Proof. reflexivity. Qed.

Lemma str_app_assoc (a b c : string) : (a ++ b) ++ c = a ++ (b ++ c).
Proof. induction a; [done|]. by rewrite !str_app_cons, IHa. Qed.

Lemma all_chars_app p s1 s2 :
  all_chars p (s1 ++ s2) = all_chars p s1 && all_chars p s2.
Proof.
  induction s1; [done|]. rewrite str_app_cons. simpl.
  by rewrite IHs1, andb_assoc.
Qed.

Lemma all_chars_impl (p p' : ascii → bool) s :
  (∀ c, p c = true → p' c = true) → all_chars p s = true → all_chars p' s = true.
Proof.
  intros Hpp'. induction s; simpl; [done|].
  intros [? ?]%andb_prop. rewrite Hpp', IHs; auto.
Qed.

Lemma string_of_uint_chars u :
  all_chars is_digit_or_minus (NilEmpty.string_of_uint u) = true.
Proof. induction u; simpl; auto. Qed.

Lemma str_int_chars z : all_chars is_digit_or_minus (Py.str_int z) = true.
Proof.
  unfold Py.str_int. destruct (Z.to_int z); simpl; apply string_of_uint_chars.
Qed.

Lemma prefix_sep n c s1 s2 :
  all_chars (λ x, negb (Ascii.eqb x c)) n = true →
  String.prefix n (s1 ++ String c s2) = String.prefix n s1.
Proof.
  revert s1. induction n as [|a n IH]; intros s1 Hn; [by destruct s1|].
  simpl in Hn. apply andb_prop in Hn as [Ha Hn]. apply negb_true_iff in Ha.
  destruct s1 as [|b s1].
  - simpl. destruct (ascii_dec a c) as [->|]; [|done].
    by rewrite Ascii.eqb_refl in Ha.
  - rewrite str_app_cons. simpl. destruct (ascii_dec a b); [|done]. by apply IH.
Qed.

(** A character foreign to the needle separates the search. *)
Lemma contains_sep n c s1 s2 :
  all_chars (λ x, negb (Ascii.eqb x c)) n = true →
  Py.contains n (s1 ++ String c s2) = Py.contains n s1 || Py.contains n s2.
Proof.
  intros Hn. induction s1 as [|b s1 IH].
  - change (Py.contains n (String c s2)
            = (String.prefix n "" || false) || Py.contains n s2).
    unfold Py.contains at 1. fold Py.contains.
    rewrite <- (prefix_sep n c "" s2 Hn). by rewrite orb_false_r.
  - rewrite str_app_cons.
    unfold Py.contains at 1 2. fold Py.contains.
    rewrite <- str_app_cons, (prefix_sep n c _ s2 Hn), IH.
    by rewrite !orb_assoc.
Qed.

(** Text without the first letter of the needle does not contain it. *)
Lemma contains_no_head a n s :
  all_chars (λ c, negb (Ascii.eqb a c)) s = true →
  Py.contains (String a n) s = false.
Proof.
  induction s as [|c s IH]; [done|].
  intros [Hc Hs]%andb_prop. apply negb_true_iff in Hc.
  unfold Py.contains. fold Py.contains. rewrite (IH Hs), orb_false_r.
  simpl. destruct (ascii_dec a c) as [->|]; [|done].
  by rewrite Ascii.eqb_refl in Hc.
Qed.

Lemma contains_success_int z : Py.contains "SUCCESS" (Py.str_int z) = false.
Proof.
  apply contains_no_head. eapply all_chars_impl; [|apply str_int_chars].
  intros c. destruct c as [[] [] [] [] [] [] [] []]; done.
Qed.

Lemma msg_moved_shape p :
  msg_moved p =
  "OBSERVATION: Moved successfully. New position: "
  ++ String "(" (Py.str_int p.1
  ++ String "," (String " " (Py.str_int p.2
  ++ String ")" ". Area is Open."))).
Proof.
  unfold msg_moved, Py.str_pos. by rewrite !str_app_assoc.
Qed.

(** The success token does not occur in the moved observation. *)
Lemma contains_success_moved p : Py.contains "SUCCESS" (msg_moved p) = false.
Proof.
  rewrite msg_moved_shape.
  rewrite (contains_sep "SUCCESS" "(") by reflexivity.
  rewrite (contains_sep "SUCCESS" ",") by reflexivity.
  rewrite contains_success_int.
  rewrite <- (str_app_cons " " (Py.str_int p.2)).
  change (String " " (Py.str_int p.2)) with ("" ++ String " " (Py.str_int p.2)).
  rewrite str_app_assoc, str_app_cons.
  rewrite (contains_sep "SUCCESS" " ") by reflexivity.
  rewrite (contains_sep "SUCCESS" ")") by reflexivity.
  rewrite contains_success_int. reflexivity.
Qed.

Lemma drop_prefix_head_neq a n c s :
  Ascii.eqb a c = false → Py.drop_prefix (String a n) (String c s) = None.
Proof. intros H. simpl. by rewrite H. Qed.

(** The regex searches pass over text without a capital A. *)
Lemma search_action_skip s1 s2 :
  all_chars (λ c, negb (Ascii.eqb "A" c)) s1 = true →
  search_action (s1 ++ s2) = search_action s2.
Proof.
  induction s1 as [|c s1 IH]; [done|].
  intros [Hc H1]%andb_prop. apply negb_true_iff in Hc.
  rewrite str_app_cons.
  unfold search_action at 1. fold search_action.
  unfold match_action_here. rewrite drop_prefix_head_neq by done. auto.
Qed.

Lemma search_action_input_skip s1 s2 :
  all_chars (λ c, negb (Ascii.eqb "A" c)) s1 = true →
  search_action_input (s1 ++ s2) = search_action_input s2.
Proof.
  induction s1 as [|c s1 IH]; [done|].
  intros [Hc H1]%andb_prop. apply negb_true_iff in Hc.
  rewrite str_app_cons.
  unfold search_action_input at 1. fold search_action_input.
  unfold match_input_here. rewrite drop_prefix_head_neq by done. auto.
Qed.

Lemma digits_no_A z :
  all_chars (λ c, negb (Ascii.eqb "A" c)) (Py.str_int z) = true.
Proof.
  eapply all_chars_impl; [|apply str_int_chars].
  intros c. destruct c as [[] [] [] [] [] [] [] []]; done.
Qed.

(** The message of the planner, parsed back by the loop. *)
Lemma react_message_parse rest d :
  d ∈ cardinals →
  Py.startswith (react_message rest d) "Final Answer:" = false
  ∧ search_action (react_message rest d) = Some "move_agent"
  ∧ search_action_input (react_message rest d) = Some d.
Proof.
  intros Hd. split; [reflexivity|].
  assert (Hshape : react_message rest d =
    "Thought: I computed a path of "
    ++ (Py.str_int (Py.len rest + 1)
    ++ (" steps to the Treasure. Next move is " ++ d ++ "." ++ nl
        ++ "Action: move_agent" ++ nl ++ "Action Input: " ++ d))).
  { unfold react_message. by rewrite !str_app_assoc. }
  rewrite Hshape.
  rewrite !(search_action_skip "Thought: I computed a path of ") by reflexivity.
  rewrite !(search_action_input_skip "Thought: I computed a path of ") by reflexivity.
  rewrite !search_action_skip, !search_action_input_skip by apply digits_no_A.
  apply elem_of_cardinals in Hd as [-> | [-> | [-> | ->]]]; split; vm_compute; reflexivity.
Qed.

(** ** The loop *)

Local Open Scope Z_scope.

Section LoopFacts.

Context {DS : Type}.
Variable llm : list message → SimpleEnvironment → DS → result (string * DS).

Lemma loop_body_final st msg src' :
  llm (conversation_history st) (env st) (source st) = Ret (msg, src') →
  Py.startswith msg "Final Answer:" = true →
  loop_body llm st =
    Ret (Some FinalAnswer,
         {| env := env st; source := src';
            conversation_history := (conversation_history st ++ [assistant msg])%list;
            console := (console st ++ [print_terminated])%list |}).
Proof. intros Hllm Hfin. unfold loop_body. by rewrite Hllm, bind_Ret, Hfin. Qed.

Lemma loop_body_malformed st msg src' :
  llm (conversation_history st) (env st) (source st) = Ret (msg, src') →
  Py.startswith msg "Final Answer:" = false →
  search_action msg = None ∨ search_action_input msg = None →
  loop_body llm st =
    Ret (Some ProtocolFailure,
         {| env := env st; source := src';
            conversation_history := (conversation_history st ++ [assistant msg])%list;
            console := (console st ++ [print_format_error])%list |}).
Proof.
  intros Hllm Hfin Hno. unfold loop_body. rewrite Hllm, bind_Ret, Hfin.
  destruct Hno as [-> | ->]; [done|]. by destruct (search_action msg).
Qed.

Lemma loop_body_action st msg src' a i obs e' :
  llm (conversation_history st) (env st) (source st) = Ret (msg, src') →
  Py.startswith msg "Final Answer:" = false →
  search_action msg = Some a → search_action_input msg = Some i →
  execute_action (Py.strip a) (Py.strip i) (env st) = Ret (obs, e') →
  loop_body llm st =
    Ret (if Py.contains "SUCCESS" obs then Some GoalFound else None,
         {| env := e'; source := src';
            conversation_history :=
              (conversation_history st ++ [assistant msg; observation obs])%list;
            console :=
              (console st ++ print_executing (Py.strip a) (Py.strip i)
                 :: (if Py.contains "SUCCESS" obs then [print_goal] else []))%list |}).
Proof.
  intros Hllm Hfin Ha Hi Hex. unfold loop_body.
  rewrite Hllm, bind_Ret, Hfin, Ha, Hi, Hex, bind_Ret.
  destruct (Py.contains "SUCCESS" obs); by rewrite <- !app_assoc.
Qed.

Lemma loop_body_history st brk st' :
  loop_body llm st = Ret (brk, st') →
  assistant_count (conversation_history st')
  = S (assistant_count (conversation_history st)).
Proof.
  unfold loop_body.
  destruct (llm _ _ _) as [[msg src']| |]; [|done..]. rewrite bind_Ret.
  assert (H1 : ∀ h, assistant_count (h ++ [assistant msg])%list = S (assistant_count h)).
  { intros h. unfold assistant_count. rewrite filter_app, length_app. simpl. lia. }
  assert (H2 : ∀ h o, assistant_count (h ++ [observation o])%list = assistant_count h).
  { intros h o. unfold assistant_count. rewrite filter_app, length_app. simpl. lia. }
  destruct (Py.startswith msg "Final Answer:").
  { intros [= <- <-]. simpl. apply H1. }
  destruct (search_action msg) as [a|]; cycle 1.
  { intros [= <- <-]. simpl. apply H1. }
  destruct (search_action_input msg) as [i|]; cycle 1.
  { intros [= <- <-]. simpl. apply H1. }
  destruct (execute_action _ _ _) as [[obs e']| |]; [|done..]. rewrite bind_Ret.
  destruct (Py.contains "SUCCESS" obs); intros [= <- <-]; simpl;
    by rewrite (H2 _ obs), H1.
Qed.

(** The loop makes at most [steps] passes, one assistant entry each. *)
Lemma for_steps_bound steps done st k n st' :
  for_steps llm steps done st = Ret (k, n, st') →
  (done ≤ n ≤ done + steps)%nat
  ∧ (k = BudgetExhausted → n = (done + steps)%nat)
  ∧ assistant_count (conversation_history st')
    = (assistant_count (conversation_history st) + (n - done))%nat.
Proof.
  revert done st. induction steps as [|steps IH]; intros done st; simpl.
  - intros [= <- <- <-]. repeat split; lia.
  - destruct (loop_body llm st) as [[brk st1]| |] eqn:Hbody; [|done..].
    rewrite bind_Ret. apply loop_body_history in Hbody as Hh.
    destruct brk as [k1|].
    + intros [= <- <- <-]. split; [lia|]. split; [|lia].
      intros ->. unfold loop_body in Hbody.
      destruct (llm _ _ _) as [[msg src']| |]; [|done..]. rewrite bind_Ret in Hbody.
      repeat case_match; simplify_eq.
      destruct (execute_action _ _ _) as [[obs e']| |]; [|done..].
      rewrite bind_Ret in Hbody. repeat case_match; simplify_eq.
    + intros Hrest. destruct (IH _ _ Hrest) as (Hn & Hk & Hc).
      split; [lia|]. split; [intros ?; rewrite Hk; [lia|done]|]. lia.
Qed.

End LoopFacts.

(** *** Tool dispatch *)

Lemma execute_action_unknown a i e :
  AVAILABLE_TOOLS !! a = None →
  execute_action a i e = Ret (msg_unknown_tool a, e).
Proof. intros H. unfold execute_action. by rewrite H. Qed.

Lemma execute_action_move i e :
  execute_action "move_agent" i e =
    match move_agent i e with
    | Ret r => Ret r
    | Raise exn =>
        Ret ("TOOL ERROR: Failed to execute tool 'move_agent'. Error: "
               ++ str_exc exn, e)
    | OutOfFuel => OutOfFuel
    end.
Proof. reflexivity. Qed.

(** Dispatch always yields an observation, and keeps the agent on a free
    cell of the same grid. *)
Lemma execute_action_total a i e :
  wf_grid (grid e) → free (grid e) (agent_pos e) = true →
  ∃ obs e', execute_action a i e = Ret (obs, e')
            ∧ grid e' = grid e ∧ free (grid e') (agent_pos e') = true.
Proof.
  intros Hwf Hfree. unfold execute_action.
  destruct (AVAILABLE_TOOLS !! a) as [t|]; [|by eauto].
  destruct (String.eqb a "update_map"); [by eauto|].
  destruct t; simpl; try by eauto.
  destruct (after_free e (OpMove i) Hwf Hfree) as (Hf & obs & Hrun).
  simpl in Hrun. rewrite Hrun. eexists _, _. split; [done|]. split; [|done].
  by destruct (after_frame e (OpMove i)) as [? _].
Qed.

(** *** The planner as decision source *)

Lemma plan_path_total g start :
  wf_grid g → ∃ r, plan_path g start = Ret r.
Proof.
  intros Hwf. unfold plan_path. rewrite wf_grid_row0, bind_Ret by done.
  fold (width g). rewrite targets_all_cells, bind_Ret by done.
  destruct (filter _ _) as [|t rest]; [by eauto|].
  destruct (bfs_search g start t Hwf) as (found & st & -> & Hpost).
  rewrite bind_Ret. destruct found; [|by eauto].
  destruct Hpost as (path & -> & _). rewrite bind_Ret. eauto.
Qed.

Lemma get_llm_response_total h e cache :
  wf_grid (grid e) → free (grid e) (agent_pos e) = true →
  ∃ msg cache', get_llm_response h e cache = Ret (msg, cache').
Proof.
  intros Hwf Hfree. unfold get_llm_response.
  destruct (plan_path_total (grid e) (agent_pos e) Hwf) as [r ->].
  rewrite bind_Ret. destruct r as [| |t path]; [by eauto..|].
  match goal with |- context [_plan ?c] => destruct (_plan c) end; [|by eauto].
  pose proof (free_bounds _ _ Hwf Hfree) as [Hr Hc].
  destruct (agent_pos e) as [r c]. simpl in *.
  destruct (cell_at_in_range _ r c Hwf Hr Hc) as (row & x & Hrow & Hx & _).
  rewrite (getitem_lookup (grid e) r row), bind_Ret; [|lia|done].
  rewrite (getitem_lookup row c x), bind_Ret; [|lia|done].
  destruct (decide (x = Treasure)); eauto.
Qed.

Lemma loop_body_total (st : loop_state (option plan_cache)) :
  wf_grid (grid (env st)) → free (grid (env st)) (agent_pos (env st)) = true →
  ∃ brk st', loop_body get_llm_response st = Ret (brk, st')
             ∧ grid (env st') = grid (env st)
             ∧ free (grid (env st')) (agent_pos (env st')) = true.
Proof.
  intros Hwf Hfree. unfold loop_body.
  destruct (get_llm_response_total (conversation_history st) (env st) (source st)
              Hwf Hfree) as (msg & c' & ->).
  rewrite bind_Ret.
  destruct (Py.startswith msg "Final Answer:"); [by eauto|].
  destruct (search_action msg) as [a|]; [|by eauto].
  destruct (search_action_input msg) as [i|]; [|by eauto].
  destruct (execute_action_total (Py.strip a) (Py.strip i) (env st) Hwf Hfree)
    as (obs & e' & -> & Hg & Hf).
  rewrite bind_Ret. destruct (Py.contains "SUCCESS" obs); eauto.
Qed.

Lemma for_steps_total steps done (st : loop_state (option plan_cache)) :
  wf_grid (grid (env st)) → free (grid (env st)) (agent_pos (env st)) = true →
  ∃ k n st', for_steps get_llm_response steps done st = Ret (k, n, st').
Proof.
  revert done st. induction steps as [|steps IH]; intros done st Hwf Hfree; simpl.
  - eauto.
  - destruct (loop_body_total st Hwf Hfree) as (brk & st1 & -> & Hg & Hf).
    rewrite bind_Ret. destruct brk; [by eauto|].
    apply IH; [by rewrite Hg|done].
Qed.

(** *** The claims about the loop *)

Lemma run_one_final e cache msg cache' (max_steps : Z) :
  1 ≤ max_steps →
  get_llm_response initial_history e cache = Ret (msg, cache') →
  Py.startswith msg "Final Answer:" = true →
  run_agent_loop max_steps e cache =
    Ret (FinalAnswer, 1%nat,
         {| env := e; source := cache';
            conversation_history := (initial_history ++ [assistant msg])%list;
            console := [print_terminated] |}).
Proof.
  intros Hmax Hllm Hfin. unfold run_agent_loop, agent_loop.
  destruct (Z.to_nat max_steps) as [|n] eqn:Hn; [lia|]. simpl.
  by rewrite (loop_body_final _ _ msg cache').
Qed.

(** C4. On a well-formed grid, when the grid has no Goal cell, and when
    its first Goal cell cannot be reached from the start: the planner
    answers with the no-goal, respectively the no-path, final message and
    leaves the plan cache alone; the run returns normally for every budget;
    with a budget of at least one step it is left after one pass through the
    final-answer exit, the environment is untouched, nothing but that message
    is added to the history, and no tool call is announced. *)
Theorem structural_failure_terminates (g : list (list cell)) (start : position)
    (mem : gmap string string) (cache : option plan_cache) (max_steps : Z)
    (msg : string) :
  wf_grid g →
  ((∀ p, cell_at g p ≠ Some Treasure) ∧ msg = msg_no_treasure)
  ∨ (∃ t, first_goal g t ∧ (∀ ds, ¬ walk g start ds t) ∧ msg = msg_no_path) →
  let e := {| grid := g; agent_pos := start; map_memory := mem |} in
  (∀ h, get_llm_response h e cache = Ret (msg, cache))
  ∧ Py.startswith msg "Final Answer:" = true
  ∧ run_agent_loop max_steps e cache =
      if 1 <=? max_steps then
        Ret (FinalAnswer, 1%nat,
             {| env := e; source := cache;
                conversation_history := (initial_history ++ [assistant msg])%list;
                console := [print_terminated] |})
      else
        Ret (BudgetExhausted, 0%nat,
             {| env := e; source := cache;
                conversation_history := initial_history; console := [] |}).
Proof.
  intros Hwf Hcase e.
  assert (Hresp : ∀ h, get_llm_response h e cache = Ret (msg, cache)).
  { intros h. destruct Hcase as [[Hno ->]|(t & Hfirst & Hun & ->)].
    - by apply get_llm_response_no_goal.
    - by apply (get_llm_response_no_path _ e cache t). }
  assert (Hfin : Py.startswith msg "Final Answer:" = true).
  { by destruct Hcase as [[_ ->]|(t & _ & _ & ->)]. }
  split; [done|]. split; [done|].
  destruct (Z.leb_spec 1 max_steps) as [Hmax|Hmax].
  - by apply run_one_final.
  - unfold run_agent_loop, agent_loop.
    by replace (Z.to_nat max_steps) with 0%nat by lia.
Qed.

Lemma structural_failure_terminates_witness :
  let e := {| grid := [[Open; Open]]; agent_pos := (0, 0); map_memory := ∅ |} in
  let e' := {| grid := [[Open; Wall; Treasure]]; agent_pos := (0, 0);
               map_memory := ∅ |} in
  wf_grid [[Open; Open]] ∧ wf_grid [[Open; Wall; Treasure]] ∧
  run_agent_loop 20 e None =
    Ret (FinalAnswer, 1%nat,
         {| env := e; source := None;
            conversation_history := (initial_history ++ [assistant msg_no_treasure])%list;
            console := [print_terminated] |}) ∧
  run_agent_loop 20 e' None =
    Ret (FinalAnswer, 1%nat,
         {| env := e'; source := None;
            conversation_history := (initial_history ++ [assistant msg_no_path])%list;
            console := [print_terminated] |}).
Proof.
  intros e e'.
  assert (Hwf : wf_grid [[Open; Open]]) by (split; [done|repeat constructor]).
  assert (Hwf' : wf_grid [[Open; Wall; Treasure]]) by (split; [done|repeat constructor]).
  split; [exact Hwf|]. split; [exact Hwf'|]. split.
  - refine (proj2 (proj2 (structural_failure_terminates [[Open; Open]] (0, 0) ∅ None 20
                            msg_no_treasure Hwf (or_introl (conj _ eq_refl))))).
    intros [r c] Hp. pose proof (cell_at_bounds _ _ _ _ Hwf Hp) as [Hr Hc].
    change (Py.len [[Open; Open]]) with 1 in Hr.
    change (width [[Open; Open]]) with 2 in Hc.
    assert (r = 0 ∧ (c = 0 ∨ c = 1)) as [-> [-> | ->]] by lia; discriminate Hp.
  - assert (Hfirst : first_goal [[Open; Wall; Treasure]] (0, 2)).
    { split; [reflexivity|]. intros [r c] Hp.
      pose proof (cell_at_bounds _ _ _ _ Hwf' Hp) as [Hr Hc].
      change (Py.len [[Open; Wall; Treasure]]) with 1 in Hr.
      change (width [[Open; Wall; Treasure]]) with 3 in Hc.
      assert (r = 0 ∧ (c = 0 ∨ c = 1 ∨ c = 2)) as [-> [-> | [-> | ->]]] by lia;
        first [discriminate Hp | unfold row_major_le; simpl; lia]. }
    refine (proj2 (proj2 (structural_failure_terminates [[Open; Wall; Treasure]] (0, 0)
                            ∅ None 20 msg_no_path Hwf'
                            (or_intror (ex_intro _ (0, 2) (conj Hfirst (conj _ eq_refl))))))).
    intros ds Hds.
    destruct (plan_path_goal _ (0, 0) (0, 2) Hwf' Hfirst)
      as [(path & Hplan & _)|[_ Hno]]; [|by destruct (Hno ds)].
    vm_compute in Hplan. discriminate Hplan.
Defined.

(** Without the label of the action marker no tool name is found. *)
Lemma search_action_needs_label msg :
  Py.contains "Action:" msg = false → search_action msg = None.
Proof.
  induction msg as [|c msg IH].
  - done.
  - unfold Py.contains. fold Py.contains. intros [Hp Hc]%orb_false_elim.
    unfold search_action. fold search_action. rewrite (IH Hc).
    unfold match_action_here.
    assert (Hd : ∀ p s, String.prefix p s = false → Py.drop_prefix p s = None).
    { clear. induction p as [|a p IHp]; intros s; [by destruct s|].
      destruct s as [|b s]; [done|]. simpl.
      destruct (ascii_dec a b) as [->|Hne].
      - rewrite Ascii.eqb_refl. apply IHp.
      - intros _. apply Ascii.eqb_neq in Hne. by rewrite Hne. }
    by rewrite (Hd _ _ Hp).
Qed.

Lemma msg_unknown_tool_shape a :
  msg_unknown_tool a =
  "ERROR: Tool " ++ String "'" (a ++ String "'" " not found in AVAILABLE_TOOLS.").
Proof. reflexivity. Qed.

Lemma contains_success_unknown a :
  Py.contains "SUCCESS" (msg_unknown_tool a) = Py.contains "SUCCESS" a.
Proof.
  rewrite msg_unknown_tool_shape.
  rewrite !(contains_sep "SUCCESS" "'") by reflexivity.
  change (Py.contains "SUCCESS" "ERROR: Tool ") with false.
  change (Py.contains "SUCCESS" " not found in AVAILABLE_TOOLS.") with false.
  by rewrite orb_false_r.
Qed.

(** C7, as the specification has it, fails: a tool name outside the
    registry that contains the success token makes the very error
    observation end the run through the goal-found exit. *)
Lemma unknown_tool_named_success_stops :
  let llm := λ (_ : list message) (_ : SimpleEnvironment) (s : unit),
               Ret ("Action: SUCCESS" ++ nl ++ "Action Input: x", s) in
  AVAILABLE_TOOLS !! "SUCCESS" = None
  ∧ agent_loop llm 20 init_env tt =
      Ret (GoalFound, 1%nat,
           {| env := init_env; source := tt;
              conversation_history :=
                (initial_history
                   ++ [assistant ("Action: SUCCESS" ++ nl ++ "Action Input: x");
                       observation "ERROR: Tool 'SUCCESS' not found in AVAILABLE_TOOLS."])%list;
              console := [print_executing "SUCCESS" "x"; print_goal] |}).
Proof. split; vm_compute; reflexivity. Qed.

Lemma strip_cardinal d : d ∈ cardinals → Py.strip d = d.
Proof. intros [-> | [-> | [-> | ->]]]%elem_of_cardinals; reflexivity. Qed.

(** ** A whole run *)

(** One pass of the program's loop away from the Goal: the planner's
    first move is dispatched and succeeds. *)
Lemma planner_pass e cache t (h : list message) (con : list string) :
  wf_grid (grid e) → first_goal (grid e) t →
  (∃ ds, walk (grid e) (agent_pos e) ds t) → agent_pos e ≠ t →
  stale e cache →
  ∃ d rest p,
    edge (grid e) (agent_pos e) d p
    ∧ walk (grid e) p rest t
    ∧ (∀ ds, walk (grid e) (agent_pos e) ds t → (S (length rest) ≤ length ds)%nat)
    ∧ let goal := bool_decide (cell_at (grid e) p = Some Treasure) in
      loop_body get_llm_response
        {| env := e; source := cache; conversation_history := h; console := con |}
      = Ret (if goal then Some GoalFound else None,
             {| env := set_pos e p;
                source := Some {| _plan := rest; _plan_owner := agent_pos e |};
                conversation_history :=
                  (h ++ [assistant (react_message rest d);
                         observation (if goal then msg_success else msg_moved p)])%list;
                console :=
                  (con ++ print_executing "move_agent" d
                     :: (if goal then [print_goal] else []))%list |}).
Proof.
  intros Hwf Hfirst Hreach Hne Hstale.
  destruct (get_llm_response_replan h e cache t Hwf Hfirst Hreach Hne Hstale)
    as (d & rest & Hplan & Hd & Hwalk & Hmin & Hresp).
  inversion Hwalk as [|u d' p ds' v Hedge Hwrest]; subst.
  exists d, rest, p. split; [done|]. split; [done|]. split; [done|].
  destruct (react_message_parse rest d Hd) as (Hfin & Ha & Hi).
  destruct Hedge as [Hst Hfree]. intros goal.
  assert (Hmove : execute_action (Py.strip "move_agent") (Py.strip d) e
                  = Ret (if goal then msg_success else msg_moved p, set_pos e p)).
  { rewrite (strip_cardinal d Hd). change (Py.strip "move_agent") with "move_agent".
    rewrite execute_action_move, (move_agent_step _ _ _ Hwf Hst), Hfree.
    unfold goal. by destruct (decide (cell_at (grid e) p = Some Treasure));
      [rewrite bool_decide_eq_true_2|rewrite bool_decide_eq_false_2]. }
  rewrite (loop_body_action get_llm_response
             {| env := e; source := cache; conversation_history := h; console := con |}
             _ _ "move_agent" d _ _ Hresp Hfin Ha Hi Hmove).
  rewrite (strip_cardinal d Hd).
  destruct goal; [done|]. by rewrite contains_success_moved.
Qed.

(** From a position [S n] moves from the first Goal, with budget enough,
    the run ends through the goal-found exit: the directions dispatched
    form the beginning of a shortest walk to that Goal, and the agent
    stands on a Goal cell. *)
Lemma for_steps_reaches t (n : nat) :
  ∀ (steps done : nat) (e : SimpleEnvironment) (cache : option plan_cache)
    (h : list message) (con : list string),
    wf_grid (grid e) → first_goal (grid e) t → stale e cache →
    (∃ ds, walk (grid e) (agent_pos e) ds t ∧ length ds = S n) →
    (∀ ds, walk (grid e) (agent_pos e) ds t → (S n ≤ length ds)%nat) →
    (S n ≤ steps)%nat →
    ∃ ds ds' st,
      for_steps get_llm_response steps done
        {| env := e; source := cache; conversation_history := h; console := con |}
      = Ret (GoalFound, (done + length ds)%nat, st)
      ∧ walk (grid e) (agent_pos e) ds (agent_pos (env st))
      ∧ cell_at (grid e) (agent_pos (env st)) = Some Treasure
      ∧ walk (grid e) (agent_pos (env st)) ds' t
      ∧ (length ds + length ds')%nat = S n
      ∧ ds ≠ []
      ∧ grid (env st) = grid e ∧ map_memory (env st) = map_memory e
      ∧ console st = (con ++ (print_executing "move_agent" <$> ds) ++ [print_goal])%list.
Proof.
  induction n as [n IH] using lt_wf_ind.
  intros steps done e cache h con Hwf Hfirst Hstale (ds0 & Hds0 & Hlen0) Hmin Hsteps.
  assert (Hne : agent_pos e ≠ t).
  { intros Heq. specialize (Hmin []). rewrite Heq in Hmin.
    specialize (Hmin (walk_nil _ _)). simpl in Hmin. lia. }
  destruct (planner_pass e cache t h con Hwf Hfirst (ex_intro _ ds0 Hds0) Hne Hstale)
    as (d & rest & p & Hedge & Hwrest & Hmin' & Hbody).
  cbv zeta in Hbody.
  assert (Hrest : length rest = n).
  { specialize (Hmin (d :: rest) ltac:(econstructor; eauto)).
    specialize (Hmin' _ Hds0). simpl in Hmin. lia. }
  destruct steps as [|steps]; [lia|]. simpl for_steps. rewrite Hbody, bind_Ret.
  destruct (bool_decide (cell_at (grid e) p = Some Treasure)) eqn:Hgoal.
  - apply bool_decide_eq_true in Hgoal.
    eexists [d], rest, _. split; [by rewrite Nat.add_1_r|]. simpl.
    split; [econstructor; [done|constructor]|].
    split; [done|]. split; [done|]. split; [simpl; lia|]. done.
  - apply bool_decide_eq_false in Hgoal.
    destruct n as [|n].
    { destruct rest; [|done]. inversion Hwrest; subst. by destruct Hfirst. }
    destruct (IH n ltac:(lia) steps (S done) (set_pos e p)
                (Some {| _plan := rest; _plan_owner := agent_pos e |})
                (h ++ [assistant (react_message rest d); observation (msg_moved p)])%list
                (con ++ [print_executing "move_agent" d])%list)
      as (ds & ds' & st & Hrun & Hw & Hcell & Hw' & Hlen & Hnil & Hg & Hm & Hcon);
      try done.
    + simpl. intros Heq. destruct Hedge as [Hst _]. apply step_target_neq in Hst.
      rewrite <- Heq in Hst. by destruct (agent_pos e).
    + by exists rest.
    + intros ds Hds. simpl in Hds.
      specialize (Hmin (d :: ds) ltac:(econstructor; eauto)).
      simpl in Hmin. lia.
    + lia.
    + simpl in *. exists (d :: ds), ds', st.
      split; [rewrite Hrun; do 3 f_equal; simpl; lia|].
      split; [econstructor; eauto|].
      split; [done|]. split; [done|]. split; [simpl; lia|].
      split; [done|]. split; [done|]. split; [done|].
      rewrite Hcon. by rewrite <- !app_assoc.
Qed.

(** A run with budget for the whole plan, from a plan cache that is fresh
    or stands for another position: one
    direction is dispatched per decision request, each request planning
    anew from the position reached; the directions dispatched are the
    beginning of a shortest walk to the first Goal cell, the run is left
    through the goal-found exit on a Goal cell, and, when the grid has no
    other Goal cell, on the first Goal cell after exactly as many passes as
    the plan is long. *)
Lemma run_reaches_goal (g : list (list cell)) (start t : position)
    (mem : gmap string string) (cache : option plan_cache) (max_steps : Z)
    (path : list string) :
  wf_grid g → first_goal g t →
  plan_path g start = Ret (Path t path) → path ≠ [] →
  Z.of_nat (length path) ≤ max_steps →
  stale {| grid := g; agent_pos := start; map_memory := mem |} cache →
  ∃ ds ds' st,
    run_agent_loop max_steps {| grid := g; agent_pos := start; map_memory := mem |} cache
    = Ret (GoalFound, length ds, st)
    ∧ walk g start ds (agent_pos (env st))
    ∧ cell_at g (agent_pos (env st)) = Some Treasure
    ∧ walk g (agent_pos (env st)) ds' t
    ∧ (length ds + length ds')%nat = length path
    ∧ console st = ((print_executing "move_agent" <$> ds) ++ [print_goal])%list
    ∧ ((∀ p, cell_at g p = Some Treasure → p = t) →
       agent_pos (env st) = t ∧ length ds = length path).
Proof.
  intros Hwf Hfirst Hplan Hne Hmax Hstale.
  destruct (plan_path_goal g start t Hwf Hfirst)
    as [(path' & Hplan' & Hwalk & _ & Hmin)|[Hno _]]; [|congruence].
  rewrite Hplan in Hplan'. injection Hplan' as <-.
  destruct path as [|d rest]; [done|].
  destruct (for_steps_reaches t (length rest) (Z.to_nat max_steps) 0
              {| grid := g; agent_pos := start; map_memory := mem |} cache
              initial_history [] Hwf Hfirst Hstale)
    as (ds & ds' & st & Hrun & Hw & Hcell & Hw' & Hlen & _ & _ & _ & Hcon).
  - by exists (d :: rest).
  - exact Hmin.
  - simpl in Hmax. lia.
  - exists ds, ds', st. split; [exact Hrun|]. split; [done|]. split; [done|].
    split; [done|]. split; [done|]. split; [done|].
    intros Honly. pose proof (Honly _ Hcell) as Hp. split; [done|].
    simpl in Hw. rewrite Hp in Hw. specialize (Hmin ds Hw). simpl in *. lia.
Qed.

(** The program's own run, as [__main__] starts it. *)
Lemma init_run :
  ∃ st, run_agent_loop 25 init_env None = Ret (GoalFound, 6%nat, st)
        ∧ agent_pos (env st) = (2, 4)
        ∧ console st = ((print_executing "move_agent" <$> init_path) ++ [print_goal])%list.
Proof. eexists. split; [vm_compute; reflexivity|]. by split. Qed.

(** C6, as the specification has it, fails when another Goal cell lies
    on the way: the first Goal cell of the scan is two moves away, the
    budget is 1, and the one move dispatched steps on the nearer Goal cell,
    so the run is left through the goal-found exit. *)
Lemma nearer_goal_ends_in_success :
  let g := [[Treasure; Treasure; Open]] in
  let e := {| grid := g; agent_pos := (0, 2); map_memory := ∅ |} in
  wf_grid g
  ∧ first_goal g (0, 0)
  ∧ (∀ ds, walk g (0, 2) ds (0, 0) → (2 ≤ length ds)%nat)
  ∧ ∃ st, run_agent_loop 1 e None = Ret (GoalFound, 1%nat, st)
          ∧ agent_pos (env st) = (0, 1)
          ∧ console st = [print_executing "move_agent" "WEST"; print_goal].
Proof.
  intros g e.
  assert (Hwf : wf_grid g) by (split; [done|repeat constructor]).
  assert (Hfirst : first_goal g (0, 0)).
  { split; [reflexivity|]. intros [r c] Hp.
    pose proof (cell_at_bounds _ _ _ _ Hwf Hp) as [Hr Hc].
    unfold row_major_le. simpl. lia. }
  split; [done|]. split; [done|]. split.
  - intros ds Hds.
    destruct (plan_path_goal g (0, 2) (0, 0) Hwf Hfirst)
      as [(path & Hplan & _ & _ & Hmin)|[_ Hno]]; [|by destruct (Hno ds)].
    assert (Hp : plan_path g (0, 2) = Ret (Path (0, 0) ["WEST"; "WEST"]))
      by (vm_compute; reflexivity).
    rewrite Hp in Hplan. injection Hplan as <-. exact (Hmin ds Hds).
  - eexists. split; [vm_compute; reflexivity|]. by split.
Qed.

(** C6, amended. (1) Whatever the decision source, a run that returns has
    made at most [max_steps] passes, exactly [max_steps] when it is left
    through budget exhaustion, and its history holds one assistant entry per
    pass. (2) With the planner as decision source, on a well-formed grid
    with the agent on a free cell, the run always returns, within the
    budget. (3) With a budget of 1, a plan cache that is fresh or stands
    for another position, and every Goal cell at least two moves away (the
    first one reachable), the run is left
    through budget exhaustion after one pass; the history gained exactly the
    planner's message and the observation of the one move dispatched, a
    plain moved observation; one tool call was announced and the goal line
    was not printed. *)
Theorem step_budget :
  (∀ (DS : Type) (llm : list message → SimpleEnvironment → DS → result (string * DS))
     (max_steps : Z) (e : SimpleEnvironment) (s : DS) k n st,
     agent_loop llm max_steps e s = Ret (k, n, st) →
     (n ≤ Z.to_nat max_steps)%nat
     ∧ (k = BudgetExhausted → n = Z.to_nat max_steps)
     ∧ assistant_count (conversation_history st) = n)
  ∧ (∀ (max_steps : Z) (e : SimpleEnvironment) (cache : option plan_cache),
       wf_grid (grid e) → free (grid e) (agent_pos e) = true →
       ∃ k n st, run_agent_loop max_steps e cache = Ret (k, n, st)
                 ∧ (n ≤ Z.to_nat max_steps)%nat)
  ∧ (∀ (g : list (list cell)) (start t : position) (mem : gmap string string)
       (cache : option plan_cache),
       wf_grid g → first_goal g t → (∃ ds, walk g start ds t) →
       (∀ t' ds, cell_at g t' = Some Treasure → walk g start ds t' →
                 (2 ≤ length ds)%nat) →
       stale {| grid := g; agent_pos := start; map_memory := mem |} cache →
       ∃ d rest p,
         run_agent_loop 1 {| grid := g; agent_pos := start; map_memory := mem |} cache
         = Ret (BudgetExhausted, 1%nat,
                {| env := {| grid := g; agent_pos := p; map_memory := mem |};
                   source := Some {| _plan := rest; _plan_owner := start |};
                   conversation_history :=
                     (initial_history ++ [assistant (react_message rest d);
                                          observation (msg_moved p)])%list;
                   console := [print_executing "move_agent" d] |})).
Proof.
  split; [|split].
  - intros DS llm max_steps e s k n st Hrun. unfold agent_loop in Hrun.
    apply for_steps_bound in Hrun as (Hn & Hk & Hc). simpl in *.
    rewrite Hc. change (assistant_count initial_history) with 0%nat.
    split; [lia|]. split; [|lia]. intros ?. rewrite Hk; [lia|done].
  - intros max_steps e cache Hwf Hfree. unfold run_agent_loop, agent_loop.
    destruct (for_steps_total (Z.to_nat max_steps) 0
                {| env := e; source := cache; conversation_history := initial_history;
                   console := [] |} Hwf Hfree) as (k & n & st & Hrun).
    exists k, n, st. split; [done|].
    apply for_steps_bound in Hrun as (Hn & _). lia.
  - intros g start t mem cache Hwf Hfirst Hreach Hfar Hstale.
    assert (Hne : start ≠ t).
    { intros Heq. destruct Hfirst as [Ht _].
      specialize (Hfar t [] Ht). rewrite Heq in Hfar.
      specialize (Hfar (walk_nil _ _)). simpl in Hfar. lia. }
    destruct (planner_pass {| grid := g; agent_pos := start; map_memory := mem |}
                cache t initial_history [] Hwf Hfirst Hreach Hne Hstale)
      as (d & rest & p & Hedge & _ & _ & Hbody).
    assert (Hnot : cell_at g p ≠ Some Treasure).
    { intros Hp. specialize (Hfar p [d] Hp). simpl in Hfar.
      assert (1 < 1)%nat; [|lia]. apply Hfar.
      econstructor; [exact Hedge|constructor]. }
    cbv zeta in Hbody. simpl in Hbody.
    rewrite bool_decide_eq_false_2 in Hbody by done.
    exists d, rest, p. unfold run_agent_loop, agent_loop.
    change (Z.to_nat 1) with 1%nat. simpl for_steps.
    by rewrite Hbody.
Qed.

Lemma init_goals_far t' ds :
  cell_at init_grid t' = Some Treasure → walk init_grid (1, 1) ds t' →
  (2 ≤ length ds)%nat.
Proof.
  intros Ht Hwalk.
  destruct init_first_goal as [_ Hmin]. pose proof (Hmin t' Ht) as Hle.
  destruct t' as [r c].
  pose proof (cell_at_bounds _ _ _ _ wf_init_grid Ht) as [Hr Hc].
  change (Py.len init_grid) with 5 in Hr. change (width init_grid) with 5 in Hc.
  assert (Hrc : (r = 0 ∨ r = 1 ∨ r = 2 ∨ r = 3 ∨ r = 4)
              ∧ (c = 0 ∨ c = 1 ∨ c = 2 ∨ c = 3 ∨ c = 4)) by lia.
  assert ((r, c) = (2, 4)) as [= -> ->].
  { destruct Hrc as [[-> | [-> | [-> | [-> | ->]]]] [-> | [-> | [-> | [-> | ->]]]]];
      first [discriminate Ht | reflexivity]. }
  destruct (plan_shortest init_grid (1, 1) (2, 4) ∅ wf_init_grid init_first_goal
              (ex_intro _ init_path init_walk)) as (path & Hplan & _ & _ & Hmin' & _).
  rewrite init_plan_path in Hplan. injection Hplan as <-.
  specialize (Hmin' ds Hwalk). simpl in Hmin'. lia.
Qed.

Lemma step_budget_witness :
  ∃ d rest p,
    run_agent_loop 1 init_env None
    = Ret (BudgetExhausted, 1%nat,
           {| env := {| grid := init_grid; agent_pos := p; map_memory := ∅ |};
              source := Some {| _plan := rest; _plan_owner := (1, 1) |};
              conversation_history :=
                (initial_history ++ [assistant (react_message rest d);
                                     observation (msg_moved p)])%list;
              console := [print_executing "move_agent" d] |}).
Proof.
  exact (proj2 (proj2 step_budget) init_grid (1, 1) (2, 4) ∅ None wf_init_grid
           init_first_goal (ex_intro _ init_path init_walk) init_goals_far I).
Defined.

(** C1, as the specification has it, fails when a Goal cell other than
    the first of the row-major scan is the reachable one: a Goal cell is one
    move away, yet the planner aims at the walled-off first Goal cell and
    answers that there is no path. *)
Lemma reachable_goal_without_plan :
  let g := [[Treasure; Wall; Open; Treasure]] in
  let e := {| grid := g; agent_pos := (0, 2); map_memory := ∅ |} in
  wf_grid g
  ∧ cell_at g (0, 3) = Some Treasure
  ∧ (∃ obs e', replay ["EAST"] e = Ret (obs, e') ∧ agent_pos e' = (0, 3))
  ∧ plan_path g (0, 2) = Ret NoPath
  ∧ get_llm_response initial_history e None = Ret (msg_no_path, None).
Proof.
  intros g e. split; [split; [done|repeat constructor]|].
  split; [reflexivity|]. split; [by eexists _, _|].
  split; vm_compute; reflexivity.
Qed.

(** C1, amended. On a well-formed grid whose first Goal cell in row-major
    order can be reached from the start, the planner returns a direction
    list for that cell; replaying the list through [move_agent] from the
    start ends on that cell, which holds the Goal; no list of directions
    that ends there, legal or not, is shorter, so the length is the
    shortest-path distance; a decision request there, with a plan cache
    that is fresh or stands for another position, emits the first direction
    of the list and keeps the rest as the plan; and such a run
    with budget for the whole list dispatches one direction per request
    along a shortest walk to that cell, up to the first Goal cell it steps
    on: that cell itself, after as many passes as the list is long, when
    the grid has no other Goal cell. *)
Theorem planner_shortest_path (g : list (list cell)) (start t : position)
    (mem : gmap string string) :
  wf_grid g → first_goal g t → (∃ ds, walk g start ds t) →
  let e := {| grid := g; agent_pos := start; map_memory := mem |} in
  ∃ path,
    plan_path g start = Ret (Path t path)
    ∧ (∃ obs e', replay path e = Ret (obs, e') ∧ agent_pos e' = t
                 ∧ cell_at (grid e') (agent_pos e') = Some Treasure)
    ∧ (∀ ds obs e', replay ds e = Ret (obs, e') → agent_pos e' = t →
                    (length path ≤ length ds)%nat)
    ∧ (∀ ds, walk g start ds t → (length path ≤ length ds)%nat)
    ∧ (∀ h cache, stale e cache →
         get_llm_response h e cache
         = Ret (match path with
                | [] => msg_final_success
                | d :: rest => react_message rest d
                end, Some {| _plan := tail path; _plan_owner := start |}))
    ∧ (path ≠ [] → ∀ max_steps cache,
       Z.of_nat (length path) ≤ max_steps → stale e cache →
       ∃ ds ds' st,
         run_agent_loop max_steps e cache = Ret (GoalFound, length ds, st)
         ∧ walk g start ds (agent_pos (env st))
         ∧ cell_at g (agent_pos (env st)) = Some Treasure
         ∧ walk g (agent_pos (env st)) ds' t
         ∧ (length ds + length ds')%nat = length path
         ∧ console st = ((print_executing "move_agent" <$> ds) ++ [print_goal])%list
         ∧ ((∀ p, cell_at g p = Some Treasure → p = t) →
            agent_pos (env st) = t ∧ length ds = length path)).
Proof.
  intros Hwf Hfirst Hreach e.
  destruct (plan_shortest g start t mem Hwf Hfirst Hreach)
    as (path & Hplan & Hreplay & Hmin & Hmin' & Hresp).
  exists path. repeat (split; [done|]).
  intros Hne max_steps cache Hmax Hstale.
  exact (run_reaches_goal g start t mem cache max_steps path Hwf Hfirst Hplan Hne Hmax
           Hstale).
Qed.

Lemma planner_shortest_path_witness :
  ∃ path,
    plan_path init_grid (1, 1) = Ret (Path (2, 4) path)
    ∧ (∃ obs e', replay path init_env = Ret (obs, e') ∧ agent_pos e' = (2, 4)
                 ∧ cell_at (grid e') (agent_pos e') = Some Treasure)
    ∧ (∀ ds obs e', replay ds init_env = Ret (obs, e') → agent_pos e' = (2, 4) →
                    (length path ≤ length ds)%nat).
Proof.
  destruct (planner_shortest_path init_grid (1, 1) (2, 4) ∅ wf_init_grid
              init_first_goal (ex_intro _ init_path init_walk))
    as (path & Hplan & Hreplay & Hmin & _).
  exists path. split; [exact Hplan|]. split; [exact Hreplay|exact Hmin].
Defined.


(** * Further properties of the tools, the planner and the loop *)

(** ** The memory log over sequences of calls *)

Lemma after_memory e o k :
  map_memory (after e o) !! k =
    match o with
    | OpRecord p obs => if String.eqb p k then Some obs else map_memory e !! k
    | _ => map_memory e !! k
    end.
Proof.
  destruct (after_frame e o) as (_ & _ & Hm & _).
  destruct o as [d| | |p obs]; try (by rewrite Hm).
  unfold after. simpl. destruct (String.eqb_spec p k) as [->|Hne].
  - by rewrite lookup_insert_eq.
  - by rewrite lookup_insert_ne.
Qed.

(** X1. The memory log is last-write-wins over any sequence of calls:
    after the sequence, the entry for a key is the observation of the last
    [update_map] call with this key, and the entry from before the sequence
    when there was none. No call removes an entry. *)
Theorem memory_last_write (os : list operation) (e : SimpleEnvironment) (k : string) :
  map_memory (after_all os e) !! k =
    match last_record k os with
    | Some v => Some v
    | None => map_memory e !! k
    end
  ∧ (is_Some (map_memory e !! k) → is_Some (map_memory (after_all os e) !! k)).
Proof.
  assert (H : ∀ os e, map_memory (after_all os e) !! k =
                       match last_record k os with
                       | Some v => Some v
                       | None => map_memory e !! k
                       end).
  { clear. unfold after_all. induction os as [|o os IH]; intros e; simpl; [done|].
    rewrite IH. destruct (last_record k os); [done|].
    rewrite after_memory. destruct o as [d| | |p obs]; try done.
    by destruct (String.eqb p k). }
  split; [apply H|]. rewrite H. by destruct (last_record k os).
Qed.


(** ** Walks and sequences of calls *)

Lemma walk_app g u ds1 w ds2 v :
  walk g u ds1 w → walk g w ds2 v → walk g u (ds1 ++ ds2)%list v.
Proof.
  induction 1 as [u|u d w' ds w Hed Hw IH]; intros H2; simpl; [done|].
  econstructor; eauto.
Qed.

Lemma walk_free g u ds v : walk g u ds v → free g u = true → free g v = true.
Proof. induction 1 as [u|u d w ds v [_ Hf] Hw IH]; auto. Qed.

Lemma set_pos_same e : set_pos e (agent_pos e) = e.
Proof. by destruct e. Qed.

(** One call moves the agent along at most one legal move. *)
Lemma after_walk e o :
  wf_grid (grid e) →
  ∃ ds, walk (grid e) (agent_pos e) ds (agent_pos (after e o)) ∧ (length ds ≤ 1)%nat.
Proof.
  intros Hwf. destruct (after_frame e o) as (_ & Hp & _).
  destruct o as [d| | |p obs]; try (rewrite Hp by done; exists []; split; [constructor|simpl; lia]).
  unfold after. simpl.
  destruct (step_target (Py.upper d) (agent_pos e).1 (agent_pos e).2) as [v|] eqn:Hst.
  - rewrite (move_agent_step _ _ _ Hwf Hst).
    destruct (free (grid e) v) eqn:Hv.
    + exists [d]. split; [|simpl; lia]. econstructor; [by split|constructor].
    + exists []. split; [constructor|simpl; lia].
  - rewrite (move_agent_invalid _ _ Hst). exists []. split; [constructor|simpl; lia].
Qed.

Lemma after_all_walk os e :
  wf_grid (grid e) →
  ∃ ds, walk (grid e) (agent_pos e) ds (agent_pos (after_all os e))
        ∧ (length ds ≤ length os)%nat.
Proof.
  unfold after_all. revert e. induction os as [|o os IH]; intros e Hwf; simpl.
  - exists []. split; [constructor|done].
  - destruct (after_walk e o Hwf) as (ds1 & Hw1 & Hl1).
    destruct (after_frame e o) as (Hg & _).
    destruct (IH (after e o)) as (ds2 & Hw2 & Hl2); [by rewrite Hg|].
    rewrite Hg in Hw2. exists (ds1 ++ ds2)%list.
    split; [by eapply walk_app|]. rewrite length_app. lia.
Qed.

Lemma moves_walk e ds v :
  wf_grid (grid e) → walk (grid e) (agent_pos e) ds v →
  after_all (OpMove <$> ds) e = set_pos e v.
Proof.
  intros Hwf Hwalk. remember (grid e) as g eqn:Hg. remember (agent_pos e) as u eqn:Hu.
  revert e Hg Hu. induction Hwalk as [u|u d w ds v [Hst Hfree] Hw IH]; intros e -> ->.
  - simpl. by rewrite set_pos_same.
  - assert (Ha : after e (OpMove d) = set_pos e w).
    { unfold after. simpl. by rewrite (move_agent_step _ _ _ Hwf Hst), Hfree. }
    change (after_all (OpMove <$> ds) (after e (OpMove d)) = set_pos e v).
    rewrite Ha. by rewrite (IH (set_pos e w)).
Qed.

(** X2. On any non-empty rectangular grid, with the agent on a free
    cell: no sequence of calls raises, and the agent stays on a free cell;
    the positions that sequences of calls can reach are exactly those
    joined to the start by a sequence of legal moves, and a sequence of [n]
    calls reaches only positions at most [n] legal moves away. *)
Theorem reachable_positions (e : SimpleEnvironment) :
  wf_grid (grid e) → free (grid e) (agent_pos e) = true →
  (∀ os, (∃ obs, run_operations os e = Ret (obs, after_all os e))
         ∧ free (grid e) (agent_pos (after_all os e)) = true
         ∧ ∃ ds, walk (grid e) (agent_pos e) ds (agent_pos (after_all os e))
                 ∧ (length ds ≤ length os)%nat)
  ∧ (∀ v, (∃ os, agent_pos (after_all os e) = v)
          ↔ ∃ ds, walk (grid e) (agent_pos e) ds v).
Proof.
  intros Hwf Hfree. split.
  - intros os. destruct (operations_free os e Hwf Hfree) as (Hf & Hrun).
    destruct (after_all_frame os e) as (Hg & _). rewrite Hg in Hf.
    split; [done|]. split; [done|]. by apply after_all_walk.
  - intros v. split.
    + intros (os & <-). destruct (after_all_walk os e Hwf) as (ds & Hw & _). eauto.
    + intros (ds & Hw). exists (OpMove <$> ds). by rewrite (moves_walk e ds v).
Qed.

Lemma reachable_positions_witness :
  ∃ ds, walk init_grid (1, 1) ds
          (agent_pos (after_all [OpMove "south"; OpLookAround; OpMove "west"] init_env))
        ∧ (length ds ≤ 3)%nat.
Proof.
  destruct (reachable_positions init_env wf_init_grid eq_refl) as [H _].
  destruct (H [OpMove "south"; OpLookAround; OpMove "west"]) as (_ & _ & Hw).
  exact Hw.
Defined.

(** ** The way back *)

Lemma opposite_step d r c v :
  step_target (Py.upper d) r c = Some v →
  step_target (Py.upper (opposite d)) v.1 v.2 = Some (r, c).
Proof.
  unfold opposite.
  destruct (step_target_cases (Py.upper d) r c)
    as [[-> ->]|[[-> ->]|[[-> ->]|[[-> ->]|[_ ->]]]]]; intros [= <-]; simpl;
    unfold step_target; simpl; f_equal; f_equal; lia.
Qed.

Lemma edge_back g u d v : edge g u d v → free g u = true → edge g v (opposite d) u.
Proof.
  intros [Hst _] Hu. split; [|done].
  apply opposite_step in Hst. by destruct u.
Qed.

Lemma walk_back g u ds v :
  walk g u ds v → free g u = true → walk g v (retrace ds) u.
Proof.
  induction 1 as [u|u d w ds v Hed Hw IH]; intros Hu; [constructor|].
  unfold retrace. simpl. fold (retrace ds).
  eapply walk_snoc; [|by apply edge_back].
  apply IH. by destruct Hed.
Qed.

Lemma replay_app ds1 ds2 e :
  replay (ds1 ++ ds2)%list e =
    '(o1, e1) ← replay ds1 e; '(o2, e2) ← replay ds2 e1; Ret ((o1 ++ o2)%list, e2).
Proof.
  revert e. induction ds1 as [|d ds1 IH]; intros e; simpl.
  - destruct (replay ds2 e) as [[o2 e2]| |]; done.
  - destruct (move_agent d e) as [[o e1]| |]; [|done..]. rewrite !bind_Ret.
    rewrite IH. destruct (replay ds1 e1) as [[o1 e1']| |]; [|done..].
    rewrite !bind_Ret. destruct (replay ds2 e1') as [[o2 e2]| |]; done.
Qed.

(** The observations of a replayed walk are those of moves that succeed. *)
Lemma replay_walk_kinds e ds v :
  wf_grid (grid e) → walk (grid e) (agent_pos e) ds v →
  ∃ obs, replay ds e = Ret (obs, set_pos e v)
         ∧ Forall (λ o, kind_of o = Some KMoved ∨ kind_of o = Some KSuccess) obs
         ∧ length obs = length ds.
Proof.
  intros Hwf Hwalk. remember (grid e) as g eqn:Hg. remember (agent_pos e) as u eqn:Hu.
  revert e Hg Hu. induction Hwalk as [u|u d w ds v [Hst Hfree] Hw IH]; intros e -> ->.
  - exists []. simpl. by rewrite set_pos_same.
  - simpl. rewrite (move_agent_step _ _ _ Hwf Hst), Hfree, bind_Ret.
    destruct (IH (set_pos e w) eq_refl eq_refl) as (obs & -> & Hk & Hlen).
    rewrite bind_Ret. eexists. split; [done|]. split; [|simpl; lia].
    constructor; [|done]. destruct (decide _); [by right|by left].
Qed.

(** X3. Every successful way can be walked back: on a non-empty
    rectangular grid, from a free cell, replaying a sequence of legal moves
    and then the opposite directions in reverse order brings the
    environment back to what it was, and every move of the round trip
    succeeds (none is blocked or invalid). *)
Theorem retrace_returns (e : SimpleEnvironment) (ds : list string) (v : position) :
  wf_grid (grid e) → free (grid e) (agent_pos e) = true →
  walk (grid e) (agent_pos e) ds v →
  ∃ obs, replay (ds ++ retrace ds)%list e = Ret (obs, e)
         ∧ Forall (λ o, kind_of o = Some KMoved ∨ kind_of o = Some KSuccess) obs
         ∧ length obs = (2 * length ds)%nat.
Proof.
  intros Hwf Hfree Hwalk.
  destruct (replay_walk_kinds e ds v Hwf Hwalk) as (o1 & Hr1 & Hk1 & Hl1).
  pose proof (walk_back _ _ _ _ Hwalk Hfree) as Hback.
  destruct (replay_walk_kinds (set_pos e v) (retrace ds) (agent_pos e) Hwf Hback)
    as (o2 & Hr2 & Hk2 & Hl2).
  exists (o1 ++ o2)%list. rewrite replay_app, Hr1, bind_Ret, Hr2, bind_Ret.
  split; [by destruct e|]. split; [by apply Forall_app|].
  rewrite length_app, Hl1, Hl2. unfold retrace.
  rewrite length_rev, length_fmap. lia.
Qed.

Lemma retrace_returns_witness :
  ∃ obs, replay (init_path ++ retrace init_path)%list init_env = Ret (obs, init_env)
         ∧ Forall (λ o, kind_of o = Some KMoved ∨ kind_of o = Some KSuccess) obs
         ∧ length obs = 12%nat.
Proof.
  exact (retrace_returns init_env init_path (2, 4) wf_init_grid eq_refl init_walk).
Defined.


(** ** Text of positions *)

Local Open Scope string_scope.

Lemma split_comma1_app k v :
  all_chars (λ c, negb (Ascii.eqb c ",")) k = true →
  Py.split_comma1 (k ++ String "," v) = (k, Some v).
Proof.
  induction k as [|c k IH]; [done|].
  intros [Hc Hk]%andb_prop. apply negb_true_iff in Hc.
  rewrite str_app_cons. simpl. rewrite Hc, (IH Hk). done.
Qed.

Lemma split_comma1_none s :
  all_chars (λ c, negb (Ascii.eqb c ",")) s = true →
  Py.split_comma1 s = (s, None).
Proof.
  induction s as [|c s IH]; [done|].
  intros [Hc Hs]%andb_prop. apply negb_true_iff in Hc.
  simpl. rewrite Hc, (IH Hs). done.
Qed.

(** [split(',', 1)] cuts at the first comma and nowhere else. *)
Lemma split_comma1_spec s :
  match Py.split_comma1 s with
  | (a, Some b) => s = a ++ String "," b
                   ∧ all_chars (λ c, negb (Ascii.eqb c ",")) a = true
  | (a, None) => s = a ∧ all_chars (λ c, negb (Ascii.eqb c ",")) s = true
  end.
Proof.
  induction s as [|c s IH]; [done|]. simpl.
  destruct (Ascii.eqb_spec c ",") as [->|Hne]; [done|].
  apply Ascii.eqb_neq in Hne.
  destruct (Py.split_comma1 s) as [a [b|]]; destruct IH as [-> Ha]; simpl;
    rewrite ?Hne, ?Ha; done.
Qed.

Lemma str_int_no_comma z :
  all_chars (λ c, negb (Ascii.eqb c ",")) (Py.str_int z) = true.
Proof.
  eapply all_chars_impl; [|apply str_int_chars].
  intros c. destruct c as [[] [] [] [] [] [] [] []]; done.
Qed.

Lemma str_int_no_space z :
  all_chars (λ c, negb (Py.isspace c)) (Py.str_int z) = true.
Proof.
  eapply all_chars_impl; [|apply str_int_chars].
  intros c. destruct c as [[] [] [] [] [] [] [] []]; done.
Qed.

Lemma str_int_inj a b : Py.str_int a = Py.str_int b → a = b.
Proof.
  unfold Py.str_int. intros H.
  apply (f_equal NilEmpty.int_of_string) in H. rewrite !NilEmpty.isi in H.
  injection H as H. apply (f_equal Z.of_int) in H. by rewrite !DecimalZ.of_to in H.
Qed.

Lemma str_length_app (a b : string) :
  String.length (a ++ b) = (String.length a + String.length b)%nat.
Proof. induction a; [done|]. rewrite str_app_cons. simpl. by rewrite IHa. Qed.

Lemma str_app_inv_tail (a b s : string) : a ++ s = b ++ s → a = b.
Proof.
  revert b. induction a as [|c a IH]; intros [|c' b] H.
  - done.
  - apply (f_equal String.length) in H. rewrite !str_length_app in H. simpl in H. lia.
  - apply (f_equal String.length) in H. rewrite !str_length_app in H. simpl in H. lia.
  - rewrite !str_app_cons in H. injection H as -> H. by rewrite (IH _ H).
Qed.

Lemma str_pos_shape p :
  Py.str_pos p = String "(" (Py.str_int p.1 ++ String "," (String " " (Py.str_int p.2 ++ ")"))).
Proof. reflexivity. Qed.

Lemma str_pos_inj p q : Py.str_pos p = Py.str_pos q → p = q.
Proof.
  rewrite !str_pos_shape. intros [= H].
  apply (f_equal Py.split_comma1) in H.
  rewrite !split_comma1_app in H by apply str_int_no_comma.
  injection H as H1 H2. apply str_app_inv_tail in H2.
  apply str_int_inj in H1, H2. destruct p, q; simpl in *; congruence.
Qed.

Lemma str_app_inv_head (s a b : string) : s ++ a = s ++ b → a = b.
Proof. induction s; [done|]. rewrite !str_app_cons. intros [= H]. auto. Qed.

(** X4. The text of a position determines the position: [get_pos]
    answers with the same text in two environments exactly when the agent
    stands at the same position in both, and two moved observations are the
    same text exactly when they report the same position. *)
Theorem position_text_injective (e1 e2 : SimpleEnvironment) :
  (∀ s1 s2 e1' e2', get_pos e1 = Ret (s1, e1') → get_pos e2 = Ret (s2, e2') →
     (s1 = s2 ↔ agent_pos e1 = agent_pos e2))
  ∧ (msg_moved (agent_pos e1) = msg_moved (agent_pos e2)
     ↔ agent_pos e1 = agent_pos e2).
Proof.
  split.
  - intros s1 s2 e1' e2' [= <- _] [= <- _]. split; [apply str_pos_inj|by intros <-].
  - split; [|by intros <-].
    unfold msg_moved. intros H. apply str_app_inv_head, str_app_inv_tail in H.
    by apply str_pos_inj.
Qed.


(** ** The dispatch of [update_map] *)

Local Open Scope Z_scope.

Lemma lstrip_head c s : Py.isspace c = false → Py.lstrip (String c s) = String c s.
Proof. intros H. simpl. by rewrite H. Qed.

Lemma rstrip_nospace s :
  all_chars (λ c, negb (Py.isspace c)) s = true → Py.rstrip s = s.
Proof.
  induction s as [|c s IH]; [done|].
  intros [Hc Hs]%andb_prop. apply negb_true_iff in Hc.
  simpl. rewrite (IH Hs). destruct s; [by rewrite Hc|done].
Qed.

Lemma strip_nospace s :
  all_chars (λ c, negb (Py.isspace c)) s = true → Py.strip s = s.
Proof.
  intros H. unfold Py.strip.
  assert (Hl : Py.lstrip s = s).
  { destruct s as [|c s]; [done|]. apply lstrip_head.
    simpl in H. apply andb_prop in H as [Hc _]. by apply negb_true_iff in Hc. }
  rewrite Hl. by apply rstrip_nospace.
Qed.

Lemma lstrip_all_chars p s : all_chars p s = true → all_chars p (Py.lstrip s) = true.
Proof.
  induction s as [|c s IH]; [done|]. intros H. simpl.
  destruct (Py.isspace c); [|done]. simpl in H. apply andb_prop in H as [_ H]. auto.
Qed.

Lemma rstrip_all_chars p s : all_chars p s = true → all_chars p (Py.rstrip s) = true.
Proof.
  induction s as [|c s IH]; [done|]. intros [Hc Hs]%andb_prop. simpl.
  specialize (IH Hs). destruct (Py.rstrip s).
  - destruct (Py.isspace c); [done|]. simpl. by rewrite Hc.
  - change (p c && all_chars p (String a s0) = true). by rewrite Hc.
Qed.

Lemma strip_all_chars p s : all_chars p s = true → all_chars p (Py.strip s) = true.
Proof. intros H. by apply rstrip_all_chars, lstrip_all_chars. Qed.

Lemma execute_update_map i e :
  execute_action "update_map" i e =
    update_map (Py.strip (Py.split_comma1 i).1)
      (match (Py.split_comma1 i).2 with
       | Some v => Py.strip v
       | None => "Unknown"
       end) e.
Proof. reflexivity. Qed.

(** X5. The dispatch decodes the one input string of [update_map] by
    cutting it at its first comma: the text before it, stripped, is the
    key, and the text after it, stripped, is the observation, commas
    included; an input without a comma is the key of the observation
    [Unknown]. The call never fails, and the entry can be read back under
    the key. *)
Theorem update_map_decode (i : string) (e : SimpleEnvironment) :
  (∀ k v, all_chars (λ c, negb (Ascii.eqb c ",")) k = true →
     i = k ++ "," ++ v →
     execute_action "update_map" i e = update_map (Py.strip k) (Py.strip v) e)
  ∧ (all_chars (λ c, negb (Ascii.eqb c ",")) i = true →
     execute_action "update_map" i e = update_map (Py.strip i) "Unknown" e)
  ∧ ∃ k v e',
      execute_action "update_map" i e
      = Ret ("OBSERVATION: Map memory updated for location " ++ k ++ ".", e')
      ∧ all_chars (λ c, negb (Ascii.eqb c ",")) k = true
      ∧ map_memory e' !! k = Some v
      ∧ (∀ k', k' ≠ k → map_memory e' !! k' = map_memory e !! k')
      ∧ grid e' = grid e ∧ agent_pos e' = agent_pos e.
Proof.
  rewrite execute_update_map. split; [|split].
  - intros k v Hk ->. change ("," ++ v) with (String "," v).
    by rewrite (split_comma1_app k v Hk).
  - intros Hi. by rewrite (split_comma1_none i Hi).
  - eexists _, _, _. split; [reflexivity|]. simpl.
    split; [|split; [by rewrite lookup_insert_eq|split; [|done]]].
    + apply strip_all_chars. pose proof (split_comma1_spec i) as H.
      destruct (Py.split_comma1 i) as [a [b|]]; simpl; [tauto|].
      by destruct H as [<- H].
    + intros k' Hne. by rewrite lookup_insert_ne.
Qed.


Lemma record_input_shape p obs :
  record_input p obs =
  String "(" (Py.str_int p.1) ++ String "," (" " ++ Py.str_int p.2 ++ "), " ++ obs).
Proof.
  unfold record_input, Py.str_pos. rewrite !str_app_assoc. reflexivity.
Qed.

Lemma record_key_no_comma z :
  all_chars (λ c, negb (Ascii.eqb c ",")) (String "(" (Py.str_int z)) = true.
Proof. simpl. apply str_int_no_comma. Qed.

Lemma record_key_strip z : Py.strip (String "(" (Py.str_int z)) = String "(" (Py.str_int z).
Proof. apply strip_nospace. simpl. apply str_int_no_space. Qed.

(** X6. The encoding the comment at the dispatch gives for [update_map]
    is cut inside the position text, at the comma between row and column:
    the key written is the opening bracket and the row, the column is the
    beginning of the observation, and the entry under the position text is
    left as it was. Two positions of the same row are logged under the same
    key, so the second entry replaces the first. *)
Theorem record_input_key (p q : position) (obs obs' : string) (e : SimpleEnvironment) :
  let key := "(" ++ Py.str_int p.1 in
  execute_action "update_map" (record_input p obs) e
  = update_map key (Py.strip (" " ++ Py.str_int p.2 ++ "), " ++ obs)) e
  ∧ key ≠ Py.str_pos p
  ∧ ∀ msg e', execute_action "update_map" (record_input p obs) e = Ret (msg, e') →
      map_memory e' !! Py.str_pos p = map_memory e !! Py.str_pos p
      ∧ (q.1 = p.1 → ∀ msg' e'',
           execute_action "update_map" (record_input q obs') e' = Ret (msg', e'') →
           map_memory e''
           = <[key := Py.strip (" " ++ Py.str_int q.2 ++ "), " ++ obs')]> (map_memory e)).
Proof.
  intros key.
  assert (Hex : ∀ p obs e, execute_action "update_map" (record_input p obs) e
                = update_map ("(" ++ Py.str_int p.1)
                    (Py.strip (" " ++ Py.str_int p.2 ++ "), " ++ obs)) e).
  { clear. intros p obs e. rewrite execute_update_map, record_input_shape.
    rewrite split_comma1_app by apply record_key_no_comma. simpl.
    by rewrite record_key_strip. }
  assert (Hkey : key ≠ Py.str_pos p).
  { intros H. apply (f_equal (all_chars (λ c, negb (Ascii.eqb c ",")))) in H.
    unfold key in H. change ("(" ++ Py.str_int p.1) with (String "(" (Py.str_int p.1)) in H.
    rewrite record_key_no_comma, str_pos_shape in H. simpl in H.
    rewrite all_chars_app in H. simpl in H. by rewrite andb_false_r in H. }
  split; [apply Hex|]. split; [done|].
  intros msg e'. rewrite Hex. intros [= _ <-]. simpl. split.
  - by rewrite lookup_insert_ne.
  - intros Hq msg' e''. rewrite Hex, Hq. intros [= _ <-]. simpl.
    by rewrite insert_insert_eq.
Qed.


(** ** The loop over any decision source *)

Lemma passes_shape_pass msg obs h :
  passes_shape (assistant msg :: observation obs :: h) = passes_shape h.
Proof. simpl. by destruct obs. Qed.

Lemma last_two {A} (x y : A) l :
  last (x :: y :: l) = match last l with Some z => Some z | None => Some y end.
Proof.
  destruct l as [|z l]; [done|]. change (last (z :: l) = match last (z :: l) with
    | Some z => Some z | None => Some y end).
  by destruct (last (z :: l)) eqn:H; [|apply last_None in H].
Qed.

Section LoopShape.

Context {DS : Type}.
Variable llm : list message → SimpleEnvironment → DS → result (string * DS).

(** The four ways through the body of the loop. *)
Lemma loop_body_cases st brk st' :
  loop_body llm st = Ret (brk, st') →
  ∃ msg, llm (conversation_history st) (env st) (source st) = Ret (msg, source st')
    ∧ ((brk = Some FinalAnswer ∧ Py.startswith msg "Final Answer:" = true
        ∧ env st' = env st
        ∧ conversation_history st' = (conversation_history st ++ [assistant msg])%list
        ∧ console st' = (console st ++ [print_terminated])%list)
     ∨ (brk = Some ProtocolFailure ∧ Py.startswith msg "Final Answer:" = false
        ∧ (search_action msg = None ∨ search_action_input msg = None)
        ∧ env st' = env st
        ∧ conversation_history st' = (conversation_history st ++ [assistant msg])%list
        ∧ console st' = (console st ++ [print_format_error])%list)
     ∨ (∃ a i obs,
          Py.startswith msg "Final Answer:" = false
          ∧ search_action msg = Some a ∧ search_action_input msg = Some i
          ∧ execute_action (Py.strip a) (Py.strip i) (env st) = Ret (obs, env st')
          ∧ conversation_history st'
            = (conversation_history st ++ [assistant msg; observation obs])%list
          ∧ brk = (if Py.contains "SUCCESS" obs then Some GoalFound else None)
          ∧ console st'
            = (console st ++ print_executing (Py.strip a) (Py.strip i)
                 :: (if Py.contains "SUCCESS" obs then [print_goal] else []))%list)).
Proof.
  intros Hbody.
  destruct (llm (conversation_history st) (env st) (source st)) as [[msg src']| |] eqn:Hllm;
    [|by unfold loop_body in Hbody; rewrite Hllm in Hbody..].
  exists msg.
  destruct (Py.startswith msg "Final Answer:") eqn:Hfin.
  { rewrite (loop_body_final llm st msg src' Hllm Hfin) in Hbody.
    injection Hbody as <- <-. split; [done|]. left. done. }
  destruct (search_action msg) as [a|] eqn:Ha; cycle 1.
  { rewrite (loop_body_malformed llm st msg src' Hllm Hfin (or_introl Ha)) in Hbody.
    injection Hbody as <- <-. split; [done|]. right; left. auto 10. }
  destruct (search_action_input msg) as [i|] eqn:Hi; cycle 1.
  { rewrite (loop_body_malformed llm st msg src' Hllm Hfin (or_intror Hi)) in Hbody.
    injection Hbody as <- <-. split; [done|]. right; left. auto 10. }
  destruct (execute_action (Py.strip a) (Py.strip i) (env st)) as [[obs e']| |] eqn:Hex;
    [|by unfold loop_body in Hbody; rewrite Hllm, bind_Ret, Hfin, Ha, Hi, Hex in Hbody..].
  rewrite (loop_body_action llm st msg src' a i obs e' Hllm Hfin Ha Hi Hex) in Hbody.
  injection Hbody as <- <-. split; [done|]. right; right.
  exists a, i, obs. auto 10.
Qed.

Lemma for_steps_shape steps done st k n st' :
  for_steps llm steps done st = Ret (k, n, st') →
  ∃ appended calls,
    conversation_history st' = (conversation_history st ++ appended)%list
    ∧ passes_shape appended = true
    ∧ ((if before_dispatch k then 1 else 0) + length appended = 2 * (n - done))%nat
    ∧ (done ≤ n)%nat
    ∧ console st' = (console st ++ calls ++ exit_line k)%list
    ∧ ((if before_dispatch k then 1 else 0) + length calls = n - done)%nat
    ∧ grid (env st') = grid (env st)
    ∧ match k with
      | FinalAnswer =>
          ∃ msg, last appended = Some (assistant msg)
                 ∧ Py.startswith msg "Final Answer:" = true
      | ProtocolFailure =>
          ∃ msg, last appended = Some (assistant msg)
                 ∧ Py.startswith msg "Final Answer:" = false
                 ∧ (search_action msg = None ∨ search_action_input msg = None)
      | GoalFound =>
          ∃ obs, last appended = Some (observation obs)
                 ∧ Py.contains "SUCCESS" obs = true
      | BudgetExhausted =>
          n = (done + steps)%nat
          ∧ (appended = [] ∨
             ∃ obs, last appended = Some (observation obs)
                    ∧ Py.contains "SUCCESS" obs = false)
      end.
Proof.
  revert done st. induction steps as [|steps IH]; intros done st; simpl.
  - intros [= <- <- <-]. exists [], []. rewrite !app_nil_r.
    repeat split; auto; simpl; lia.
  - destruct (loop_body llm st) as [[brk st1]| |] eqn:Hbody; [|done..].
    rewrite bind_Ret.
    destruct (loop_body_cases _ _ _ Hbody) as (msg & _ & Hcase).
    destruct Hcase as [(-> & Hfin & He & Hh & Hc)|[(-> & Hfin & Hno & He & Hh & Hc)
                      |(a & i & obs & Hfin & Ha & Hi & Hex & Hh & -> & Hc)]].
    + intros [= <- <- <-]. exists [assistant msg], [].
      rewrite He. repeat split; auto; simpl; try lia. eauto.
    + intros [= <- <- <-]. exists [assistant msg], [].
      rewrite He. repeat split; auto; simpl; try lia. eauto.
    + apply execute_action_frame in Hex as Hg. destruct Hg as [Hg _].
      destruct (Py.contains "SUCCESS" obs) eqn:Hs.
      * intros [= <- <- <-].
        exists [assistant msg; observation obs], [print_executing (Py.strip a) (Py.strip i)].
        rewrite passes_shape_pass.
        repeat split; auto; simpl; try lia. eauto.
      * intros Hrest.
        destruct (IH _ _ Hrest) as (app & calls & Hh' & Hshape & Hlen & Hn & Hc' & Hcl & Hg' & Hk).
        exists (assistant msg :: observation obs :: app),
               (print_executing (Py.strip a) (Py.strip i) :: calls).
        rewrite passes_shape_pass.
        split; [by rewrite Hh', Hh, <- app_assoc|]. split; [done|].
        split; [simpl; destruct (before_dispatch k); lia|]. split; [lia|].
        split; [by rewrite Hc', Hc, <- app_assoc|].
        split; [simpl; destruct (before_dispatch k); simpl in *; lia|].
        split; [congruence|].
        destruct k.
        -- destruct Hk as (m & Hl & ?). exists m. by rewrite last_two, Hl.
        -- destruct Hk as (m & Hl & ?). exists m. by rewrite last_two, Hl.
        -- destruct Hk as (o & Hl & ?). exists o. by rewrite last_two, Hl.
        -- destruct Hk as (-> & Hk). split; [lia|]. right.
           destruct Hk as [-> | (o & Hl & ?)]; [by exists obs|].
           exists o. by rewrite last_two, Hl.
Qed.

End LoopShape.

(** X7. What a returned run leaves behind, whatever the decision
    source: the history is the initial two entries followed by one
    assistant entry and one observation entry per pass, the last pass
    lacking its observation exactly when the run was left before the
    dispatch; the console holds one line per tool call and then the line of
    the exit; the grid is as it was. By exit: after the final-answer exit
    the last entry is a message that starts with the final marker; after the
    protocol-failure exit it is a message without the marker in which the
    action or its input was not found; after the goal-found exit it is an
    observation that contains the success token; after budget exhaustion
    every pass of the budget was made and the last observation, if any,
    does not contain the token. *)
Theorem run_postcondition {DS : Type}
    (llm : list message → SimpleEnvironment → DS → result (string * DS))
    (max_steps : Z) (e : SimpleEnvironment) (s : DS)
    (k : exit_kind) (n : nat) (st : loop_state DS) :
  agent_loop llm max_steps e s = Ret (k, n, st) →
  ∃ appended calls,
    conversation_history st = (initial_history ++ appended)%list
    ∧ passes_shape appended = true
    ∧ ((if before_dispatch k then 1 else 0) + length appended = 2 * n)%nat
    ∧ console st = (calls ++ exit_line k)%list
    ∧ ((if before_dispatch k then 1 else 0) + length calls = n)%nat
    ∧ grid (env st) = grid e
    ∧ match k with
      | FinalAnswer =>
          ∃ msg, last appended = Some (assistant msg)
                 ∧ Py.startswith msg "Final Answer:" = true
      | ProtocolFailure =>
          ∃ msg, last appended = Some (assistant msg)
                 ∧ Py.startswith msg "Final Answer:" = false
                 ∧ (search_action msg = None ∨ search_action_input msg = None)
      | GoalFound =>
          ∃ obs, last appended = Some (observation obs)
                 ∧ Py.contains "SUCCESS" obs = true
      | BudgetExhausted =>
          n = Z.to_nat max_steps
          ∧ (appended = [] ∨
             ∃ obs, last appended = Some (observation obs)
                    ∧ Py.contains "SUCCESS" obs = false)
      end.
Proof.
  unfold agent_loop. intros Hrun.
  destruct (for_steps_shape llm _ _ _ _ _ _ Hrun)
    as (app & calls & Hh & Hshape & Hlen & _ & Hc & Hcl & Hg & Hk).
  exists app, calls. simpl in *.
  split; [done|]. split; [done|]. split; [lia|]. split; [done|].
  split; [lia|]. split; [done|]. destruct k; try done.
Qed.

Lemma run_postcondition_witness :
  ∃ k n st,
    run_agent_loop 25 init_env None = Ret (k, n, st)
    ∧ ∃ appended calls,
        conversation_history st = (initial_history ++ appended)%list
        ∧ passes_shape appended = true
        ∧ ((if before_dispatch k then 1 else 0) + length appended = 2 * n)%nat
        ∧ console st = (calls ++ exit_line k)%list
        ∧ ((if before_dispatch k then 1 else 0) + length calls = n)%nat
        ∧ grid (env st) = grid init_env
        ∧ k = GoalFound.
Proof.
  eexists _, _, _. split; [vm_compute; reflexivity|].
  destruct (run_postcondition get_llm_response 25 init_env None GoalFound _ _
              ltac:(vm_compute; reflexivity))
    as (app & calls & H1 & H2 & H3 & H4 & H5 & H6 & _).
  exists app, calls. repeat (split; [assumption|]). reflexivity.
Defined.


(** ** Failures of tools and of the decision source *)

Lemma getitem_fails {A} (l : list A) i :
  (∃ x, Py.getitem l i = Ret x) ∨ Py.getitem l i = Raise IndexError.
Proof.
  unfold Py.getitem. destruct (_ && _); [|by right].
  destruct (l !! _); [left; eauto|by right].
Qed.

Lemma passable_fails g nr nc :
  (∃ b, passable g nr nc = Ret b) ∨ passable g nr nc = Raise IndexError.
Proof.
  unfold passable. destruct (_ && _); [|left; eauto].
  destruct (getitem_fails g 0) as [[row0 ->]| ->]; [|by right]. rewrite bind_Ret.
  destruct (_ && _); [|left; eauto].
  destruct (getitem_fails g nr) as [[row ->]| ->]; [|by right]. rewrite bind_Ret.
  destruct (getitem_fails row nc) as [[x ->]| ->]; [|by right]. left. eauto.
Qed.

(** The only failure of [move_agent] is an index out of range. *)
Lemma move_agent_fails d e :
  (∃ r, move_agent d e = Ret r) ∨ move_agent d e = Raise IndexError.
Proof.
  unfold move_agent. destruct (agent_pos e) as [r c].
  destruct (step_target (Py.upper d) r c) as [[nr nc]|]; [|left; eauto].
  destruct (passable_fails (grid e) nr nc) as [[ok ->]| ->]; [|by right].
  rewrite bind_Ret. destruct ok; [|left; eauto]. simpl.
  destruct (getitem_fails (grid e) nr) as [[row ->]| ->]; [|by right]. rewrite bind_Ret.
  destruct (getitem_fails row nc) as [[x ->]| ->]; [|by right]. rewrite bind_Ret.
  destruct (decide (x = Treasure)); left; eauto.
Qed.

Lemma move_agent_wf_returns d e : wf_grid (grid e) → ∃ r, move_agent d e = Ret r.
Proof.
  intros Hwf.
  destruct (step_target (Py.upper d) (agent_pos e).1 (agent_pos e).2) as [v|] eqn:Hst.
  - rewrite (move_agent_step _ _ _ Hwf Hst). destruct (free (grid e) v); eauto.
  - rewrite (move_agent_invalid _ _ Hst). eauto.
Qed.

Lemma execute_action_returns a i e : ∃ obs e', execute_action a i e = Ret (obs, e').
Proof.
  unfold execute_action.
  destruct (AVAILABLE_TOOLS !! a) as [t|]; [|by eauto].
  destruct (String.eqb a "update_map"); [by eauto|].
  destruct t; simpl; try by eauto.
  destruct (move_agent_fails i e) as [[[obs e'] ->]| ->]; eauto.
Qed.

Section LoopFailures.

Context {DS : Type}.
Variable llm : list message → SimpleEnvironment → DS → result (string * DS).

Lemma loop_body_fails st :
  (∃ r, loop_body llm st = Ret r)
  ∨ (loop_body llm st = OutOfFuel
     ∧ llm (conversation_history st) (env st) (source st) = OutOfFuel)
  ∨ (∃ exn, loop_body llm st = Raise exn
            ∧ llm (conversation_history st) (env st) (source st) = Raise exn).
Proof.
  unfold loop_body.
  destruct (llm (conversation_history st) (env st) (source st)) as [[msg src']|exn|];
    [|right; right; eauto|right; left; done].
  left. rewrite bind_Ret.
  destruct (Py.startswith msg "Final Answer:"); [by eauto|].
  destruct (search_action msg) as [a|]; [|by eauto].
  destruct (search_action_input msg) as [i|]; [|by eauto].
  destruct (execute_action_returns (Py.strip a) (Py.strip i) (env st)) as (obs & e' & ->).
  rewrite bind_Ret. destruct (Py.contains "SUCCESS" obs); eauto.
Qed.

Lemma for_steps_fails steps done st :
  (∃ r, for_steps llm steps done st = Ret r)
  ∨ (∃ h e' s', grid e' = grid (env st)
       ∧ ((for_steps llm steps done st = OutOfFuel ∧ llm h e' s' = OutOfFuel)
          ∨ ∃ exn, for_steps llm steps done st = Raise exn ∧ llm h e' s' = Raise exn)).
Proof.
  revert done st. induction steps as [|steps IH]; intros done st; simpl; [by eauto|].
  destruct (loop_body_fails st) as [[[brk st1] Hbody]|[[Hbody Hllm]|(exn & Hbody & Hllm)]].
  - rewrite Hbody, bind_Ret. destruct brk as [k|]; [by eauto|].
    destruct (loop_body_cases llm _ _ _ Hbody) as (msg & _ & Hcase).
    assert (Hg : grid (env st1) = grid (env st)).
    { destruct Hcase as [(_ & _ & -> & _)|[(_ & _ & _ & -> & _)
                        |(a & i & obs & _ & _ & _ & Hex & _)]]; [done..|].
      by apply execute_action_frame in Hex as [? _]. }
    destruct (IH (S done) st1) as [?|(h & e' & s' & Hge & H)]; [by left|].
    right. exists h, e', s'. split; [congruence|done].
  - right. exists (conversation_history st), (env st), (source st).
    rewrite Hbody. split; [done|]. by left.
  - right. exists (conversation_history st), (env st), (source st).
    rewrite Hbody. split; [done|]. right. by exists exn.
Qed.

End LoopFailures.

(** X8. No failure of a tool leaves the loop. The dispatch returns an
    observation for every action, input and environment; [move_agent]
    fails only on a grid that is not rectangular, with an index out of
    range, and the dispatch then reports a tool error and leaves the
    environment as it was. A run therefore fails only when the decision
    source does, with that failure: it returns whenever the decision source
    always answers. *)
Theorem run_fails_only_in_source {DS : Type}
    (llm : list message → SimpleEnvironment → DS → result (string * DS))
    (max_steps : Z) (e : SimpleEnvironment) (s : DS) :
  (∀ a i e0, ∃ obs e1, execute_action a i e0 = Ret (obs, e1))
  ∧ (∀ d e0 exn, move_agent d e0 = Raise exn →
       exn = IndexError ∧ ¬ wf_grid (grid e0)
       ∧ execute_action "move_agent" d e0
         = Ret ("TOOL ERROR: Failed to execute tool 'move_agent'. Error: list index out of range",
                e0))
  ∧ (∀ exn, agent_loop llm max_steps e s = Raise exn →
       ∃ h e' s', grid e' = grid e ∧ llm h e' s' = Raise exn)
  ∧ (agent_loop llm max_steps e s = OutOfFuel →
       ∃ h e' s', grid e' = grid e ∧ llm h e' s' = OutOfFuel)
  ∧ ((∀ h e' s', grid e' = grid e → ∃ r, llm h e' s' = Ret r) →
     ∃ k n st, agent_loop llm max_steps e s = Ret (k, n, st)).
Proof.
  split; [exact execute_action_returns|]. split.
  { intros d e0 exn Hm.
    assert (exn = IndexError) as ->.
    { destruct (move_agent_fails d e0) as [[r Hr]|Hr]; congruence. }
    split; [done|]. split.
    - intros Hwf. destruct (move_agent_wf_returns d e0 Hwf) as [r Hr]. congruence.
    - by rewrite execute_action_move, Hm. }
  unfold agent_loop.
  destruct (for_steps_fails llm (Z.to_nat max_steps) 0
              {| env := e; source := s; conversation_history := initial_history;
                 console := [] |})
    as [[[[k n] st] Hr]|(h & e' & s' & Hg & [[Hr Hl]|(exn & Hr & Hl)])];
    rewrite Hr; simpl in *.
  - split; [done|]. split; [done|]. eauto.
  - split; [done|]. split; [by eauto|].
    intros Htot. destruct (Htot h e' s' Hg) as [r Hret]. congruence.
  - split; [intros exn' [= <-]; by eauto|]. split; [done|].
    intros Htot. destruct (Htot h e' s' Hg) as [r Hret]. congruence.
Qed.

(** A grid that is not rectangular on which a move does fail: the row
    below is shorter than the first row. *)
Lemma ragged_grid_move_fails :
  move_agent "SOUTH" {| grid := [[Open; Open]; [Open]]; agent_pos := (0, 1);
                        map_memory := ∅ |}
  = Raise IndexError.
Proof. reflexivity. Qed.


(** ** The tools without an argument *)

Lemma look_around_on_goal e :
  cell_at (grid e) (agent_pos e) = Some Treasure →
  look_around e = Ret ("SUCCESS: You are standing on the Treasure tile!", e).
Proof.
  unfold look_around. destruct (agent_pos e) as [r c]. intros Ht.
  apply cell_at_Some in Ht as (Hr & Hc & row & Hrow & Hx & _).
  rewrite (getitem_lookup (grid e) r row), bind_Ret; [|lia|done].
  rewrite (getitem_lookup row c Treasure), bind_Ret; [|lia|done].
  by rewrite decide_True.
Qed.

(** X9. The dispatch hands every tool but [update_map] one argument,
    and [look_around] and [get_pos] take none: a pass whose message names
    one of them gets a tool-error observation, changes nothing in the
    environment and does not leave the loop. So the success report that
    [look_around] gives on a Goal cell never reaches the loop. *)
Theorem zero_argument_tools_fail {DS : Type}
    (llm : list message → SimpleEnvironment → DS → result (string * DS))
    (st : loop_state DS) (msg a i : string) (src' : DS) (steps done : nat) :
  llm (conversation_history st) (env st) (source st) = Ret (msg, src') →
  Py.startswith msg "Final Answer:" = false →
  search_action msg = Some a → search_action_input msg = Some i →
  Py.strip a = "look_around" ∨ Py.strip a = "get_pos" →
  (∃ err,
     let obs := "TOOL ERROR: Failed to execute tool '" ++ Py.strip a ++ "'. Error: " ++ err in
     let st' := {| env := env st; source := src';
                   conversation_history :=
                     (conversation_history st ++ [assistant msg; observation obs])%list;
                   console :=
                     (console st ++ [print_executing (Py.strip a) (Py.strip i)])%list |} in
     execute_action (Py.strip a) (Py.strip i) (env st) = Ret (obs, env st)
     ∧ loop_body llm st = Ret (None, st')
     ∧ for_steps llm (S steps) done st = for_steps llm steps (S done) st')
  ∧ (cell_at (grid (env st)) (agent_pos (env st)) = Some Treasure →
     look_around (env st)
     = Ret ("SUCCESS: You are standing on the Treasure tile!", env st)).
Proof.
  intros Hllm Hfin Ha Hi Htool. split; [|apply look_around_on_goal].
  destruct Htool as [Ht|Ht].
  - exists "SimpleEnvironment.look_around() takes 1 positional argument but 2 were given".
    intros obs st'. assert (Hex : execute_action (Py.strip a) (Py.strip i) (env st)
                                  = Ret (obs, env st)).
    { unfold obs. rewrite Ht. reflexivity. }
    pose proof (loop_body_action llm st msg src' a i _ _ Hllm Hfin Ha Hi Hex) as Hbody.
    assert (Hs : Py.contains "SUCCESS" obs = false) by (unfold obs; by rewrite Ht).
    rewrite Hs in Hbody. split; [done|]. split; [done|]. simpl. by rewrite Hbody.
  - exists "SimpleEnvironment.get_pos() takes 1 positional argument but 2 were given".
    intros obs st'. assert (Hex : execute_action (Py.strip a) (Py.strip i) (env st)
                                  = Ret (obs, env st)).
    { unfold obs. rewrite Ht. reflexivity. }
    pose proof (loop_body_action llm st msg src' a i _ _ Hllm Hfin Ha Hi Hex) as Hbody.
    assert (Hs : Py.contains "SUCCESS" obs = false) by (unfold obs; by rewrite Ht).
    rewrite Hs in Hbody. split; [done|]. split; [done|]. simpl. by rewrite Hbody.
Qed.

Lemma zero_argument_tools_fail_witness :
  let e := {| grid := init_grid; agent_pos := (2, 4); map_memory := ∅ |} in
  let msg := "Thought: where am I?" ++ nl ++ "Action: look_around" ++ nl
               ++ "Action Input: now" in
  let llm := λ (_ : list message) (_ : SimpleEnvironment) (s : unit), Ret (msg, s) in
  let st := {| env := e; source := tt; conversation_history := initial_history;
               console := [] |} in
  (∃ err,
     loop_body llm st
     = Ret (None,
            {| env := e; source := tt;
               conversation_history :=
                 (initial_history
                    ++ [assistant msg;
                        observation ("TOOL ERROR: Failed to execute tool 'look_around'. Error: "
                                       ++ err)])%list;
               console := [print_executing "look_around" "now"] |}))
  ∧ look_around e = Ret ("SUCCESS: You are standing on the Treasure tile!", e).
Proof.
  intros e msg llm st.
  destruct (zero_argument_tools_fail llm st msg "look_around" "now" tt 0 0
              eq_refl eq_refl eq_refl eq_refl (or_introl eq_refl))
    as [(err & _ & Hbody & _) Hlook].
  split; [exists err; exact Hbody|exact (Hlook eq_refl)].
Defined.


(** ** Requests without a move in between *)

(** A request answered from the plan cache: the cache stands for the
    present position. *)
Lemma get_llm_response_cached h e c t path0 :
  plan_path (grid e) (agent_pos e) = Ret (Path t path0) →
  _plan_owner c = agent_pos e →
  get_llm_response h e (Some c) =
    match _plan c with
    | [] =>
        row ← Py.getitem (grid e) (agent_pos e).1;
        x ← Py.getitem row (agent_pos e).2;
        if decide (x = Treasure) then Ret (msg_final_success, Some c)
        else Ret (msg_no_steps, Some c)
    | d :: rest =>
        Ret (react_message rest d, Some {| _plan := rest; _plan_owner := _plan_owner c |})
    end.
Proof.
  intros Hplan Hown. unfold get_llm_response. rewrite Hplan, bind_Ret.
  rewrite decide_False by (intros H; by apply H). done.
Qed.

Lemma read_free_cell g p :
  wf_grid g → free g p = true →
  ∃ row x, Py.getitem g p.1 = Ret row ∧ Py.getitem row p.2 = Ret x
           ∧ cell_at g p = Some x.
Proof.
  intros Hwf Hfree. pose proof (free_bounds _ _ Hwf Hfree) as [Hr Hc].
  destruct p as [r c]. simpl in *.
  destruct (cell_at_in_range _ r c Hwf Hr Hc) as (row & x & Hrow & Hx & Hcell).
  exists row, x. split; [|split; [|done]].
  - by rewrite (getitem_lookup g r row); [|lia|done].
  - by rewrite (getitem_lookup row c x); [|lia|done].
Qed.

Lemma ask_cached h e c t path0 (k : nat) :
  wf_grid (grid e) → free (grid e) (agent_pos e) = true →
  plan_path (grid e) (agent_pos e) = Ret (Path t path0) →
  _plan_owner c = agent_pos e →
  ask (length (_plan c) + k) h e (Some c)
  = Ret ((plan_messages (_plan c)
           ++ replicate k (if decide (cell_at (grid e) (agent_pos e) = Some Treasure)
                           then msg_final_success else msg_no_steps))%list,
         Some {| _plan := []; _plan_owner := _plan_owner c |}).
Proof.
  intros Hwf Hfree Hplan. destruct c as [plan owner]. simpl.
  intros ->. revert k. induction plan as [|d rest IH]; intros k; simpl.
  - destruct (read_free_cell _ _ Hwf Hfree) as (row & x & Hrow & Hx & Hcell).
    rewrite Hcell.
    induction k as [|k IHk]; [done|]. simpl.
    rewrite (get_llm_response_cached h e {| _plan := []; _plan_owner := agent_pos e |}
               t path0 Hplan eq_refl). simpl.
    rewrite Hrow, bind_Ret, Hx, bind_Ret.
    destruct (decide (x = Treasure)) as [->|Hne].
    + rewrite decide_True in IHk |- * by done. by rewrite bind_Ret, IHk.
    + rewrite decide_False in IHk |- * by congruence. by rewrite bind_Ret, IHk.
  - rewrite (get_llm_response_cached h e {| _plan := d :: rest; _plan_owner := agent_pos e |}
               t path0 Hplan eq_refl). simpl.
    by rewrite ?bind_Ret, IH.
Qed.

(** X10. Requests in a row while the agent does not move, on a
    non-empty rectangular grid whose first Goal cell can be reached from the
    free cell the agent stands on, from a plan cache that is fresh or stands
    for another position: the planner hands out the directions of its plan
    one per request, each message stating the number of directions not yet
    handed out, and answers every later request with a final message, the
    success message when the agent stands on a Goal cell and the
    no-further-steps message otherwise, although the Goal can still be
    reached. *)
Theorem repeated_requests (e : SimpleEnvironment) (t : position)
    (cache : option plan_cache) (h : list message) :
  wf_grid (grid e) → free (grid e) (agent_pos e) = true →
  first_goal (grid e) t → (∃ ds, walk (grid e) (agent_pos e) ds t) →
  stale e cache →
  ∃ path,
    plan_path (grid e) (agent_pos e) = Ret (Path t path)
    ∧ ∀ k : nat,
        ask (length path + S k) h e cache
        = Ret ((plan_messages path
                 ++ replicate (S k)
                      (if decide (cell_at (grid e) (agent_pos e) = Some Treasure)
                       then msg_final_success else msg_no_steps))%list,
               Some {| _plan := []; _plan_owner := agent_pos e |}).
Proof.
  intros Hwf Hfree Hfirst Hreach Hstale.
  destruct e as [g start mem]. simpl in *.
  destruct (plan_shortest g start t mem Hwf Hfirst Hreach)
    as (path & Hplan & _ & _ & Hmin & Hresp).
  exists path. split; [done|]. intros k.
  specialize (Hresp h cache Hstale). simpl in Hresp.
  destruct path as [|d rest].
  - assert (start = t) as ->.
    { destruct (plan_path_goal g start t Hwf Hfirst)
        as [(path' & Hplan' & Hwalk & _)|[Hno _]]; [|congruence].
      rewrite Hplan in Hplan'. injection Hplan' as <-. by inversion Hwalk. }
    simpl. rewrite Hresp, bind_Ret. simpl.
    pose proof (ask_cached h {| grid := g; agent_pos := t; map_memory := mem |}
                  {| _plan := []; _plan_owner := t |} t [] k Hwf Hfree Hplan eq_refl)
      as Hask.
    simpl in Hask. rewrite Hask, bind_Ret.
    destruct Hfirst as [Ht _]. by rewrite decide_True.
  - simpl. rewrite Hresp, bind_Ret. simpl.
    pose proof (ask_cached h {| grid := g; agent_pos := start; map_memory := mem |}
                  {| _plan := rest; _plan_owner := start |} t (d :: rest) (S k)
                  Hwf Hfree Hplan eq_refl) as Hask.
    simpl in Hask. by rewrite Hask, bind_Ret.
Qed.

Lemma repeated_requests_witness :
  ask 8 [] init_env None
  = Ret ((plan_messages init_path ++ [msg_no_steps; msg_no_steps])%list,
         Some {| _plan := []; _plan_owner := (1, 1) |}).
Proof.
  destruct (repeated_requests init_env (2, 4) None [] wf_init_grid eq_refl
              init_first_goal (ex_intro _ init_path init_walk) I)
    as (path & Hplan & Hask).
  assert (Hp : plan_path (grid init_env) (agent_pos init_env)
               = Ret (Path (2, 4) init_path)) by exact init_plan_path.
  rewrite Hp in Hplan. injection Hplan as <-.
  exact (Hask 1%nat).
Defined.


(** ** Runs of the planner, for every budget *)

(** A grid has no Goal cell or a first one. *)
Lemma goal_dichotomy g :
  wf_grid g → (∀ p, cell_at g p ≠ Some Treasure) ∨ ∃ t, first_goal g t.
Proof.
  intros Hwf.
  set (P := λ p : position, cell_at g p = Some Treasure).
  set (l := all_cells (Py.len g) (width g)).
  assert (Hin : ∀ p, P p → p ∈ l).
  { intros [r c] Hp. apply elem_of_all_cells. eapply cell_at_bounds; eauto. }
  destruct (filter P l) as [|x rest] eqn:Hf.
  - left. intros p Hp.
    assert (Hpf : p ∈ filter P l) by (apply list_elem_of_filter; auto).
    rewrite Hf in Hpf. by apply elem_of_nil in Hpf.
  - right. exists x.
    assert (Hx : x ∈ filter P l) by (rewrite Hf; by left).
    apply list_elem_of_filter in Hx as [HPx Hxl]. split; [done|].
    intros p Hp. specialize (Hin p Hp).
    assert (Hhead : head (filter P l) = Some x) by (by rewrite Hf).
    apply head_filter_Some in Hhead as (l1 & l2 & Hl & Hl1).
    pose proof (sorted_all_cells (Py.len g) (width g)) as Hs. fold l in Hs.
    rewrite Hl in Hs, Hin.
    apply StronglySorted_app in Hs as (_ & _ & Hs2).
    apply StronglySorted_cons in Hs2 as [Hlt _]. rewrite Forall_forall in Hlt.
    apply elem_of_app in Hin as [Hin|Hin].
    + rewrite Forall_forall in Hl1. by destruct (Hl1 p Hin).
    + apply elem_of_cons in Hin as [->|Hin]; [unfold row_major_le; lia|].
      specialize (Hlt p Hin). unfold row_major_lt, row_major_le in *. lia.
Qed.

(** One pass of the program's loop away from the Goal, with the
    direction as the planner spells it. *)
Lemma planner_pass_cardinal e cache t (h : list message) (con : list string) :
  wf_grid (grid e) → first_goal (grid e) t →
  (∃ ds, walk (grid e) (agent_pos e) ds t) → agent_pos e ≠ t →
  stale e cache →
  ∃ d rest p,
    d ∈ cardinals
    ∧ edge (grid e) (agent_pos e) d p
    ∧ walk (grid e) p rest t
    ∧ (∀ ds, walk (grid e) (agent_pos e) ds t → (S (length rest) ≤ length ds)%nat)
    ∧ let goal := bool_decide (cell_at (grid e) p = Some Treasure) in
      loop_body get_llm_response
        {| env := e; source := cache; conversation_history := h; console := con |}
      = Ret (if goal then Some GoalFound else None,
             {| env := set_pos e p;
                source := Some {| _plan := rest; _plan_owner := agent_pos e |};
                conversation_history :=
                  (h ++ [assistant (react_message rest d);
                         observation (if goal then msg_success else msg_moved p)])%list;
                console :=
                  (con ++ print_executing "move_agent" d
                     :: (if goal then [print_goal] else []))%list |}).
Proof.
  intros Hwf Hfirst Hreach Hne Hstale.
  destruct (get_llm_response_replan h e cache t Hwf Hfirst Hreach Hne Hstale)
    as (d & rest & Hplan & Hd & Hwalk & Hmin & Hresp).
  inversion Hwalk as [|u d' p ds' v Hedge Hwrest]; subst.
  exists d, rest, p. split; [done|]. split; [done|]. split; [done|]. split; [done|].
  destruct (react_message_parse rest d Hd) as (Hfin & Ha & Hi).
  destruct Hedge as [Hst Hfree]. intros goal.
  assert (Hmove : execute_action (Py.strip "move_agent") (Py.strip d) e
                  = Ret (if goal then msg_success else msg_moved p, set_pos e p)).
  { rewrite (strip_cardinal d Hd). change (Py.strip "move_agent") with "move_agent".
    rewrite execute_action_move, (move_agent_step _ _ _ Hwf Hst), Hfree.
    unfold goal. by destruct (decide (cell_at (grid e) p = Some Treasure));
      [rewrite bool_decide_eq_true_2|rewrite bool_decide_eq_false_2]. }
  rewrite (loop_body_action get_llm_response
             {| env := e; source := cache; conversation_history := h; console := con |}
             _ _ "move_agent" d _ _ Hresp Hfin Ha Hi Hmove).
  rewrite (strip_cardinal d Hd).
  destruct goal; [done|]. by rewrite contains_success_moved.
Qed.

(** A run away from the first Goal cell, for every budget: a move per
    pass along a shortest walk to that cell, until a Goal cell is stepped on
    or the budget is used up. *)
Lemma for_steps_planner t (steps : nat) :
  ∀ (n done : nat) (e : SimpleEnvironment) (cache : option plan_cache)
    (h : list message) (con : list string),
    wf_grid (grid e) → first_goal (grid e) t → stale e cache →
    (∃ ds, walk (grid e) (agent_pos e) ds t ∧ length ds = S n) →
    (∀ ds, walk (grid e) (agent_pos e) ds t → (S n ≤ length ds)%nat) →
    ∃ k ds ds' st,
      for_steps get_llm_response steps done
        {| env := e; source := cache; conversation_history := h; console := con |}
      = Ret (k, (done + length ds)%nat, st)
      ∧ walk (grid e) (agent_pos e) ds (agent_pos (env st))
      ∧ walk (grid e) (agent_pos (env st)) ds' t
      ∧ (length ds + length ds')%nat = S n
      ∧ Forall (λ d, d ∈ cardinals) ds
      ∧ env st = set_pos e (agent_pos (env st))
      ∧ console st = (con ++ (print_executing "move_agent" <$> ds) ++ exit_line k)%list
      ∧ stale (env st) (source st)
      ∧ ((k = GoalFound ∧ ds ≠ []
          ∧ cell_at (grid e) (agent_pos (env st)) = Some Treasure)
         ∨ (k = BudgetExhausted ∧ length ds = steps
            ∧ (ds ≠ [] → cell_at (grid e) (agent_pos (env st)) ≠ Some Treasure))).
Proof.
  induction steps as [|steps IH];
    intros n done e cache h con Hwf Hfirst Hstale (ds0 & Hds0 & Hlen0) Hmin.
  { exists BudgetExhausted, [], ds0, {| env := e; source := cache;
                                         conversation_history := h; console := con |}.
    simpl. rewrite Nat.add_0_r, app_nil_r, set_pos_same.
    split; [done|]. split; [constructor|]. split; [done|]. split; [done|].
    split; [done|]. split; [done|]. split; [done|]. split; [done|]. right. done. }
  assert (Hne : agent_pos e ≠ t).
  { intros Heq. specialize (Hmin []). rewrite Heq in Hmin.
    specialize (Hmin (walk_nil _ _)). simpl in Hmin. lia. }
  destruct (planner_pass_cardinal e cache t h con Hwf Hfirst (ex_intro _ ds0 Hds0) Hne Hstale)
    as (d & rest & p & Hd & Hedge & Hwrest & Hmin' & Hbody).
  cbv zeta in Hbody.
  assert (Hrest : length rest = n).
  { specialize (Hmin (d :: rest) ltac:(econstructor; eauto)).
    specialize (Hmin' _ Hds0). simpl in Hmin. lia. }
  assert (Hpne : p ≠ agent_pos e).
  { destruct Hedge as [Hst _]. apply step_target_neq in Hst. by destruct (agent_pos e). }
  simpl for_steps. rewrite Hbody, bind_Ret.
  destruct (bool_decide (cell_at (grid e) p = Some Treasure)) eqn:Hgoal.
  - apply bool_decide_eq_true in Hgoal.
    eexists GoalFound, [d], rest, _. split; [by rewrite Nat.add_1_r|]. simpl.
    split; [econstructor; [done|constructor]|].
    split; [done|]. split; [lia|]. split; [by constructor|].
    split; [done|]. split; [done|]. split; [congruence|]. left. done.
  - apply bool_decide_eq_false in Hgoal.
    destruct n as [|n].
    { destruct rest; [|done]. inversion Hwrest; subst. by destruct Hfirst. }
    destruct (IH n (S done) (set_pos e p)
                (Some {| _plan := rest; _plan_owner := agent_pos e |})
                (h ++ [assistant (react_message rest d); observation (msg_moved p)])%list
                (con ++ [print_executing "move_agent" d])%list)
      as (k & ds & ds' & st & Hrun & Hw & Hw' & Hlen & Hcard & Henv & Hcon & Hst & Hk);
      try done.
    + by exists rest.
    + intros ds Hds. simpl in Hds.
      specialize (Hmin (d :: ds) ltac:(econstructor; eauto)).
      simpl in Hmin. lia.
    + simpl in *. exists k, (d :: ds), ds', st.
      split; [rewrite Hrun; do 3 f_equal; simpl; lia|].
      split; [econstructor; eauto|].
      split; [done|]. split; [simpl; lia|]. split; [by constructor|].
      split; [by rewrite Henv|].
      split; [rewrite Hcon; by rewrite <- !app_assoc|].
      split; [done|].
      destruct Hk as [(-> & Hnil & Hcell)|(-> & Hl & Hcell)].
      * left. done.
      * right. split; [done|]. split; [simpl; lia|]. intros _.
        destruct ds as [|d1 ds1]; [|by apply Hcell].
        inversion Hw; subst. congruence.
Qed.

(** Every case of a run of the program's loop on a non-empty
    rectangular grid. *)
Lemma planner_run_cases (e : SimpleEnvironment) (cache : option plan_cache)
    (max_steps : Z) :
  wf_grid (grid e) → stale e cache →
  ∃ k ds st,
    run_agent_loop max_steps e cache
    = Ret (k, ((if before_dispatch k then 1 else 0) + length ds)%nat, st)
    ∧ k ≠ ProtocolFailure
    ∧ (k = FinalAnswer → ds = [] ∧
         ∃ msg, conversation_history st = (initial_history ++ [assistant msg])%list
                ∧ (msg = msg_no_treasure ∨ msg = msg_no_path ∨ msg = msg_final_success))
    ∧ walk (grid e) (agent_pos e) ds (agent_pos (env st))
    ∧ Forall (λ d, d ∈ cardinals) ds
    ∧ env st = set_pos e (agent_pos (env st))
    ∧ console st = ((print_executing "move_agent" <$> ds) ++ exit_line k)%list
    ∧ (k = GoalFound →
       cell_at (grid e) (agent_pos (env st)) = Some Treasure
       ∧ stale (env st) (source st))
    ∧ (k = BudgetExhausted → length ds = Z.to_nat max_steps).
Proof.
  intros Hwf Hstale.
  destruct (Z.leb_spec 1 max_steps) as [Hmax|Hmax]; cycle 1.
  { exists BudgetExhausted, [], {| env := e; source := cache;
                                   conversation_history := initial_history;
                                   console := [] |}.
    unfold run_agent_loop, agent_loop.
    replace (Z.to_nat max_steps) with 0%nat by lia. simpl.
    rewrite set_pos_same. repeat split; try done. constructor. }
  assert (Hfinal : ∀ msg cache',
            get_llm_response initial_history e cache = Ret (msg, cache') →
            msg = msg_no_treasure ∨ msg = msg_no_path ∨ msg = msg_final_success →
            ∃ k ds st,
              run_agent_loop max_steps e cache
              = Ret (k, ((if before_dispatch k then 1 else 0) + length ds)%nat, st)
              ∧ k ≠ ProtocolFailure
              ∧ (k = FinalAnswer → ds = [] ∧
                   ∃ msg, conversation_history st = (initial_history ++ [assistant msg])%list
                          ∧ (msg = msg_no_treasure ∨ msg = msg_no_path
                             ∨ msg = msg_final_success))
              ∧ walk (grid e) (agent_pos e) ds (agent_pos (env st))
              ∧ Forall (λ d, d ∈ cardinals) ds
              ∧ env st = set_pos e (agent_pos (env st))
              ∧ console st = ((print_executing "move_agent" <$> ds) ++ exit_line k)%list
              ∧ (k = GoalFound →
                 cell_at (grid e) (agent_pos (env st)) = Some Treasure
                 ∧ stale (env st) (source st))
              ∧ (k = BudgetExhausted → length ds = Z.to_nat max_steps)).
  { intros msg cache' Hresp Hmsg.
    assert (Hfin : Py.startswith msg "Final Answer:" = true)
      by (by destruct Hmsg as [-> | [-> | ->]]).
    exists FinalAnswer, [], {| env := e; source := cache';
                               conversation_history := (initial_history ++ [assistant msg])%list;
                               console := [print_terminated] |}.
    split; [by apply run_one_final|]. simpl. rewrite set_pos_same.
    repeat split; try done; [by eauto|constructor]. }
  destruct (goal_dichotomy (grid e) Hwf) as [Hno|[t Hfirst]].
  { apply (Hfinal msg_no_treasure cache); [by apply get_llm_response_no_goal|auto]. }
  destruct (decide (agent_pos e = t)) as [Heq|Hne].
  { destruct (get_llm_response_on_goal initial_history e cache t Hwf Hfirst Heq Hstale)
      as [_ Hresp].
    eapply Hfinal; [exact Hresp|auto]. }
  destruct (plan_path_goal (grid e) (agent_pos e) t Hwf Hfirst)
    as [(path & Hplan & Hwalk & _ & Hmin)|[_ Hnone]]; cycle 1.
  { apply (Hfinal msg_no_path cache); [by apply (get_llm_response_no_path _ e cache t)|auto]. }
  destruct path as [|d rest]; [by inversion Hwalk|].
  destruct (for_steps_planner t (Z.to_nat max_steps) (length rest) 0 e cache
              initial_history [] Hwf Hfirst Hstale)
    as (k & ds & ds' & st & Hrun & Hw & Hw' & Hlen & Hcard & Henv & Hcon & Hst & Hk).
  { by exists (d :: rest). }
  { exact Hmin. }
  exists k, ds, st. unfold run_agent_loop, agent_loop.
  destruct Hk as [(-> & Hnil & Hcell)|(-> & Hl & Hcell)]; simpl in *;
    (split; [exact Hrun|]); repeat split; try done.
Qed.

(** X11. A run of the program's loop on a non-empty rectangular grid,
    from a plan cache that is fresh or stands for another position, for
    every budget and start position: it returns, and never through the
    protocol-failure exit; the tool calls announced are [move_agent] calls
    with cardinal directions, one per pass, and the directions form a
    sequence of legal moves from the start to the final position; the grid
    and the memory log are as they were; the final-answer exit is taken only
    in the first pass, with the no-goal, the no-path or the success
    message, never with the no-further-steps message; after the goal-found
    exit the agent stands on a Goal cell. *)
Theorem planner_run (e : SimpleEnvironment) (cache : option plan_cache)
    (max_steps : Z) :
  wf_grid (grid e) → stale e cache →
  ∃ k ds st,
    run_agent_loop max_steps e cache
    = Ret (k, ((if before_dispatch k then 1 else 0) + length ds)%nat, st)
    ∧ k ≠ ProtocolFailure
    ∧ (k = FinalAnswer → ds = [] ∧
         ∃ msg, conversation_history st = (initial_history ++ [assistant msg])%list
                ∧ (msg = msg_no_treasure ∨ msg = msg_no_path ∨ msg = msg_final_success))
    ∧ walk (grid e) (agent_pos e) ds (agent_pos (env st))
    ∧ Forall (λ d, d ∈ cardinals) ds
    ∧ grid (env st) = grid e ∧ map_memory (env st) = map_memory e
    ∧ console st = ((print_executing "move_agent" <$> ds) ++ exit_line k)%list
    ∧ (k = GoalFound → cell_at (grid e) (agent_pos (env st)) = Some Treasure)
    ∧ (k = BudgetExhausted → length ds = Z.to_nat max_steps).
Proof.
  intros Hwf Hstale.
  destruct (planner_run_cases e cache max_steps Hwf Hstale)
    as (k & ds & st & Hrun & Hk & Hfin & Hw & Hcard & Henv & Hcon & Hgoal & Hb).
  exists k, ds, st. split; [done|]. split; [done|]. split; [done|].
  split; [done|]. split; [done|]. split; [by rewrite Henv|].
  split; [by rewrite Henv|]. split; [done|]. split; [|done].
  intros Hg. by destruct (Hgoal Hg).
Qed.

Lemma planner_run_witness :
  ∃ k ds st,
    run_agent_loop 3 init_env None
    = Ret (k, ((if before_dispatch k then 1 else 0) + length ds)%nat, st)
    ∧ k ≠ ProtocolFailure
    ∧ walk init_grid (1, 1) ds (agent_pos (env st))
    ∧ map_memory (env st) = ∅.
Proof.
  destruct (planner_run init_env None 3 wf_init_grid I)
    as (k & ds & st & Hrun & Hk & _ & Hw & _ & _ & Hm & _).
  exists k, ds, st. split; [exact Hrun|]. split; [exact Hk|].
  split; [exact Hw|exact Hm].
Defined.

(** X12. A budget too small for any Goal cell: on a non-empty
    rectangular grid whose first Goal cell can be reached, when every Goal
    cell is more moves away than the budget has passes, the run is left
    through budget exhaustion after exactly the budget's passes; each pass
    moved the agent one cell along a shortest walk to the first Goal cell,
    so the agent ends exactly as many moves nearer to it; the memory log is
    untouched and the goal line is not printed. *)
Theorem budget_exhausted (g : list (list cell)) (start t : position)
    (mem : gmap string string) (cache : option plan_cache) (max_steps : Z) :
  wf_grid g → first_goal g t → (∃ ds, walk g start ds t) →
  (∀ t' ds, cell_at g t' = Some Treasure → walk g start ds t' →
            max_steps < Z.of_nat (length ds)) →
  stale {| grid := g; agent_pos := start; map_memory := mem |} cache →
  ∃ ds ds' st,
    run_agent_loop max_steps {| grid := g; agent_pos := start; map_memory := mem |} cache
    = Ret (BudgetExhausted, length ds, st)
    ∧ length ds = Z.to_nat max_steps
    ∧ walk g start ds (agent_pos (env st))
    ∧ walk g (agent_pos (env st)) ds' t
    ∧ (∀ ds0, walk g start ds0 t → (length ds + length ds' ≤ length ds0)%nat)
    ∧ env st = {| grid := g; agent_pos := agent_pos (env st); map_memory := mem |}
    ∧ console st = print_executing "move_agent" <$> ds.
Proof.
  intros Hwf Hfirst Hreach Hfar Hstale.
  destruct (plan_path_goal g start t Hwf Hfirst)
    as [(path & Hplan & Hwalk & _ & Hmin)|[_ Hnone]];
    [|destruct Hreach as [ds0 Hds0]; by destruct (Hnone ds0)].
  destruct (Z.leb_spec 1 max_steps) as [Hmax|Hmax]; cycle 1.
  { exists [], path, {| env := {| grid := g; agent_pos := start; map_memory := mem |};
                        source := cache; conversation_history := initial_history;
                        console := [] |}.
    unfold run_agent_loop, agent_loop.
    replace (Z.to_nat max_steps) with 0%nat by lia. simpl.
    repeat split; try done. constructor. }
  destruct path as [|d rest].
  { inversion Hwalk; subst. destruct Hfirst as [Ht _].
    specialize (Hfar t [] Ht (walk_nil _ _)). simpl in Hfar. lia. }
  destruct (for_steps_planner t (Z.to_nat max_steps) (length rest) 0
              {| grid := g; agent_pos := start; map_memory := mem |} cache
              initial_history [] Hwf Hfirst Hstale)
    as (k & ds & ds' & st & Hrun & Hw & Hw' & Hlen & Hcard & Henv & Hcon & Hst & Hk).
  { by exists (d :: rest). }
  { exact Hmin. }
  simpl in *.
  destruct Hk as [(-> & Hnil & Hcell)|(-> & Hl & Hcell)].
  - apply for_steps_bound in Hrun as (Hn & _).
    specialize (Hfar _ _ Hcell Hw). lia.
  - exists ds, ds', st. unfold run_agent_loop, agent_loop.
    split; [exact Hrun|]. split; [done|]. split; [done|]. split; [done|].
    split; [intros ds0 Hds0; specialize (Hmin ds0 Hds0); simpl in Hmin; lia|].
    split; [done|]. by rewrite Hcon, app_nil_r.
Qed.

Lemma budget_exhausted_witness :
  ∃ ds ds' st,
    run_agent_loop 5 init_env None = Ret (BudgetExhausted, length ds, st)
    ∧ length ds = 5%nat
    ∧ walk init_grid (1, 1) ds (agent_pos (env st))
    ∧ walk init_grid (agent_pos (env st)) ds' (2, 4)
    ∧ (∀ ds0, walk init_grid (1, 1) ds0 (2, 4) → (length ds + length ds' ≤ length ds0)%nat)
    ∧ env st = {| grid := init_grid; agent_pos := agent_pos (env st); map_memory := ∅ |}
    ∧ console st = print_executing "move_agent" <$> ds.
Proof.
  apply (budget_exhausted init_grid (1, 1) (2, 4) ∅ None 5 wf_init_grid init_first_goal
           (ex_intro _ init_path init_walk)); [|exact I].
  intros t' ds Ht Hw.
  destruct init_first_goal as [_ Hfirst]. pose proof (Hfirst t' Ht) as Hle.
  destruct t' as [r c].
  pose proof (cell_at_bounds _ _ _ _ wf_init_grid Ht) as [Hr Hc].
  change (Py.len init_grid) with 5 in Hr. change (width init_grid) with 5 in Hc.
  assert (Hrc : (r = 0 ∨ r = 1 ∨ r = 2 ∨ r = 3 ∨ r = 4)
              ∧ (c = 0 ∨ c = 1 ∨ c = 2 ∨ c = 3 ∨ c = 4)) by lia.
  assert ((r, c) = (2, 4)) as [= -> ->].
  { destruct Hrc as [[-> | [-> | [-> | [-> | ->]]]] [-> | [-> | [-> | [-> | ->]]]]];
      first [discriminate Ht | reflexivity]. }
  destruct (plan_shortest init_grid (1, 1) (2, 4) ∅ wf_init_grid init_first_goal
              (ex_intro _ init_path init_walk)) as (path & Hplan & _ & _ & Hmin' & _).
  rewrite init_plan_path in Hplan. injection Hplan as <-.
  specialize (Hmin' ds Hw). simpl in Hmin'. lia.
Defined.

(** X13. A second run after the Goal was found: when a run was left
    through the goal-found exit on the first Goal cell, a further run, with
    the environment and the plan cache the first one left and a budget of at
    least one step, is left in its first pass through the final-answer exit
    with the success message; no tool is called and the environment stays
    as it is. *)
Theorem second_run (e : SimpleEnvironment) (t : position)
    (cache : option plan_cache) (max1 max2 : Z) (n : nat)
    (st : loop_state (option plan_cache)) :
  wf_grid (grid e) → first_goal (grid e) t → stale e cache →
  run_agent_loop max1 e cache = Ret (GoalFound, n, st) →
  agent_pos (env st) = t → 1 ≤ max2 →
  run_agent_loop max2 (env st) (source st)
  = Ret (FinalAnswer, 1%nat,
         {| env := env st;
            source := Some {| _plan := []; _plan_owner := t |};
            conversation_history := (initial_history ++ [assistant msg_final_success])%list;
            console := [print_terminated] |}).
Proof.
  intros Hwf Hfirst Hstale Hrun Hpos Hmax.
  destruct (planner_run_cases e cache max1 Hwf Hstale)
    as (k & ds & st' & Hrun' & _ & _ & _ & _ & Henv & _ & Hgoal & _).
  rewrite Hrun in Hrun'. injection Hrun' as <- _ <-.
  destruct (Hgoal eq_refl) as [_ Hst].
  assert (Hg : grid (env st) = grid e) by (by rewrite Henv).
  destruct (get_llm_response_on_goal initial_history (env st) (source st) t)
    as [_ Hresp]; [by rewrite Hg|by rewrite Hg|done|done|].
  rewrite Hpos in Hresp. by apply run_one_final.
Qed.

Lemma second_run_witness :
  ∃ n st,
    run_agent_loop 25 init_env None = Ret (GoalFound, n, st)
    ∧ run_agent_loop 25 (env st) (source st)
      = Ret (FinalAnswer, 1%nat,
             {| env := env st;
                source := Some {| _plan := []; _plan_owner := (2, 4) |};
                conversation_history :=
                  (initial_history ++ [assistant msg_final_success])%list;
                console := [print_terminated] |}).
Proof.
  eexists _, _. split; [vm_compute; reflexivity|].
  apply (second_run init_env (2, 4) None 25 25 6 _ wf_init_grid init_first_goal I);
    [vm_compute; reflexivity|reflexivity|lia].
Defined.

(** X14. The planner plans anew after every move, and the new plan is
    one direction shorter: when the plan at the start is a direction [d]
    followed by [rest], the request emits [d] and caches [rest];
    [move_agent] with [d] succeeds; the next request, at the cell moved to,
    does not read the cached [rest] but computes a plan from there, which
    has the length of [rest], and emits its first direction (the success
    message when it is empty). *)
Theorem plan_counts_down (e : SimpleEnvironment) (t : position)
    (cache : option plan_cache) (h h' : list message) (d : string)
    (rest : list string) :
  wf_grid (grid e) → first_goal (grid e) t → stale e cache →
  plan_path (grid e) (agent_pos e) = Ret (Path t (d :: rest)) →
  ∃ p obs path',
    get_llm_response h e cache
    = Ret (react_message rest d, Some {| _plan := rest; _plan_owner := agent_pos e |})
    ∧ move_agent d e = Ret (obs, set_pos e p)
    ∧ p ≠ agent_pos e
    ∧ plan_path (grid e) p = Ret (Path t path')
    ∧ length path' = length rest
    ∧ get_llm_response h' (set_pos e p)
        (Some {| _plan := rest; _plan_owner := agent_pos e |})
      = Ret (match path' with
             | [] => msg_final_success
             | d' :: rest' => react_message rest' d'
             end, Some {| _plan := tail path'; _plan_owner := p |}).
Proof.
  intros Hwf Hfirst Hstale Hplan.
  destruct (plan_path_goal (grid e) (agent_pos e) t Hwf Hfirst)
    as [(path & Hplan' & Hwalk & _ & Hmin)|[Hno _]]; [|congruence].
  rewrite Hplan in Hplan'. injection Hplan' as <-.
  inversion Hwalk as [|u d' p ds' v Hedge Hwrest]; subst.
  destruct e as [g start mem]. simpl in *.
  destruct (plan_shortest g start t mem Hwf Hfirst (ex_intro _ _ Hwalk))
    as (path0 & Hplan0 & _ & _ & _ & Hresp0).
  rewrite Hplan in Hplan0. injection Hplan0 as <-.
  destruct (plan_shortest g p t mem Hwf Hfirst (ex_intro _ _ Hwrest))
    as (path' & Hplan1 & _ & _ & Hmin1 & Hresp1).
  destruct (plan_path_goal g p t Hwf Hfirst)
    as [(path1 & Hplan1' & Hwalk1 & _)|[Hno _]]; [|congruence].
  rewrite Hplan1 in Hplan1'. injection Hplan1' as <-.
  assert (Hpne : p ≠ start).
  { destruct Hedge as [Hst _]. apply step_target_neq in Hst. by destruct start. }
  destruct Hedge as [Hst Hfree].
  eexists p, _, path'.
  split; [exact (Hresp0 h cache Hstale)|].
  split.
  { rewrite (move_agent_step d {| grid := g; agent_pos := start; map_memory := mem |} p
               Hwf Hst). simpl. rewrite Hfree. reflexivity. }
  split; [done|]. split; [done|]. split.
  { specialize (Hmin1 rest Hwrest).
    specialize (Hmin (d :: path') ltac:(econstructor; [by split|done])).
    simpl in Hmin. lia. }
  apply (Hresp1 h'). simpl. congruence.
Qed.

Lemma plan_counts_down_witness :
  ∃ p obs path',
    get_llm_response [] init_env None
    = Ret (react_message (tail init_path) "SOUTH",
           Some {| _plan := tail init_path; _plan_owner := (1, 1) |})
    ∧ move_agent "SOUTH" init_env = Ret (obs, set_pos init_env p)
    ∧ p ≠ (1, 1)
    ∧ plan_path init_grid p = Ret (Path (2, 4) path')
    ∧ length path' = 5%nat.
Proof.
  destruct (plan_counts_down init_env (2, 4) None [] [] "SOUTH" (tail init_path)
              wf_init_grid init_first_goal I init_plan_path)
    as (p & obs & path' & H1 & H2 & H3 & H4 & H5 & _).
  exists p, obs, path'. split; [exact H1|]. split; [exact H2|].
  split; [exact H3|]. split; [exact H4|exact H5].
Defined.


(** ** The tools and the planner agree *)

Lemma look_around_free e :
  wf_grid (grid e) → free (grid e) (agent_pos e) = true →
  look_around e
  = Ret (if decide (cell_at (grid e) (agent_pos e) = Some Treasure)
         then "SUCCESS: You are standing on the Treasure tile!"
         else "OBSERVATION: You are at " ++ Py.str_pos (agent_pos e)
                ++ ". This area is Open.", e).
Proof.
  intros Hwf Hfree.
  destruct (read_free_cell _ _ Hwf Hfree) as (row & x & Hrow & Hx & Hcell).
  unfold look_around. destruct (agent_pos e) as [r c]. simpl in *.
  rewrite Hrow, bind_Ret, Hx, bind_Ret, Hcell.
  destruct (decide (x = Treasure)) as [->|Hne].
  - by rewrite decide_True.
  - rewrite decide_False; [done|congruence].
Qed.

(** X15. What [move_agent] reports is what [look_around] and [get_pos]
    report next. On a non-empty rectangular grid: after a move with the
    success-on-goal observation, [look_around] answers with its own success
    text; after a move with the moved observation, the position in the
    observation is the text [get_pos] returns, and [look_around] describes
    that same position as open; neither call changes the environment. *)
Theorem tools_agree (d : string) (e e' : SimpleEnvironment) (obs : string) :
  wf_grid (grid e) → move_agent d e = Ret (obs, e') →
  (kind_of obs = Some KSuccess →
   look_around e' = Ret ("SUCCESS: You are standing on the Treasure tile!", e'))
  ∧ (kind_of obs = Some KMoved →
     ∃ txt, get_pos e' = Ret (txt, e')
            ∧ obs = "OBSERVATION: Moved successfully. New position: " ++ txt
                      ++ ". Area is Open."
            ∧ look_around e'
              = Ret ("OBSERVATION: You are at " ++ txt ++ ". This area is Open.", e')).
Proof.
  intros Hwf Hmove.
  destruct (step_target (Py.upper d) (agent_pos e).1 (agent_pos e).2) as [v|] eqn:Hst;
    cycle 1.
  { rewrite (move_agent_invalid _ _ Hst) in Hmove. injection Hmove as <- <-. done. }
  rewrite (move_agent_step _ _ _ Hwf Hst) in Hmove.
  destruct (free (grid e) v) eqn:Hfree; cycle 1.
  { injection Hmove as <- <-. done. }
  injection Hmove as <- <-.
  pose proof (look_around_free (set_pos e v) Hwf Hfree) as Hlook. simpl in Hlook.
  destruct (decide (cell_at (grid e) v = Some Treasure)) as [Ht|Hnt].
  - split; [done|]. done.
  - split; [done|]. intros _. exists (Py.str_pos v). done.
Qed.

Lemma tools_agree_witness :
  ∃ txt, get_pos (set_pos init_env (2, 1)) = Ret (txt, set_pos init_env (2, 1))
         ∧ msg_moved (2, 1)
           = "OBSERVATION: Moved successfully. New position: " ++ txt ++ ". Area is Open."
         ∧ look_around (set_pos init_env (2, 1))
           = Ret ("OBSERVATION: You are at " ++ txt ++ ". This area is Open.",
                  set_pos init_env (2, 1)).
Proof.
  exact (proj2 (tools_agree "South" init_env (set_pos init_env (2, 1)) (msg_moved (2, 1))
                  wf_init_grid eq_refl) eq_refl).
Defined.

(** X16. The graph the planner searches is the graph of the moves
    that succeed: on a non-empty rectangular grid, [neighbors] yields a cell
    with a direction exactly when the direction is one of the four
    cardinal values and [move_agent] with it, from the position asked
    about, moves the agent to that cell; it yields at most four pairs. *)
Theorem neighbors_are_moves (g : list (list cell)) (p : position)
    (mem : gmap string string) :
  wf_grid g →
  ∃ nbrs,
    neighbors g (Py.len g) (width g) p = Ret nbrs
    ∧ (length nbrs ≤ 4)%nat
    ∧ ∀ v d, (v, d) ∈ nbrs ↔
        (d ∈ cardinals ∧ v ≠ p ∧
         ∃ obs, move_agent d {| grid := g; agent_pos := p; map_memory := mem |}
                = Ret (obs, {| grid := g; agent_pos := v; map_memory := mem |})).
Proof.
  intros Hwf. destruct (neighbors_arcs g p p Hwf p) as (nbrs & Hn & Harc).
  exists nbrs. split; [done|]. split.
  { unfold neighbors, DIRECTIONS, neighbors_of in Hn.
    rewrite !cell_ok_free in Hn by done. simpl in Hn. injection Hn as <-.
    repeat case_match; simpl; lia. }
  intros v d. rewrite Harc. unfold arc. split.
  - intros (Hd & Hst & Hfree). split; [done|].
    split; [apply step_target_neq in Hst; by destruct p|].
    rewrite <- (upper_cardinal_id d Hd) in Hst.
    rewrite (move_agent_step d {| grid := g; agent_pos := p; map_memory := mem |} v
               Hwf Hst). simpl. rewrite Hfree. eauto.
  - intros (Hd & Hne & obs & Hmove). split; [done|].
    destruct (proj2 (step_target_is_Some d p.1 p.2) Hd) as [w Hst].
    pose proof Hst as Hst'. rewrite <- (upper_cardinal_id d Hd) in Hst'.
    rewrite (move_agent_step d {| grid := g; agent_pos := p; map_memory := mem |} w
               Hwf Hst') in Hmove. simpl in Hmove.
    destruct (free g w) eqn:Hfree.
    + injection Hmove as _ <-. done.
    + injection Hmove as _ <-. done.
Qed.

Lemma neighbors_are_moves_witness :
  ∃ nbrs,
    neighbors init_grid 5 5 (1, 1) = Ret nbrs
    ∧ (length nbrs ≤ 4)%nat
    ∧ ∀ v d, (v, d) ∈ nbrs ↔
        (d ∈ cardinals ∧ v ≠ (1, 1) ∧
         ∃ obs, move_agent d init_env
                = Ret (obs, {| grid := init_grid; agent_pos := v; map_memory := ∅ |})).
Proof. exact (neighbors_are_moves init_grid (1, 1) ∅ wf_init_grid). Defined.


(** ** Messages in the output format, parsed back *)

Local Open Scope string_scope.

Lemma drop_prefix_None p s : String.prefix p s = false → Py.drop_prefix p s = None.
Proof.
  revert s. induction p as [|a p IHp]; intros s; [by destruct s|].
  destruct s as [|b s]; [done|]. simpl.
  destruct (ascii_dec a b) as [->|Hne].
  - rewrite Ascii.eqb_refl. apply IHp.
  - intros _. apply Ascii.eqb_neq in Hne. by rewrite Hne.
Qed.

Lemma drop_prefix_Some p s r :
  Py.drop_prefix p s = Some r → s = p ++ r.
Proof.
  revert s. induction p as [|a p IHp]; intros s; simpl; [by intros [= ->]|].
  destruct s as [|b s]; [done|].
  destruct (Ascii.eqb_spec a b) as [->|]; [|done].
  intros H. by rewrite (IHp _ H).
Qed.

(** The searches pass over a line that does not hold the label. *)
Lemma search_action_skip_line pre rest :
  Py.contains "Action:" pre = false →
  search_action (pre ++ String "010" rest) = search_action rest.
Proof.
  induction pre as [|c pre IH].
  - intros _. change ("" ++ String "010" rest) with (String "010" rest).
    unfold search_action at 1. fold search_action.
    unfold match_action_here. by rewrite drop_prefix_head_neq.
  - unfold Py.contains. fold Py.contains. intros [Hp Hc]%orb_false_elim.
    rewrite str_app_cons.
    unfold search_action at 1. fold search_action.
    unfold match_action_here. rewrite drop_prefix_None; [by apply IH|].
    rewrite <- str_app_cons. by rewrite prefix_sep.
Qed.

Lemma search_action_input_skip_line pre rest :
  Py.contains "Action Input:" pre = false →
  search_action_input (pre ++ String "010" rest) = search_action_input rest.
Proof.
  induction pre as [|c pre IH].
  - intros _. change ("" ++ String "010" rest) with (String "010" rest).
    unfold search_action_input at 1. fold search_action_input.
    unfold match_input_here. by rewrite drop_prefix_head_neq.
  - unfold Py.contains. fold Py.contains. intros [Hp Hc]%orb_false_elim.
    rewrite str_app_cons.
    unfold search_action_input at 1. fold search_action_input.
    unfold match_input_here. rewrite drop_prefix_None; [by apply IH|].
    rewrite <- str_app_cons. by rewrite prefix_sep.
Qed.

Lemma span_fst_all p s : all_chars p (Py.span p s).1 = true.
Proof.
  induction s as [|c s IH]; [done|]. simpl.
  destruct (p c) eqn:Hc; [|done].
  destruct (Py.span p s) as [a b]. simpl in *. by rewrite Hc.
Qed.

Lemma span_app_eq p s : (Py.span p s).1 ++ (Py.span p s).2 = s.
Proof.
  induction s as [|c s IH]; [done|]. simpl.
  destruct (p c); [|done].
  destruct (Py.span p s) as [a b]. simpl in *. by rewrite str_app_cons, IH.
Qed.

Lemma span_snd_head p s c r : (Py.span p s).2 = String c r → p c = false.
Proof.
  induction s as [|c' s IH]; [done|]. simpl.
  destruct (p c') eqn:Hc.
  - destruct (Py.span p s) as [a b]. simpl in *. auto.
  - simpl. by intros [= <- _].
Qed.

(** [span] takes a run of matching characters up to the first that
    does not match. *)
Lemma span_app p a c r :
  all_chars p a = true → p c = false →
  Py.span p (a ++ String c r) = (a, String c r).
Proof.
  intros Ha Hc. induction a as [|x a IH].
  - change ("" ++ String c r) with (String c r). simpl. by rewrite Hc.
  - simpl in Ha. apply andb_prop in Ha as [Hx Ha].
    rewrite str_app_cons. simpl. by rewrite Hx, (IH Ha).
Qed.

Lemma span_all p s : all_chars p s = true → Py.span p s = (s, "").
Proof.
  induction s as [|c s IH]; [done|]. intros [Hc Hs]%andb_prop.
  simpl. by rewrite Hc, (IH Hs).
Qed.

Lemma span_isspace_lstrip s : (Py.span Py.isspace s).2 = Py.lstrip s.
Proof.
  induction s as [|c s IH]; [done|]. simpl.
  destruct (Py.isspace c); [|done].
  destruct (Py.span Py.isspace s) as [a b]. done.
Qed.

Lemma lstrip_idem s : Py.lstrip (Py.lstrip s) = Py.lstrip s.
Proof.
  induction s as [|c s IH]; [done|]. simpl.
  destruct (Py.isspace c) eqn:Hc; [done|]. simpl. by rewrite Hc.
Qed.

Lemma last_dot_all p s c : all_chars p s = true → last_dot s = Some c → p c = true.
Proof.
  induction s as [|x s IH]; [done|]. intros [Hx Hs]%andb_prop. simpl.
  destruct (last_dot s) as [d|].
  - intros [= <-]. auto.
  - destruct (Py.isnewline x); [done|]. by intros [= <-].
Qed.

Lemma last_dot_not_newline s c : last_dot s = Some c → Py.isnewline c = false.
Proof.
  induction s as [|x s IH]; [done|]. simpl.
  destruct (last_dot s) as [d|].
  - intros [= <-]. auto.
  - destruct (Py.isnewline x) eqn:Hx; [done|]. by intros [= <-].
Qed.

Lemma last_dot_is_Some s :
  s ≠ "" → all_chars (λ c, negb (Py.isnewline c)) s = true → is_Some (last_dot s).
Proof.
  destruct s as [|x s]; [done|]. intros _ [Hx _]%andb_prop.
  apply negb_true_iff in Hx. simpl. destruct (last_dot s); [by eauto|].
  rewrite Hx. eauto.
Qed.

Lemma isword_not_space c : Py.isword c = true → Py.isspace c = false.
Proof. destruct c as [[] [] [] [] [] [] [] []]; done. Qed.

Lemma isspace_newline c : Py.isnewline c = true → Py.isspace c = true.
Proof. destruct c as [[] [] [] [] [] [] [] []]; done. Qed.

(** What the two searches return: a non-empty word, which [strip]
    leaves as it is, and a non-empty piece of one line. *)
Lemma match_action_here_shape s a :
  match_action_here s = Some a →
  a ≠ "" ∧ all_chars Py.isword a = true ∧ String.prefix "Action:" s = true.
Proof.
  unfold match_action_here.
  destruct (Py.drop_prefix "Action:" s) as [rest|] eqn:Hd; [|done].
  pose proof (span_fst_all Py.isword (Py.span Py.isspace rest).2) as Hall.
  destruct (Py.span Py.isword (Py.span Py.isspace rest).2).1 as [|c w]; [done|].
  intros [= <-]. split; [done|]. split; [done|].
  apply drop_prefix_Some in Hd as ->. by destruct rest.
Qed.

Lemma contains_here n s : String.prefix n s = true → Py.contains n s = true.
Proof. intros H. destruct s; cbn [Py.contains]; by rewrite H. Qed.

Lemma contains_tail n c s : Py.contains n s = true → Py.contains n (String c s) = true.
Proof. intros H. unfold Py.contains. fold Py.contains. rewrite H. apply orb_true_r. Qed.

Lemma search_action_shape msg a :
  search_action msg = Some a →
  a ≠ "" ∧ all_chars Py.isword a = true ∧ Py.contains "Action:" msg = true.
Proof.
  induction msg as [|c msg IH].
  - done.
  - unfold search_action. fold search_action.
    destruct (match_action_here (String c msg)) eqn:H.
    + intros [= <-]. apply match_action_here_shape in H as (? & ? & ?).
      split; [done|]. split; [done|]. by apply contains_here.
    + intros Hs. destruct (IH Hs) as (? & ? & ?).
      split; [done|]. split; [done|]. by apply contains_tail.
Qed.

Lemma match_input_here_shape s i :
  match_input_here s = Some i →
  i ≠ "" ∧ all_chars (λ c, negb (Py.isnewline c)) i = true
  ∧ String.prefix "Action Input:" s = true.
Proof.
  unfold match_input_here.
  destruct (Py.drop_prefix "Action Input:" s) as [rest|] eqn:Hd; [|done].
  apply drop_prefix_Some in Hd as ->.
  pose proof (span_snd_head Py.isspace rest) as Hhead.
  destruct (Py.span Py.isspace rest) as [ws r1]. simpl in Hhead.
  destruct r1 as [|c r1].
  - destruct (last_dot ws) as [d|] eqn:Hl; [|done]. intros [= <-].
    split; [done|]. apply last_dot_not_newline in Hl. simpl. rewrite Hl.
    split; [done|]. by destruct rest.
  - intros [= <-]. specialize (Hhead c r1 eq_refl).
    pose proof (span_fst_all (λ c, negb (Py.isnewline c)) (String c r1)) as Hall.
    split; [|split; [done|by destruct rest]]. simpl.
    destruct (Py.isnewline c) eqn:Hn; [|by destruct (Py.span _ r1)].
    apply isspace_newline in Hn. congruence.
Qed.

Lemma search_action_input_shape msg i :
  search_action_input msg = Some i →
  i ≠ "" ∧ all_chars (λ c, negb (Py.isnewline c)) i = true
  ∧ Py.contains "Action Input:" msg = true.
Proof.
  induction msg as [|c msg IH].
  - done.
  - unfold search_action_input. fold search_action_input.
    destruct (match_input_here (String c msg)) eqn:H.
    + intros [= <-]. apply match_input_here_shape in H as (? & ? & ?).
      split; [done|]. split; [done|]. by apply contains_here.
    + intros Hs. destruct (IH Hs) as (? & ? & ?).
      split; [done|]. split; [done|]. by apply contains_tail.
Qed.

Lemma prefix_all_chars p n s :
  String.prefix n s = true → all_chars p s = true → all_chars p n = true.
Proof.
  revert s. induction n as [|a n IH]; intros s; [done|].
  destruct s as [|b s]; [done|]. simpl.
  destruct (ascii_dec a b) as [->|]; [|done].
  intros Hp [Hb Hs]%andb_prop. rewrite Hb. simpl. eauto.
Qed.

Lemma contains_all_chars p n s :
  all_chars p s = true → all_chars p n = false → Py.contains n s = false.
Proof.
  intros Hs Hn. induction s as [|c s IH].
  - cbn [Py.contains]. destruct (String.prefix n "") eqn:Hp; [|done].
    apply (prefix_all_chars p) in Hp; [congruence|done].
  - unfold Py.contains. fold Py.contains.
    destruct (String.prefix n (String c s)) eqn:Hp.
    + apply (prefix_all_chars p) in Hp; [congruence|done].
    + simpl in Hs. apply andb_prop in Hs as [_ Hs]. by rewrite IH.
Qed.

Lemma str_app_nil_r (s : string) : s ++ "" = s.
Proof. induction s; [done|]. by rewrite str_app_cons, IHs. Qed.

Lemma match_action_line a rest :
  a ≠ "" → all_chars Py.isword a = true →
  match_action_here ("Action: " ++ a ++ String "010" rest) = Some a.
Proof.
  intros Hne Ha. unfold match_action_here.
  change (Py.drop_prefix "Action:" ("Action: " ++ a ++ String "010" rest))
    with (Some (String " " (a ++ String "010" rest))).
  destruct a as [|c a]; [done|]. clear Hne.
  pose proof Ha as Hca. simpl in Hca. apply andb_prop in Hca as [Hc _].
  apply isword_not_space in Hc.
  rewrite str_app_cons. cbn [Py.span]. rewrite Hc.
  change (Py.isspace " ") with true. cbn [snd].
  rewrite <- str_app_cons. by rewrite span_app.
Qed.

Lemma action_line_no_input a :
  all_chars Py.isword a = true →
  Py.contains "Action Input:" ("Action: " ++ a) = false.
Proof.
  intros Ha.
  pose proof (contains_all_chars Py.isword "Action Input:" a Ha eq_refl) as Hc.
  change ("Action: " ++ a)
    with (String "A" (String "c" (String "t" (String "i" (String "o" (String "n"
            (String ":" (String " " a)))))))).
  do 8 (unfold Py.contains at 1; fold Py.contains;
        match goal with |- String.prefix ?n ?s || _ = false =>
          change (String.prefix n s) with false end; rewrite orb_false_l).
  exact Hc.
Qed.

Lemma strip_space c : Py.isspace c = true → Py.strip (String c "") = "".
Proof. intros H. unfold Py.strip. simpl. by rewrite H. Qed.

Lemma match_input_line i :
  all_chars (λ c, negb (Py.isnewline c)) i = true →
  ∃ i', match_input_here ("Action Input: " ++ i) = Some i'
        ∧ Py.strip i' = Py.strip i.
Proof.
  intros Hi. unfold match_input_here.
  change (Py.drop_prefix "Action Input:" ("Action Input: " ++ i))
    with (Some (String " " i)).
  cbv beta iota.
  pose proof (span_fst_all Py.isspace (String " " i)) as Hws.
  pose proof (span_app_eq Py.isspace (String " " i)) as Heq.
  pose proof (span_isspace_lstrip (String " " i)) as Hr1.
  change (Py.lstrip (String " " i)) with (Py.lstrip i) in Hr1.
  destruct (Py.span Py.isspace (String " " i)) as [ws r1]. cbn [fst snd] in *. subst r1.
  destruct (Py.lstrip i) as [|c r] eqn:Hl.
  - rewrite str_app_nil_r in Heq. subst ws.
    destruct (last_dot_is_Some (String " " i)) as [d Hd]; [done|done|].
    rewrite Hd. exists (String d ""). split; [done|].
    rewrite strip_space by (eapply last_dot_all; eauto).
    unfold Py.strip. by rewrite Hl.
  - exists (String c r). rewrite span_all.
    + split; [done|]. unfold Py.strip. by rewrite <- Hl, lstrip_idem.
    + rewrite <- Hl. by apply lstrip_all_chars.
Qed.

Lemma react_text_shape th a i :
  react_text th a i
  = "Thought: " ++ (th ++ String "010" (("Action: " ++ a)
                       ++ String "010" ("Action Input: " ++ i))).
Proof. unfold react_text, nl. by rewrite !str_app_assoc. Qed.

Lemma react_text_action th a i :
  Py.contains "Action:" th = false → a ≠ "" → all_chars Py.isword a = true →
  search_action (react_text th a i) = Some a.
Proof.
  intros Hth Hne Ha. rewrite react_text_shape.
  rewrite (search_action_skip "Thought: ") by reflexivity.
  rewrite search_action_skip_line by done.
  rewrite str_app_assoc.
  destruct (String.append "Action: " (a ++ String "010" ("Action Input: " ++ i)))
    as [|c s] eqn:Hs; [done|].
  unfold search_action. fold search_action.
  by rewrite <- Hs, match_action_line.
Qed.

Lemma react_text_input th a i :
  Py.contains "Action Input:" th = false → all_chars Py.isword a = true →
  all_chars (λ c, negb (Py.isnewline c)) i = true →
  ∃ i', search_action_input (react_text th a i) = Some i'
        ∧ Py.strip i' = Py.strip i.
Proof.
  intros Hth Ha Hi. rewrite react_text_shape.
  rewrite (search_action_input_skip "Thought: ") by reflexivity.
  rewrite search_action_input_skip_line by done.
  rewrite search_action_input_skip_line by (by apply action_line_no_input).
  destruct (match_input_line i Hi) as (i' & Hm & Hs).
  exists i'. split; [|done].
  destruct (String.append "Action Input: " i) as [|c s] eqn:Hs'; [done|].
  unfold search_action_input. fold search_action_input. by rewrite Hm.
Qed.

(** X17. A message in the output format of the system prompt is
    parsed back to what it was made of. When the thought holds neither
    label, the tool name is a non-empty word and the input is one line (even
    an empty one), the loop finds the tool name as it is and the input up to
    surrounding white space: the pass calls the dispatch with that name and
    the stripped input, and goes on or leaves through the goal-found exit
    according to the observation. *)
Theorem react_text_round_trip {DS : Type}
    (llm : list message → SimpleEnvironment → DS → result (string * DS))
    (st : loop_state DS) (th a i : string) (src' : DS) :
  Py.contains "Action:" th = false → Py.contains "Action Input:" th = false →
  a ≠ "" → all_chars Py.isword a = true →
  all_chars (λ c, negb (Py.isnewline c)) i = true →
  Py.startswith (react_text th a i) "Final Answer:" = false
  ∧ search_action (react_text th a i) = Some a
  ∧ (∃ i', search_action_input (react_text th a i) = Some i'
           ∧ Py.strip i' = Py.strip i)
  ∧ Py.strip a = a
  ∧ (llm (conversation_history st) (env st) (source st)
       = Ret (react_text th a i, src') →
     ∀ obs e', execute_action a (Py.strip i) (env st) = Ret (obs, e') →
       loop_body llm st
       = Ret (if Py.contains "SUCCESS" obs then Some GoalFound else None,
              {| env := e'; source := src';
                 conversation_history :=
                   (conversation_history st
                      ++ [assistant (react_text th a i); observation obs])%list;
                 console :=
                   (console st ++ print_executing a (Py.strip i)
                      :: (if Py.contains "SUCCESS" obs then [print_goal] else []))%list |})).
Proof.
  intros Hth Hth' Hne Ha Hi.
  assert (Hfin : Py.startswith (react_text th a i) "Final Answer:" = false)
    by reflexivity.
  pose proof (react_text_action th a i Hth Hne Ha) as Hact.
  destruct (react_text_input th a i Hth' Ha Hi) as (i' & Hinp & Hs).
  assert (Hstrip : Py.strip a = a).
  { apply strip_nospace. eapply all_chars_impl; [|exact Ha].
    intros c Hc. by rewrite (isword_not_space c Hc). }
  split; [done|]. split; [done|]. split; [by exists i'|]. split; [done|].
  intros Hllm obs e' Hex.
  rewrite (loop_body_action llm st _ src' a i' obs e' Hllm Hfin Hact Hinp);
    rewrite Hstrip, Hs; done.
Qed.

Lemma react_text_round_trip_witness :
  let msg := react_text "The way north is open." "move_agent" " NORTH " in
  let llm := λ (_ : list message) (_ : SimpleEnvironment) (s : unit), Ret (msg, s) in
  let st := {| env := set_pos init_env (2, 1); source := tt;
               conversation_history := initial_history; console := [] |} in
  loop_body llm st
  = Ret (None,
         {| env := init_env; source := tt;
            conversation_history :=
              (initial_history ++ [assistant msg; observation (msg_moved (1, 1))])%list;
            console := [print_executing "move_agent" "NORTH"] |}).
Proof.
  intros msg llm st.
  exact (proj2 (proj2 (proj2 (proj2
    (react_text_round_trip llm st "The way north is open." "move_agent" " NORTH " tt
       eq_refl eq_refl ltac:(discriminate) eq_refl eq_refl))))
    eq_refl (msg_moved (1, 1)) init_env eq_refl).
Defined.

(** ** Legal moves, operationally *)

Local Open Scope Z_scope.

Lemma replay_kinds_walk e ds obs e' :
  wf_grid (grid e) → replay ds e = Ret (obs, e') →
  Forall (λ o, kind_of o = Some KMoved ∨ kind_of o = Some KSuccess) obs →
  walk (grid e) (agent_pos e) ds (agent_pos e').
Proof.
  revert e obs. induction ds as [|d ds IH]; intros e obs Hwf; simpl.
  - intros [= <- <-] _. constructor.
  - destruct (step_target (Py.upper d) (agent_pos e).1 (agent_pos e).2) as [w|] eqn:Hst.
    + rewrite (move_agent_step _ _ _ Hwf Hst).
      destruct (free (grid e) w) eqn:Hfree; rewrite bind_Ret.
      * destruct (replay ds (set_pos e w)) as [[rest e'']| |] eqn:Hr; [|done..].
        rewrite bind_Ret. intros [= <- <-] [_ Hall]%Forall_cons.
        econstructor; [by split|]. exact (IH (set_pos e w) rest Hwf Hr Hall).
      * destruct (replay ds e) as [[rest e'']| |] eqn:Hr; [|done..].
        rewrite bind_Ret. intros [= <- <-] [[Hk|Hk] _]%Forall_cons; discriminate Hk.
    + rewrite (move_agent_invalid _ _ Hst), bind_Ret.
      destruct (replay ds e) as [[rest e'']| |] eqn:Hr; [|done..].
      rewrite bind_Ret. intros [= <- <-] [[Hk|Hk] _]%Forall_cons; discriminate Hk.
Qed.

(** X19. Sequences of legal moves are the sequences of directions
    that [move_agent] carries out without a miss: on a non-empty rectangular
    grid, a list of directions is a sequence of legal moves from the agent's
    position to a cell exactly when replaying it through [move_agent] moves
    the agent there with every observation a moved or a success
    observation; the grid and the memory log stay as they are. *)
Theorem walk_iff_replay (e : SimpleEnvironment) (ds : list string) (v : position) :
  wf_grid (grid e) →
  (walk (grid e) (agent_pos e) ds v
   ↔ ∃ obs, replay ds e = Ret (obs, set_pos e v)
            ∧ Forall (λ o, kind_of o = Some KMoved ∨ kind_of o = Some KSuccess) obs).
Proof.
  intros Hwf. split.
  - intros Hw. destruct (replay_walk_kinds e ds v Hwf Hw) as (obs & Hr & Hk & _). eauto.
  - intros (obs & Hr & Hk). exact (replay_kinds_walk e ds obs _ Hwf Hr Hk).
Qed.

Lemma walk_iff_replay_witness :
  walk init_grid (1, 1) ["south"; "South"; "EAST"] (3, 2).
Proof.
  apply (proj2 (walk_iff_replay init_env ["south"; "South"; "EAST"] (3, 2) wf_init_grid)).
  eexists. split; [reflexivity|]. repeat constructor.
Defined.

(** ** The plan visits no cell twice *)

Lemma cells_of_walk g u ds v :
  walk g u ds v →
  length (cells_of u ds) = S (length ds)
  ∧ last (cells_of u ds) = Some v
  ∧ Forall (λ p, free g p = true) (tail (cells_of u ds)).
Proof.
  induction 1 as [u|u d w ds v [Hst Hfree] Hw (IH1 & IH2 & IH3)]; [by repeat split|].
  simpl. rewrite Hst. split; [by rewrite IH1|]. split.
  - destruct (cells_of w ds) eqn:Hc; [done|]. done.
  - destruct ds; simpl in *; [by repeat constructor|].
    destruct (step_target _ _ _); constructor; done.
Qed.

Lemma walk_split g u ds v (i : nat) :
  walk g u ds v → (i ≤ length ds)%nat →
  ∃ w, cells_of u ds !! i = Some w
       ∧ walk g u (take i ds) w ∧ walk g w (drop i ds) v.
Proof.
  intros Hw. revert i. induction Hw as [u|u d w ds v Hed Hw IH]; intros i Hi.
  - simpl in Hi. assert (i = 0%nat) as -> by lia.
    exists u. repeat split; constructor.
  - destruct i as [|i].
    + exists u. split; [done|]. split; [constructor|]. econstructor; eauto.
    + simpl in Hi. destruct (IH i ltac:(lia)) as (x & Hx & H1 & H2).
      exists x. destruct Hed as [Hst Hfree]. simpl. rewrite Hst.
      split; [done|]. split; [|done]. econstructor; [by split|done].
Qed.

Lemma shortest_walk_simple g u ds v :
  walk g u ds v → (∀ ds', walk g u ds' v → (length ds ≤ length ds')%nat) →
  NoDup (cells_of u ds).
Proof.
  intros Hw Hmin. apply NoDup_alt. intros i j x Hi Hj.
  destruct (cells_of_walk _ _ _ _ Hw) as (Hlen & _).
  apply lookup_lt_Some in Hi as Hil. apply lookup_lt_Some in Hj as Hjl.
  assert (Hwlog : ∀ i j, (i < j)%nat → (j ≤ length ds)%nat →
                  cells_of u ds !! i = Some x → cells_of u ds !! j = Some x → False).
  { clear i j Hi Hj Hil Hjl. intros i j Hij Hj Hxi Hxj.
    destruct (walk_split g u ds v i Hw ltac:(lia)) as (a & Ha & Ha1 & _).
    destruct (walk_split g u ds v j Hw Hj) as (b & Hb & _ & Hb2).
    assert (a = x) as -> by congruence. assert (b = x) as -> by congruence.
    pose proof (walk_app _ _ _ _ _ _ Ha1 Hb2) as Hshort.
    specialize (Hmin _ Hshort).
    rewrite length_app, length_take, length_drop in Hmin. lia. }
  destruct (Nat.lt_trichotomy i j) as [Hlt|[->|Hgt]]; [|done|].
  - destruct (Hwlog i j); auto; lia.
  - destruct (Hwlog j i); auto; lia.
Qed.

(** X20. The plan leads through no cell twice. On a non-empty
    rectangular grid, the cells the planner's directions lead through from
    the start are pairwise distinct, one more than there are directions;
    the last one is the first Goal cell, and every cell after the start is
    inside the grid and not a wall. *)
Theorem plan_is_simple (g : list (list cell)) (start t : position)
    (path : list string) :
  wf_grid g → first_goal g t → plan_path g start = Ret (Path t path) →
  NoDup (cells_of start path)
  ∧ length (cells_of start path) = S (length path)
  ∧ last (cells_of start path) = Some t
  ∧ Forall (λ p, free g p = true) (tail (cells_of start path)).
Proof.
  intros Hwf Hfirst Hplan.
  destruct (plan_path_goal g start t Hwf Hfirst)
    as [(path' & Hplan' & Hwalk & _ & Hmin)|[Hno _]]; [|congruence].
  rewrite Hplan in Hplan'. injection Hplan' as <-.
  destruct (cells_of_walk _ _ _ _ Hwalk) as (Hlen & Hlast & Hfree).
  split; [by apply (shortest_walk_simple g start path t)|]. done.
Qed.

Lemma plan_is_simple_witness :
  NoDup (cells_of (1, 1) init_path)
  ∧ length (cells_of (1, 1) init_path) = 7%nat
  ∧ last (cells_of (1, 1) init_path) = Some (2, 4)
  ∧ Forall (λ p, free init_grid p = true) (tail (cells_of (1, 1) init_path)).
Proof.
  exact (plan_is_simple init_grid (1, 1) (2, 4) init_path wf_init_grid init_first_goal
           init_plan_path).
Defined.


(** ** Where the success token comes from *)

Lemma contains_success_update_map k :
  Py.contains "SUCCESS" ("OBSERVATION: Map memory updated for location " ++ k ++ ".")
  = Py.contains "SUCCESS" k.
Proof.
  change ("OBSERVATION: Map memory updated for location " ++ k ++ ".")
    with ("OBSERVATION: Map memory updated for location"
            ++ String " " (k ++ String "." "")).
  rewrite !(contains_sep "SUCCESS") by reflexivity.
  change (Py.contains "SUCCESS" "OBSERVATION: Map memory updated for location")
    with false.
  change (Py.contains "SUCCESS" "") with false.
  by rewrite orb_false_r.
Qed.

(** X21. The loop takes an observation for success when the success
    token occurs anywhere in it. On a non-empty rectangular grid, the
    dispatch returns such an observation in three cases only: [move_agent]
    has just moved the agent onto a Goal cell; [update_map] has logged an
    entry whose key contains the token, which the observation repeats; the
    tool name is not in the registry and contains the token, which the
    error observation repeats. In the last two cases the agent has not
    moved. *)
Theorem success_token_causes (a i : string) (e e' : SimpleEnvironment) (obs : string) :
  wf_grid (grid e) → execute_action a i e = Ret (obs, e') →
  Py.contains "SUCCESS" obs = true →
  (a = "move_agent" ∧ obs = msg_success ∧ agent_pos e' ≠ agent_pos e
   ∧ cell_at (grid e) (agent_pos e') = Some Treasure)
  ∨ (a = "update_map"
     ∧ Py.contains "SUCCESS" (Py.strip (Py.split_comma1 i).1) = true
     ∧ is_Some (map_memory e' !! Py.strip (Py.split_comma1 i).1)
     ∧ agent_pos e' = agent_pos e)
  ∨ (AVAILABLE_TOOLS !! a = None ∧ Py.contains "SUCCESS" a = true ∧ e' = e).
Proof.
  intros Hwf Hex Hs. unfold execute_action in Hex.
  destruct (AVAILABLE_TOOLS !! a) as [t|] eqn:Ht; cycle 1.
  { injection Hex as <- <-. right; right.
    by rewrite contains_success_unknown in Hs. }
  destruct (String.eqb_spec a "update_map") as [->|Hne].
  { injection Hex as <- <-. right; left. rewrite contains_success_update_map in Hs.
    split; [done|]. split; [done|]. simpl. by rewrite lookup_insert_eq. }
  destruct t; simpl in Hex.
  - apply available_tools_move in Ht as ->. left. split; [done|].
    destruct (move_agent_wf_returns i e Hwf) as [[obs1 e1] Hm].
    rewrite Hm in Hex. injection Hex as -> ->.
    destruct (step_target (Py.upper i) (agent_pos e).1 (agent_pos e).2) as [v|] eqn:Hst;
      cycle 1.
    { rewrite (move_agent_invalid _ _ Hst) in Hm. injection Hm as <- <-. done. }
    rewrite (move_agent_step _ _ _ Hwf Hst) in Hm.
    destruct (free (grid e) v) eqn:Hfree; cycle 1.
    { injection Hm as <- <-. done. }
    destruct (decide (cell_at (grid e) v = Some Treasure)) as [Hv|Hv].
    + injection Hm as <- <-. split; [done|]. split; [|done]. simpl.
      apply step_target_neq in Hst. by destruct (agent_pos e).
    + injection Hm as <- <-. by rewrite contains_success_moved in Hs.
  - injection Hex as <- <-.
    assert (Ha : a = "look_around").
    { revert Ht. unfold AVAILABLE_TOOLS. rewrite !lookup_insert_Some, lookup_empty.
      intros [[? ?]|[_ [[? _]|[_ [[_ ?]|[_ [[_ ?]|[_ ?]]]]]]]]; done. }
    subst a. done.
  - exfalso. apply Hne. revert Ht. unfold AVAILABLE_TOOLS.
    rewrite !lookup_insert_Some, lookup_empty.
    intros [[? ?]|[_ [[_ ?]|[_ [[? _]|[_ [[_ ?]|[_ ?]]]]]]]]; done.
  - injection Hex as <- <-.
    assert (Ha : a = "get_pos").
    { revert Ht. unfold AVAILABLE_TOOLS. rewrite !lookup_insert_Some, lookup_empty.
      intros [[? ?]|[_ [[_ ?]|[_ [[_ ?]|[_ [[? _]|[_ ?]]]]]]]]; done. }
    subst a. done.
Qed.

Lemma success_token_causes_witness :
  let i := "SUCCESS story, chapter one" in
  ∃ obs e',
    execute_action "update_map" i init_env = Ret (obs, e')
    ∧ Py.contains "SUCCESS" obs = true
    ∧ agent_pos e' = (1, 1)
    ∧ cell_at init_grid (agent_pos e') ≠ Some Treasure.
Proof.
  intros i. eexists _, _. split; [reflexivity|]. split; [reflexivity|].
  destruct (success_token_causes "update_map" i init_env _ _ wf_init_grid
              eq_refl eq_refl) as [(Ha & _)|[(_ & _ & _ & Hp)|(Hn & _)]].
  - discriminate Ha.
  - split; [exact Hp|]. discriminate.
  - discriminate Hn.
Defined.


(** ** The answers of the planner *)

Lemma first_goal_unique g t t' : first_goal g t → first_goal g t' → t = t'.
Proof.
  intros [Ht Hmin] [Ht' Hmin'].
  specialize (Hmin t' Ht'). specialize (Hmin' t Ht).
  unfold row_major_le in *. destruct t, t'. simpl in *. f_equal; lia.
Qed.

(** X22. The answer of the planner tells the situation. On a
    non-empty rectangular grid, with a plan cache that is fresh or stands
    for another position, a decision request returns, and its message is
    the no-goal message exactly when the grid has no Goal cell; the success
    message exactly when the agent stands on the first Goal cell; the
    no-path message exactly when the first Goal cell cannot be reached from
    the agent's position; a move message exactly when the agent is off the
    first Goal cell and can reach it. The no-further-steps message is never
    the answer. *)
Theorem planner_answers (e : SimpleEnvironment) (cache : option plan_cache)
    (h : list message) :
  wf_grid (grid e) → stale e cache →
  ∃ msg cache',
    get_llm_response h e cache = Ret (msg, cache')
    ∧ (msg = msg_no_treasure ↔ ∀ p, cell_at (grid e) p ≠ Some Treasure)
    ∧ (msg = msg_final_success ↔ first_goal (grid e) (agent_pos e))
    ∧ (msg = msg_no_path ↔
       ∃ t, first_goal (grid e) t ∧ ∀ ds, ¬ walk (grid e) (agent_pos e) ds t)
    ∧ ((∃ d rest, msg = react_message rest d) ↔
       ∃ t, first_goal (grid e) t ∧ agent_pos e ≠ t
            ∧ ∃ ds, walk (grid e) (agent_pos e) ds t)
    ∧ msg ≠ msg_no_steps.
Proof.
  intros Hwf Hstale.
  assert (Hreact : ∀ rest d m, Py.startswith m "Final Answer:" = true →
                   react_message rest d ≠ m).
  { intros rest d m Hm Heq. rewrite <- Heq in Hm. discriminate Hm. }
  destruct (goal_dichotomy (grid e) Hwf) as [Hno|[t Hfirst]].
  { exists msg_no_treasure, cache.
    split; [by apply get_llm_response_no_goal|].
    assert (Hnf : ∀ t, ¬ first_goal (grid e) t) by (intros t [Ht _]; by destruct (Hno t)).
    split; [done|]. split; [split; [done|by intros ?%Hnf]|].
    split; [split; [done|by intros (t & ?%Hnf & _)]|].
    split; [|done]. split.
    - intros (d & rest & Heq). symmetry in Heq. by apply Hreact in Heq.
    - by intros (t & ?%Hnf & _). }
  assert (Hgoal : ¬ ∀ p, cell_at (grid e) p ≠ Some Treasure).
  { intros Hno. destruct Hfirst as [Ht _]. by destruct (Hno t). }
  destruct (decide (agent_pos e = t)) as [Heq|Hne].
  { destruct (get_llm_response_on_goal h e cache t Hwf Hfirst Heq Hstale) as [_ Hresp].
    eexists _, _. split; [exact Hresp|].
    split; [split; [done|by intros ?%Hgoal]|].
    split; [split; [by rewrite Heq|done]|].
    split.
    { split; [done|]. intros (t' & Hf' & Hun).
      rewrite (first_goal_unique _ _ _ Hf' Hfirst) in Hun.
      destruct (Hun []). rewrite Heq. constructor. }
    split; [|done]. split.
    - intros (d & rest & Hm). symmetry in Hm. by apply Hreact in Hm.
    - intros (t' & Hf' & Hne' & _).
      by rewrite (first_goal_unique _ _ _ Hf' Hfirst) in Hne'. }
  assert (Hoff : ¬ first_goal (grid e) (agent_pos e)).
  { intros Hf'. by apply Hne, (first_goal_unique _ _ _ Hf' Hfirst). }
  destruct (plan_path_goal (grid e) (agent_pos e) t Hwf Hfirst)
    as [(path & _ & Hwalk & _)|[_ Hnone]].
  - destruct (get_llm_response_replan h e cache t Hwf Hfirst (ex_intro _ _ Hwalk) Hne Hstale)
      as (d & rest & _ & _ & _ & _ & Hresp).
    eexists _, _. split; [exact Hresp|].
    split; [split; [by intros ?%Hreact|by intros ?%Hgoal]|].
    split; [split; [by intros ?%Hreact|by intros ?%Hoff]|].
    split.
    { split; [by intros ?%Hreact|]. intros (t' & Hf' & Hun).
      rewrite (first_goal_unique _ _ _ Hf' Hfirst) in Hun. by destruct (Hun path). }
    split; [|by apply Hreact]. split; [|by eauto].
    intros _. exists t. eauto.
  - exists msg_no_path, cache.
    split; [by apply (get_llm_response_no_path _ e cache t)|].
    split; [split; [done|by intros ?%Hgoal]|].
    split; [split; [done|by intros ?%Hoff]|].
    split; [split; [by eauto|done]|].
    split; [|done]. split.
    + intros (d & rest & Hm). symmetry in Hm. by apply Hreact in Hm.
    + intros (t' & Hf' & _ & ds & Hds).
      rewrite (first_goal_unique _ _ _ Hf' Hfirst) in Hds. by destruct (Hnone ds).
Qed.

Lemma planner_answers_witness :
  ∃ msg cache',
    get_llm_response [] init_env None = Ret (msg, cache')
    ∧ (∃ d rest, msg = react_message rest d)
    ∧ msg ≠ msg_no_steps.
Proof.
  destruct (planner_answers init_env None [] wf_init_grid I)
    as (msg & cache' & Hresp & _ & _ & _ & Hmove & Hns).
  exists msg, cache'. split; [exact Hresp|]. split; [|exact Hns].
  apply Hmove. exists (2, 4). split; [exact init_first_goal|].
  split; [discriminate|]. exists init_path. exact init_walk.
Defined.


(** ** The scan for Goal cells *)

Lemma sorted_filter {A} (R : relation A) (P : A → Prop) `{!∀ x, Decision (P x)} l :
  StronglySorted R l → StronglySorted R (filter P l).
Proof.
  induction 1 as [|x l Hs IH Hall]; [constructor|].
  rewrite filter_cons. destruct (decide (P x)); [|done].
  constructor; [done|]. rewrite Forall_forall in Hall |- *.
  intros y [_ Hy]%list_elem_of_filter. auto.
Qed.

(** X23. The scan for Goal cells, on a non-empty rectangular grid:
    the list of targets holds exactly the Goal cells of the grid, in
    strictly increasing row-major order (so none twice), and its head, the
    target the planner searches for, is the first Goal cell; it is empty
    exactly when the grid has no Goal cell. *)
Theorem treasure_scan (g : list (list cell)) :
  wf_grid g →
  ∃ targets,
    treasure_cells g (all_cells (Py.len g) (width g)) = Ret targets
    ∧ (∀ p, p ∈ targets ↔ cell_at g p = Some Treasure)
    ∧ StronglySorted row_major_lt targets
    ∧ (∀ t, head targets = Some t ↔ first_goal g t)
    ∧ (targets = [] ↔ ∀ p, cell_at g p ≠ Some Treasure).
Proof.
  intros Hwf. eexists. split; [by apply targets_all_cells|].
  set (l := all_cells (Py.len g) (width g)).
  set (P := λ p : position, cell_at g p = Some Treasure).
  assert (Hin : ∀ p, p ∈ filter P l ↔ cell_at g p = Some Treasure).
  { intros p. rewrite list_elem_of_filter. split; [tauto|]. intros Hp.
    split; [done|]. destruct p as [r c]. apply elem_of_all_cells.
    eapply cell_at_bounds; eauto. }
  assert (Hsorted : StronglySorted row_major_lt (filter P l))
    by apply sorted_filter, sorted_all_cells.
  split; [done|]. split; [done|]. split.
  - intros t. split.
    + destruct (filter P l) as [|x rest] eqn:Hf; [done|]. intros [= ->].
      split; [apply Hin; by left|]. intros p Hp. apply Hin in Hp.
      apply StronglySorted_cons in Hsorted as [Hlt _]. rewrite Forall_forall in Hlt.
      apply elem_of_cons in Hp as [->|Hp]; [unfold row_major_le; lia|].
      specialize (Hlt p Hp). unfold row_major_lt, row_major_le in *. lia.
    + intros Hfirst. destruct (targets_first g t Hwf Hfirst) as [rest Hr].
      rewrite targets_all_cells in Hr by done. injection Hr as Hr.
      fold l P in Hr. by rewrite Hr.
  - split.
    + intros Hnil p Hp. apply Hin in Hp. rewrite Hnil in Hp. by apply elem_of_nil in Hp.
    + intros Hno. destruct (filter P l) as [|x rest] eqn:Hf; [done|].
      destruct (Hno x). apply Hin. by left.
Qed.

Lemma treasure_scan_witness :
  ∃ targets,
    treasure_cells init_grid (all_cells 5 5) = Ret targets
    ∧ (∀ p, p ∈ targets ↔ cell_at init_grid p = Some Treasure)
    ∧ StronglySorted row_major_lt targets
    ∧ (∀ t, head targets = Some t ↔ first_goal init_grid t)
    ∧ (targets = [] ↔ ∀ p, cell_at init_grid p ≠ Some Treasure).
Proof. exact (treasure_scan init_grid wf_init_grid). Defined.

(** ** Distances *)

Lemma edge_manhattan g u d w v :
  edge g u d w →
  manhattan u v = manhattan w v + 1 ∨ manhattan u v = manhattan w v - 1.
Proof.
  intros [Hst _]. unfold manhattan.
  destruct (step_target_cases (Py.upper d) u.1 u.2)
    as [[_ H]|[[_ H]|[[_ H]|[[_ H]|[_ H]]]]]; rewrite H in Hst;
    [injection Hst as <-; simpl; lia..|done].
Qed.

Lemma walk_manhattan g u ds v :
  walk g u ds v →
  ∃ k, 0 ≤ k ∧ Z.of_nat (length ds) = manhattan u v + 2 * k.
Proof.
  induction 1 as [u|u d w ds v Hed Hw (k & Hk & IH)].
  - exists 0. unfold manhattan. simpl. lia.
  - destruct (edge_manhattan g u d w v Hed) as [H|H].
    + exists k. simpl length. lia.
    + exists (k + 1). simpl length. lia.
Qed.

(** X24. Moves and the Manhattan distance. On a non-empty rectangular
    grid, a replay of [n] directions through [move_agent] leaves the agent
    at most [n] rows and columns, counted together, from where it was. The
    planner's direction list is at least as long as the Manhattan distance
    from the start to the first Goal cell, which it exceeds by an even
    number: by twice the number of moves that lead away from the Goal. *)
Theorem plan_manhattan (e : SimpleEnvironment) (t : position) (path : list string) :
  wf_grid (grid e) →
  (∀ ds obs e', replay ds e = Ret (obs, e') →
     manhattan (agent_pos e) (agent_pos e') ≤ Z.of_nat (length ds))
  ∧ (first_goal (grid e) t →
     plan_path (grid e) (agent_pos e) = Ret (Path t path) →
     ∃ k, 0 ≤ k ∧ Z.of_nat (length path) = manhattan (agent_pos e) t + 2 * k).
Proof.
  intros Hwf. split.
  - intros ds obs e' Hr.
    destruct (replay_shorter_walk e ds obs e' Hwf Hr) as (ds' & Hw & Hlen).
    destruct (walk_manhattan _ _ _ _ Hw) as (k & Hk & Heq). lia.
  - intros Hfirst Hplan.
    destruct (plan_path_goal (grid e) (agent_pos e) t Hwf Hfirst)
      as [(path' & Hplan' & Hwalk & _)|[Hno _]]; [|congruence].
    rewrite Hplan in Hplan'. injection Hplan' as <-.
    by apply (walk_manhattan (grid e)).
Qed.

Lemma plan_manhattan_witness :
  manhattan (1, 1) (2, 4) = 4
  ∧ ∃ k, 0 ≤ k ∧ Z.of_nat (length init_path) = manhattan (1, 1) (2, 4) + 2 * k.
Proof.
  split; [reflexivity|].
  exact (proj2 (plan_manhattan init_env (2, 4) init_path wf_init_grid)
           init_first_goal init_plan_path).
Defined.


(** ** The two patterns of the loop, against their matches *)

Local Open Scope string_scope.

Lemma drop_prefix_app p r : Py.drop_prefix p (p ++ r) = Some r.
Proof.
  induction p as [|a p IH]; [done|]. rewrite str_app_cons. simpl.
  by rewrite Ascii.eqb_refl.
Qed.

Lemma str_app_length_inv (a b x y : string) :
  a ++ x = b ++ y → String.length a = String.length b → a = b ∧ x = y.
Proof.
  revert b. induction a as [|c a IH]; intros [|c' b] H Hl; try done.
  rewrite !str_app_cons in H. injection H as -> H. simpl in Hl.
  destruct (IH b H) as [-> ->]; [lia|done].
Qed.

Lemma span_prefix_max p ws x :
  all_chars p ws = true →
  (String.length ws ≤ String.length (Py.span p (ws ++ x)).1)%nat.
Proof.
  induction ws as [|c ws IH]; [simpl; lia|].
  intros [Hc Hws]%andb_prop. rewrite str_app_cons. simpl. rewrite Hc.
  specialize (IH Hws). destruct (Py.span p (ws ++ x)). simpl in *. lia.
Qed.

(** A run of matching characters that ends where the text ends or a
    character does not match is what [span] takes. *)
Lemma span_run p a rest :
  all_chars p a = true →
  match rest with EmptyString => True | String c _ => p c = false end →
  Py.span p (a ++ rest) = (a, rest).
Proof.
  intros Ha Hrest. destruct rest as [|c r].
  - rewrite str_app_nil_r. by apply span_all.
  - by apply span_app.
Qed.

Lemma last_dot_None s : last_dot s = None → all_chars Py.isnewline s = true.
Proof.
  induction s as [|c s IH]; [done|]. simpl.
  destruct (last_dot s); [done|]. destruct (Py.isnewline c); [auto|done].
Qed.

Lemma last_dot_split s d :
  last_dot s = Some d →
  ∃ s1 s2, s = s1 ++ String d s2 ∧ Py.isnewline d = false
           ∧ all_chars Py.isnewline s2 = true.
Proof.
  induction s as [|c s IH]; [done|]. simpl.
  destruct (last_dot s) as [d'|] eqn:Hl.
  - intros [= ->]. destruct (IH eq_refl) as (s1 & s2 & -> & Hd & Hs2).
    by exists (String c s1), s2.
  - destruct (Py.isnewline c) eqn:Hc; [done|]. intros [= <-].
    exists "", s. split; [done|]. split; [done|]. by apply last_dot_None.
Qed.

Lemma newline_tail_bound s1 d s2 ws c x :
  s1 ++ String d s2 = ws ++ String c x →
  all_chars Py.isnewline s2 = true → Py.isnewline c = false →
  (String.length ws ≤ String.length s1)%nat.
Proof.
  revert ws. induction s1 as [|e s1 IH]; intros [|e' ws] H Hs2 Hc; simpl; try lia.
  - change ("" ++ String d s2) with (String d s2) in H.
    rewrite str_app_cons in H. injection H as _ H. rewrite H in Hs2.
    rewrite all_chars_app in Hs2. simpl in Hs2. rewrite Hc in Hs2.
    by rewrite andb_false_r in Hs2.
  - rewrite !str_app_cons in H. injection H as _ H.
    specialize (IH ws H Hs2 Hc). lia.
Qed.

(** *** The action pattern *)

Lemma match_action_here_spec s a :
  match_action_here s = Some a ↔ action_match s "" a.
Proof.
  unfold match_action_here, action_match. split.
  - destruct (Py.drop_prefix "Action:" s) as [r|] eqn:Hd; [|done].
    apply drop_prefix_Some in Hd as ->.
    pose proof (span_fst_all Py.isspace r) as Hws.
    pose proof (span_app_eq Py.isspace r) as Hr.
    destruct (Py.span Py.isspace r) as [ws r1]. cbn [fst snd] in *.
    pose proof (span_fst_all Py.isword r1) as Hw.
    pose proof (span_app_eq Py.isword r1) as Hr1.
    pose proof (span_snd_head Py.isword r1) as Hhead.
    destruct (Py.span Py.isword r1) as [w r2]. cbn [fst snd] in *.
    destruct w as [|c w]; [done|]. intros [= <-].
    exists ws, r2. split; [by rewrite Hr1, Hr|]. split; [done|].
    split; [done|]. split; [done|]. destruct r2; [done|]. by eapply Hhead.
  - intros (ws & rest & -> & Hws & Hne & Ha & Hrest).
    change ("" ++ "Action:" ++ ws ++ a ++ rest) with ("Action:" ++ (ws ++ a ++ rest)).
    rewrite drop_prefix_app.
    destruct a as [|c a]; [done|].
    pose proof Ha as Hc. simpl in Hc. apply andb_prop in Hc as [Hc _].
    rewrite str_app_cons, (span_app Py.isspace ws c (a ++ rest) Hws)
      by (by apply isword_not_space).
    cbn [snd]. rewrite <- str_app_cons, (span_run Py.isword _ rest Ha Hrest).
    done.
Qed.

Lemma action_match_nil pre a : ¬ action_match "" pre a.
Proof.
  intros (ws & rest & H & _). destruct pre; discriminate H.
Qed.

Lemma action_match_cons c m c' p a :
  action_match (String c m) (String c' p) a ↔ c = c' ∧ action_match m p a.
Proof.
  unfold action_match. split.
  - intros (ws & rest & H & ?). rewrite str_app_cons in H. injection H as -> ->.
    split; [done|]. by exists ws, rest.
  - intros [-> (ws & rest & -> & ?)]. exists ws, rest. by rewrite str_app_cons.
Qed.

Lemma search_action_cons c m :
  search_action (String c m)
  = match match_action_here (String c m) with
    | Some w => Some w
    | None => search_action m
    end.
Proof. reflexivity. Qed.

(** [search_action] returns group 1 of the leftmost match. *)
Lemma search_action_spec msg a :
  search_action msg = Some a ↔ action_found msg a.
Proof.
  unfold action_found. revert a. induction msg as [|c m IH]; intros a.
  - split; [done|]. intros (pre & H & _). by apply action_match_nil in H.
  - rewrite search_action_cons.
    destruct (match_action_here (String c m)) as [w|] eqn:Hhere.
    + apply match_action_here_spec in Hhere. split.
      * intros [= <-]. exists "". split; [done|]. intros; simpl; lia.
      * intros (pre & Hm & Hleft). specialize (Hleft "" w Hhere).
        destruct pre; [|simpl in Hleft; lia].
        apply match_action_here_spec in Hm, Hhere. congruence.
    + assert (Hno : ∀ a', ¬ action_match (String c m) "" a').
      { intros a' H. apply match_action_here_spec in H. congruence. }
      rewrite IH. split.
      * intros (pre & Hm & Hleft). exists (String c pre).
        split; [by apply action_match_cons|].
        intros [|c' p'] a' H'; [by destruct (Hno a')|].
        apply action_match_cons in H' as [_ H']. specialize (Hleft _ _ H').
        simpl. lia.
      * intros ([|c' pre] & Hm & Hleft); [by destruct (Hno a)|].
        apply action_match_cons in Hm as [<- Hm]. exists pre. split; [done|].
        intros p' a' H'.
        specialize (Hleft (String c p') a' ltac:(by apply action_match_cons)).
        simpl in Hleft. lia.
Qed.

Lemma search_action_marker msg :
  has_action_marker msg → is_Some (search_action msg).
Proof.
  unfold has_action_marker. induction msg as [|c m IH].
  - intros (pre & a & H). by apply action_match_nil in H.
  - intros (pre & a & H). rewrite search_action_cons.
    destruct (match_action_here (String c m)) as [w|] eqn:Hhere; [by eauto|].
    destruct pre as [|c' p].
    + apply match_action_here_spec in H. congruence.
    + apply action_match_cons in H as [_ H]. apply IH. eauto.
Qed.

Lemma search_action_None msg :
  search_action msg = None ↔ ¬ has_action_marker msg.
Proof.
  split.
  - intros Hn Hm. apply search_action_marker in Hm as [a Ha]. congruence.
  - intros Hm. destruct (search_action msg) as [a|] eqn:Ha; [|done].
    apply search_action_spec in Ha as (pre & Ha & _). destruct Hm. by exists pre, a.
Qed.

(** *** The input pattern *)

Lemma match_input_here_group s i :
  match_input_here s = Some i → input_group s "" i.
Proof.
  unfold match_input_here, input_group, input_match.
  destruct (Py.drop_prefix "Action Input:" s) as [r|] eqn:Hd; [|done].
  apply drop_prefix_Some in Hd as ->.
  pose proof (span_fst_all Py.isspace r) as Hws.
  pose proof (span_app_eq Py.isspace r) as Hr.
  pose proof (span_snd_head Py.isspace r) as Hhead.
  pose proof (λ ws x, span_prefix_max Py.isspace ws x) as Hmax.
  destruct (Py.span Py.isspace r) as [wsm r1] eqn:Hspan. cbn [fst snd] in *.
  destruct r1 as [|c r1].
  - rewrite str_app_nil_r in Hr. subst r.
    destruct (last_dot wsm) as [d|] eqn:Hl; [|done]. intros [= <-].
    destruct (last_dot_split _ _ Hl) as (s1 & s2 & -> & Hd & Hs2).
    rewrite all_chars_app in Hws. apply andb_prop in Hws as [Hs1 _].
    exists s1. split.
    + exists s2. split; [done|]. split; [done|]. split; [done|].
      split; [simpl; by rewrite Hd|]. destruct s2 as [|x s2]; [done|].
      simpl in Hs2. by apply andb_prop in Hs2 as [? _].
    + intros ws' i' (rest' & H & Hws' & Hne' & Hi' & _).
      change ("" ++ "Action Input:" ++ ?x) with ("Action Input:" ++ x) in H.
      apply str_app_inv_head in H.
      destruct i' as [|c' i']; [done|]. simpl in Hi'.
      apply andb_prop in Hi' as [Hc' _]. apply negb_true_iff in Hc'.
      rewrite str_app_cons in H. by eapply newline_tail_bound.
  - specialize (Hhead c r1 eq_refl).
    assert (Hc : Py.isnewline c = false).
    { destruct (Py.isnewline c) eqn:Hn; [|done]. apply isspace_newline in Hn. congruence. }
    pose proof (span_fst_all (λ c, negb (Py.isnewline c)) (String c r1)) as Hi.
    pose proof (span_app_eq (λ c, negb (Py.isnewline c)) (String c r1)) as Hi2.
    pose proof (span_snd_head (λ c, negb (Py.isnewline c)) (String c r1)) as Hi3.
    assert (Hne : (Py.span (λ c, negb (Py.isnewline c)) (String c r1)).1 ≠ "").
    { simpl. rewrite Hc. simpl. by destruct (Py.span _ r1). }
    destruct (Py.span (λ c, negb (Py.isnewline c)) (String c r1)) as [i0 rest0].
    cbn [fst snd] in *. intros [= <-]. exists wsm. split.
    + exists rest0. split; [by rewrite Hi2, Hr|]. split; [done|]. split; [done|].
      split; [done|]. destruct rest0 as [|x rest0]; [done|].
      specialize (Hi3 x rest0 eq_refl). by apply negb_false_iff in Hi3.
    + intros ws' i' (rest' & H & Hws' & _).
      change ("" ++ "Action Input:" ++ ?x) with ("Action Input:" ++ x) in H.
      apply str_app_inv_head in H.
      specialize (Hmax ws' (i' ++ rest') Hws'). by rewrite <- H, Hspan in Hmax.
Qed.

Lemma match_input_here_is_Some s ws i :
  input_match s "" ws i → is_Some (match_input_here s).
Proof.
  intros (rest & -> & Hws & Hne & Hi & _). unfold match_input_here.
  change ("" ++ "Action Input:" ++ ws ++ i ++ rest)
    with ("Action Input:" ++ (ws ++ i ++ rest)).
  rewrite drop_prefix_app.
  pose proof (span_app_eq Py.isspace (ws ++ i ++ rest)) as Hr.
  destruct (Py.span Py.isspace (ws ++ i ++ rest)) as [wsm r1]. cbn [fst snd] in *.
  destruct r1 as [|c r1]; [|by eauto].
  destruct (last_dot wsm) as [d|] eqn:Hl; [by eauto|].
  apply last_dot_None in Hl. rewrite str_app_nil_r in Hr. subst wsm.
  destruct i as [|c i]; [done|]. simpl in Hi. apply andb_prop in Hi as [Hc _].
  apply negb_true_iff in Hc.
  rewrite all_chars_app in Hl. apply andb_prop in Hl as [_ Hl].
  rewrite str_app_cons in Hl. simpl in Hl. by rewrite Hc in Hl.
Qed.

Lemma input_group_unique s pre i i' :
  input_group s pre i → input_group s pre i' → i = i'.
Proof.
  intros (ws & Hm & Hmax) (ws' & Hm' & Hmax').
  pose proof (Hmax _ _ Hm') as H1. pose proof (Hmax' _ _ Hm) as H2.
  destruct Hm as (rest & -> & _ & _ & Hi & Hrest).
  destruct Hm' as (rest' & H & _ & _ & Hi' & Hrest').
  apply str_app_inv_head, str_app_inv_head in H.
  apply str_app_length_inv in H as [-> H]; [|lia].
  apply (f_equal (Py.span (λ c, negb (Py.isnewline c)))) in H.
  rewrite !span_run in H; try done.
  - by injection H.
  - destruct rest'; [done|]. by rewrite Hrest'.
  - destruct rest; [done|]. by rewrite Hrest.
Qed.

Lemma match_input_here_spec s i :
  match_input_here s = Some i ↔ input_group s "" i.
Proof.
  split; [apply match_input_here_group|].
  intros Hg. pose proof Hg as (ws & Hm & _).
  destruct (match_input_here_is_Some _ _ _ Hm) as [i0 Hi0].
  rewrite Hi0. f_equal. apply match_input_here_group in Hi0.
  exact (input_group_unique s "" i0 i Hi0 Hg).
Qed.

Lemma input_match_nil pre ws i : ¬ input_match "" pre ws i.
Proof. intros (rest & H & _). destruct pre; discriminate H. Qed.

Lemma input_match_cons c m c' p ws i :
  input_match (String c m) (String c' p) ws i ↔ c = c' ∧ input_match m p ws i.
Proof.
  unfold input_match. split.
  - intros (rest & H & ?). rewrite str_app_cons in H. injection H as -> ->.
    split; [done|]. by exists rest.
  - intros [-> (rest & -> & ?)]. exists rest. by rewrite str_app_cons.
Qed.

Lemma input_group_cons c m p i :
  input_group (String c m) (String c p) i ↔ input_group m p i.
Proof.
  unfold input_group. split.
  - intros (ws & Hm & Hmax). exists ws. split; [by apply input_match_cons in Hm as [_ ?]|].
    intros ws' i' H'. apply (Hmax ws' i'). by apply input_match_cons.
  - intros (ws & Hm & Hmax). exists ws. split; [by apply input_match_cons|].
    intros ws' i' H'. apply input_match_cons in H' as [_ H']. by apply (Hmax ws' i').
Qed.

Lemma search_action_input_cons c m :
  search_action_input (String c m)
  = match match_input_here (String c m) with
    | Some w => Some w
    | None => search_action_input m
    end.
Proof. reflexivity. Qed.

(** [search_action_input] returns group 1 of the leftmost match. *)
Lemma search_action_input_spec msg i :
  search_action_input msg = Some i ↔ input_found msg i.
Proof.
  unfold input_found. revert i. induction msg as [|c m IH]; intros i.
  - split; [done|]. intros (pre & (ws & H & _) & _). by apply input_match_nil in H.
  - rewrite search_action_input_cons.
    destruct (match_input_here (String c m)) as [w|] eqn:Hhere.
    + apply match_input_here_spec in Hhere. split.
      * intros [= <-]. exists "". split; [done|]. intros; simpl; lia.
      * intros (pre & Hm & Hleft).
        pose proof Hhere as (ws0 & Hm0 & _).
        specialize (Hleft "" ws0 w Hm0).
        destruct pre; [|simpl in Hleft; lia].
        f_equal. exact (input_group_unique _ "" _ _ Hhere Hm).
    + assert (Hno : ∀ ws' i', ¬ input_match (String c m) "" ws' i').
      { intros ws' i' H. apply match_input_here_is_Some in H as [? H]. congruence. }
      rewrite IH. split.
      * intros (pre & Hm & Hleft). exists (String c pre).
        split; [by apply input_group_cons|].
        intros [|c' p'] ws' i' H'; [by destruct (Hno ws' i')|].
        apply input_match_cons in H' as [_ H']. specialize (Hleft _ _ _ H').
        simpl. lia.
      * intros ([|c' pre] & Hm & Hleft).
        { destruct Hm as (ws & Hm & _). by destruct (Hno ws i). }
        assert (c' = c) as ->.
        { destruct Hm as (ws & Hm & _). by apply input_match_cons in Hm as [-> _]. }
        apply input_group_cons in Hm. exists pre. split; [done|].
        intros p' ws' i' H'.
        specialize (Hleft (String c p') ws' i' ltac:(by apply input_match_cons)).
        simpl in Hleft. lia.
Qed.

Lemma search_action_input_marker msg :
  has_input_marker msg → is_Some (search_action_input msg).
Proof.
  unfold has_input_marker. induction msg as [|c m IH].
  - intros (pre & ws & i & H). by apply input_match_nil in H.
  - intros (pre & ws & i & H). rewrite search_action_input_cons.
    destruct (match_input_here (String c m)) as [w|] eqn:Hhere; [by eauto|].
    destruct pre as [|c' p].
    + apply match_input_here_is_Some in H as [? H]. congruence.
    + apply input_match_cons in H as [_ H]. apply IH. eauto.
Qed.

Lemma search_action_input_None msg :
  search_action_input msg = None ↔ ¬ has_input_marker msg.
Proof.
  split.
  - intros Hn Hm. apply search_action_input_marker in Hm as [a Ha]. congruence.
  - intros Hm. destruct (search_action_input msg) as [i|] eqn:Hi; [|done].
    apply search_action_input_spec in Hi as (pre & (ws & Hi & _) & _).
    destruct Hm. by exists pre, ws, i.
Qed.

Lemma search_action_input_needs_label msg :
  Py.contains "Action Input:" msg = false → search_action_input msg = None.
Proof.
  induction msg as [|c msg IH]; [done|].
  unfold Py.contains. fold Py.contains. intros [Hp Hc]%orb_false_elim.
  rewrite search_action_input_cons. unfold match_input_here.
  rewrite (drop_prefix_None _ _ Hp). auto.
Qed.


(** ** The loop on messages, by their text *)

Local Open Scope Z_scope.

(** X18. What the loop hands to the dispatch, for a message of ASCII
    text. The tool name found is group 1 of the leftmost match of the
    action pattern: the longest run of word characters that follows the
    label and any white space after it, at the first place of the message
    where the label is followed so. The input found is group 1 of the
    leftmost match of the input pattern, with the white space after the
    label taken as long as a match allows: the text up to the end of the
    line. Nothing is found exactly when the pattern matches nowhere.
    Stripping leaves the name as it is, and a pass whose message does not
    start with the final marker calls the dispatch with that name and that
    input, stripped. *)
Theorem parsed_fields_shape {DS : Type}
    (llm : list message → SimpleEnvironment → DS → result (string * DS))
    (st : loop_state DS) (msg : string) (src' : DS) :
  ascii_text msg = true →
  (∀ a, search_action msg = Some a ↔ action_found msg a)
  ∧ (∀ i, search_action_input msg = Some i ↔ input_found msg i)
  ∧ (search_action msg = None ↔ ¬ has_action_marker msg)
  ∧ (search_action_input msg = None ↔ ¬ has_input_marker msg)
  ∧ (∀ a, action_found msg a → Py.strip a = a)
  ∧ (llm (conversation_history st) (env st) (source st) = Ret (msg, src') →
     Py.startswith msg "Final Answer:" = false →
     ∀ a i obs e', action_found msg a → input_found msg i →
       execute_action a (Py.strip i) (env st) = Ret (obs, e') →
       loop_body llm st
       = Ret (if Py.contains "SUCCESS" obs then Some GoalFound else None,
              {| env := e'; source := src';
                 conversation_history :=
                   (conversation_history st ++ [assistant msg; observation obs])%list;
                 console :=
                   (console st ++ print_executing a (Py.strip i)
                      :: (if Py.contains "SUCCESS" obs then [print_goal] else []))%list |})).
Proof.
  intros _.
  assert (Hstrip : ∀ a, action_found msg a → Py.strip a = a).
  { intros a (pre & (ws & rest & _ & _ & _ & Hw & _) & _).
    apply strip_nospace. eapply all_chars_impl; [|exact Hw].
    intros c Hc. by rewrite (isword_not_space c Hc). }
  split; [apply search_action_spec|]. split; [apply search_action_input_spec|].
  split; [apply search_action_None|]. split; [apply search_action_input_None|].
  split; [done|].
  intros Hllm Hfin a i obs e' Ha Hi Hex.
  pose proof (Hstrip a Ha) as Hs.
  apply search_action_spec in Ha. apply search_action_input_spec in Hi.
  rewrite <- Hs in Hex.
  rewrite (loop_body_action llm st msg src' a i obs e' Hllm Hfin Ha Hi Hex).
  by rewrite Hs.
Qed.

Lemma parsed_fields_shape_witness :
  let msg := "Action Inputs: Action:  look_around now" ++ nl
               ++ "Action Input:   (1, 1), Open  " in
  action_found msg "look_around" ∧ input_found msg "(1, 1), Open  "
  ∧ Py.strip "look_around" = "look_around".
Proof.
  intros msg.
  destruct (parsed_fields_shape (λ _ _ (s : unit), Ret (msg, s))
              {| env := init_env; source := tt; conversation_history := [];
                 console := [] |} msg tt eq_refl)
    as (Ha & Hi & _ & _ & Hs & _).
  pose proof (proj1 (Ha "look_around") eq_refl) as Hfa.
  split; [exact Hfa|]. split; [exact (proj1 (Hi "(1, 1), Open  ") eq_refl)|].
  exact (Hs _ Hfa).
Defined.

(** C5. Whatever the decision source: a message that does not start
    with the final marker and holds no action marker ends the run through
    the protocol-failure exit, in the pass that received it: the failure
    line is printed, the message is the only entry added to the history,
    no tool call is announced and the environment is as it was. A message
    holds no action marker when the label of the action is not in it, and,
    for a message of ASCII text, also when the label is nowhere followed,
    after any white space, by a word character. The code asks for an input
    marker in the same way: a missing input label, or one that is followed
    by nothing but line ends, ends the run alike. *)
Theorem malformed_message_terminates {DS : Type}
    (llm : list message → SimpleEnvironment → DS → result (string * DS))
    (st : loop_state DS) (msg : string) (src' : DS) (steps done : nat) :
  llm (conversation_history st) (env st) (source st) = Ret (msg, src') →
  Py.startswith msg "Final Answer:" = false →
  (Py.contains "Action:" msg = false ∨ Py.contains "Action Input:" msg = false)
  ∨ (ascii_text msg = true ∧ (¬ has_action_marker msg ∨ ¬ has_input_marker msg)) →
  let st' := {| env := env st; source := src';
                conversation_history := (conversation_history st ++ [assistant msg])%list;
                console := (console st ++ [print_format_error])%list |} in
  loop_body llm st = Ret (Some ProtocolFailure, st')
  ∧ for_steps llm (S steps) done st = Ret (ProtocolFailure, S done, st').
Proof.
  intros Hllm Hfin Hno st'.
  assert (Hparse : search_action msg = None ∨ search_action_input msg = None).
  { destruct Hno as [[Hl|Hl]|[_ [Hm|Hm]]].
    - left. by apply search_action_needs_label.
    - right. by apply search_action_input_needs_label.
    - left. by apply search_action_None.
    - right. by apply search_action_input_None. }
  pose proof (loop_body_malformed llm st msg src' Hllm Hfin Hparse) as Hbody.
  split; [done|]. simpl. by rewrite Hbody.
Qed.

Lemma malformed_message_terminates_witness :
  let llm1 := λ (_ : list message) (_ : SimpleEnvironment) (s : unit),
                Ret ("I do not know what to do.", s) in
  let msg2 := "Thought: go." ++ nl ++ "Action: ???" ++ nl ++ "Action Input: SOUTH" in
  let llm2 := λ (_ : list message) (_ : SimpleEnvironment) (s : unit), Ret (msg2, s) in
  agent_loop llm1 20 init_env tt =
    Ret (ProtocolFailure, 1%nat,
         {| env := init_env; source := tt;
            conversation_history :=
              (initial_history ++ [assistant "I do not know what to do."])%list;
            console := [print_format_error] |})
  ∧ Py.contains "Action:" msg2 = true
  ∧ agent_loop llm2 20 init_env tt =
      Ret (ProtocolFailure, 1%nat,
           {| env := init_env; source := tt;
              conversation_history := (initial_history ++ [assistant msg2])%list;
              console := [print_format_error] |}).
Proof.
  intros llm1 msg2 llm2. split; [|split; [reflexivity|]].
  - exact (proj2 (malformed_message_terminates llm1
      {| env := init_env; source := tt; conversation_history := initial_history;
         console := [] |}
      "I do not know what to do." tt 19 0 eq_refl eq_refl
      (or_introl (or_introl eq_refl)))).
  - refine (proj2 (malformed_message_terminates llm2
      {| env := init_env; source := tt; conversation_history := initial_history;
         console := [] |}
      msg2 tt 19 0 eq_refl eq_refl (or_intror (conj eq_refl (or_introl _))))).
    apply search_action_None. reflexivity.
Defined.

(** C7, amended. Dispatching an action name that is not in the tool
    registry produces the unknown-tool error observation, whatever the
    name, the input and the environment, and leaves the environment as it
    was. In the loop, whatever the decision source, a message of ASCII text
    whose action marker names such a tool gets that observation appended to
    the history after the message; the pass leaves the loop through the
    goal-found exit when the name contains the success token, and
    otherwise the run goes on with the next pass. *)
Theorem unknown_tool_continues {DS : Type}
    (llm : list message → SimpleEnvironment → DS → result (string * DS))
    (st : loop_state DS) (msg a i : string) (src' : DS) (steps done : nat) :
  llm (conversation_history st) (env st) (source st) = Ret (msg, src') →
  ascii_text msg = true →
  Py.startswith msg "Final Answer:" = false →
  action_found msg a → input_found msg i →
  AVAILABLE_TOOLS !! a = None →
  let stop := Py.contains "SUCCESS" a in
  let st' := {| env := env st; source := src';
                conversation_history :=
                  (conversation_history st
                     ++ [assistant msg; observation (msg_unknown_tool a)])%list;
                console :=
                  (console st ++ print_executing a (Py.strip i)
                     :: (if stop then [print_goal] else []))%list |} in
  (∀ a' i' e', AVAILABLE_TOOLS !! a' = None →
     execute_action a' i' e' = Ret (msg_unknown_tool a', e'))
  ∧ loop_body llm st = Ret (if stop then Some GoalFound else None, st')
  ∧ for_steps llm (S steps) done st
    = (if stop then Ret (GoalFound, S done, st')
       else for_steps llm steps (S done) st').
Proof.
  intros Hllm _ Hfin Ha Hi Hreg stop st'.
  split; [intros a' i' e'; apply execute_action_unknown|].
  assert (Hs : Py.strip a = a).
  { destruct Ha as (pre & (ws & rest & _ & _ & _ & Hw & _) & _).
    apply strip_nospace. eapply all_chars_impl; [|exact Hw].
    intros c Hc. by rewrite (isword_not_space c Hc). }
  apply search_action_spec in Ha. apply search_action_input_spec in Hi.
  assert (Hex : execute_action (Py.strip a) (Py.strip i) (env st)
                = Ret (msg_unknown_tool a, env st)).
  { rewrite Hs. by apply execute_action_unknown. }
  pose proof (loop_body_action llm st msg src' a i _ _ Hllm Hfin Ha Hi Hex) as Hbody.
  rewrite contains_success_unknown, Hs in Hbody. fold stop in Hbody.
  assert (Hbody' : loop_body llm st = Ret (if stop then Some GoalFound else None, st')).
  { rewrite Hbody. unfold st'. by destruct stop. }
  split; [done|]. simpl. rewrite Hbody'. by destruct stop.
Qed.

Lemma unknown_tool_continues_witness :
  let msg := "Thought: wings." ++ nl ++ "Action: fly" ++ nl ++ "Action Input: up" in
  let llm := λ (_ : list message) (_ : SimpleEnvironment) (s : unit), Ret (msg, s) in
  let st := {| env := init_env; source := tt;
               conversation_history := initial_history; console := [] |} in
  action_found msg "fly" ∧ input_found msg "up"
  ∧ loop_body llm st =
      Ret (None,
           {| env := init_env; source := tt;
              conversation_history :=
                (initial_history
                   ++ [assistant msg; observation (msg_unknown_tool "fly")])%list;
              console := [print_executing "fly" "up"] |}).
Proof.
  intros msg llm st.
  pose proof (proj1 (search_action_spec msg "fly") eq_refl) as Ha.
  pose proof (proj1 (search_action_input_spec msg "up") eq_refl) as Hi.
  split; [exact Ha|]. split; [exact Hi|].
  exact (proj1 (proj2 (unknown_tool_continues llm st msg "fly" "up" tt 0 0
                         eq_refl eq_refl eq_refl Ha Hi eq_refl))).
Defined.
